(** * PhotoMosaic: the tile-matching and placement engine

    A shallow embedding of [catalog.py] (the grid colour summarizer) and of
    [mosaic.py] (colour-table reader, square crop, signature distance, tile
    matcher, spiral placement scheduler, layout arithmetic, pasting boxes
    and similarity metric), followed by the properties of these functions.

    Numeric conventions.  Python [int] is [Z].  A Python [float] that is
    produced from integers by [+ - * /] only (layout arithmetic, the
    summarizer's means, the spiral's bounds) is the exact rational [Q]; the
    conversions [int(.)] and [round(.)] are then the mathematical truncation
    and round-half-to-even, which is what CPython computes as long as the
    integers involved stay far below 2^53 and the value is not within one
    unit in the last place of a rounding boundary.  A [float] that goes
    through [math.sqrt] (tile distances, the metric) is a real number [R]
    in [Mosaic], for the properties that hold however the operations
    round; for those that depend on the rounding, [Float64] gives the
    matcher and the metric over binary64, with the IEEE 754 operations of
    the kernel's primitive floats.  A raised exception
    ([ZeroDivisionError], [IndexError], [AssertionError], [ValueError],
    [OverflowError]) is [None]. *)

From Stdlib Require Import ZArith QArith Qround Reals Lra Lia List Sorted.
From Stdlib Require Lqa Floats.
From stdpp Require Import gmap list strings.

Local Open Scope Z_scope.

(** ** Python built-ins used by the two scripts *)

Module Py.

(** [range(n)] *)
Definition range (n : Z) : list Z := map Z.of_nat (seq 0 (Z.to_nat n)).

(** [int(q)] on a float: truncation towards zero. *)
Definition int (q : Q) : Z := Z.quot (Qnum q) (Z.pos (Qden q)).

(** [round(q)] on a float: nearest integer, ties to the even one. *)
Definition round (q : Q) : Z :=
  let f := Qfloor q in
  match Qcompare (q - inject_Z f) (1 # 2) with
  | Lt => f
  | Gt => f + 1
  | Eq => if Z.even f then f else f + 1
  end.

(** [a / b]: true division, raising [ZeroDivisionError] on [b == 0]. *)
Definition truediv (a b : Q) : option Q :=
  if Qeq_bool b 0 then None else Some (a / b)%Q.

(** [a < b] on floats. *)
Definition ltb (a b : Q) : bool := negb (Qle_bool b a).

(** [l[p]] for [p >= 0]; [IndexError] past the end. *)
Definition index {A} (l : list A) (p : Z) : option A :=
  if p <? 0 then None else l !! Z.to_nat p.

(** [l[p] = v] for [p >= 0]; [IndexError] past the end. *)
Definition setitem {A} (l : list A) (p : Z) (v : A) : option (list A) :=
  if (0 <=? p) && (p <? Z.of_nat (length l))
  then Some (<[Z.to_nat p := v]> l) else None.

(** [for a in l: body], the body threading the loop's variables and
    possibly raising. *)
Fixpoint for_ {A S} (l : list A) (body : A -> S -> option S) (s : S)
  : option S :=
  match l with
  | [] => Some s
  | a :: l' => s' ← body a s; for_ l' body s'
  end.

End Py.

(** ** Images (the part of PIL's interface the engine consumes) *)

Definition RGB : Type := Z * Z * Z.

Record Image := {
  im_size : Z * Z;                (* (width, height) *)
  im_data : Z -> Z -> RGB         (* pixel at column x, row y *)
}.

(** [im.getpixel((x, y))]: negative coordinates count from the far edge,
    anything still outside the image raises [IndexError]. *)
Definition getpixel (im : Image) (x y : Z) : option RGB :=
  let '(w, h) := im_size im in
  let x := if x <? 0 then w + x else x in
  let y := if y <? 0 then h + y else y in
  if (0 <=? x) && (x <? w) && (0 <=? y) && (y <? h)
  then Some (im_data im x y) else None.

(** A colour summary: the red, green and blue lists of [colours] and of a
    colour-table row. *)
Definition Signature : Type := list Z * list Z * list Z.

(** ** catalog.py *)

Module Catalog.

(** The variables of [colours] that its loops update. *)
Record vars := {
  redval : list Z;
  greenval : list Z;
  blueval : list Z;
  section : Z;
  count : Z
}.

(** [redval[section] = redval[section] + r] and the same for green and
    blue, then [count = count + 1]. *)
Definition addPixel (px : RGB) (v : vars) : option vars :=
  let '(r, g, b) := px in
  rv ← Py.index (redval v) (section v);
  reds ← Py.setitem (redval v) (section v) (rv + r);
  gv ← Py.index (greenval v) (section v);
  greens ← Py.setitem (greenval v) (section v) (gv + g);
  bv ← Py.index (blueval v) (section v);
  blues ← Py.setitem (blueval v) (section v) (bv + b);
  Some {| redval := reds; greenval := greens; blueval := blues;
          section := section v; count := count v + 1 |}.

(** [redval[section] = round(redval[section] / count)] and the same for
    green and blue, then [section = section + 1; count = 0]. *)
Definition average (v : vars) : option vars :=
  rv ← Py.index (redval v) (section v);
  rq ← Py.truediv (inject_Z rv) (inject_Z (count v));
  reds ← Py.setitem (redval v) (section v) (Py.round rq);
  gv ← Py.index (greenval v) (section v);
  gq ← Py.truediv (inject_Z gv) (inject_Z (count v));
  greens ← Py.setitem (greenval v) (section v) (Py.round gq);
  bv ← Py.index (blueval v) (section v);
  bq ← Py.truediv (inject_Z bv) (inject_Z (count v));
  blues ← Py.setitem (blueval v) (section v) (Py.round bq);
  Some {| redval := reds; greenval := greens; blueval := blues;
          section := section v + 1; count := 0 |}.

(** [colours(im, dim)] *)
Definition colours (im : Image) (dim : Z) : option Signature :=
  let '(width, height) := im_size im in
  let zeros := replicate (Z.to_nat (dim * dim)) 0 in
  v ← Py.for_ (Py.range dim) (fun x v =>
    xw ← Py.truediv (inject_Z (x * width)) (inject_Z dim);
    let iOffset := Py.int xw in
    Py.for_ (Py.range dim) (fun y v =>
      yh ← Py.truediv (inject_Z (y * height)) (inject_Z dim);
      let jOffset := Py.int yh in
      wd ← Py.truediv (inject_Z width) (inject_Z dim);
      v ← Py.for_ (Py.range (Py.int wd)) (fun i v =>
        let iLoc := i + iOffset in
        hd ← Py.truediv (inject_Z height) (inject_Z dim);
        Py.for_ (Py.range (Py.int hd)) (fun j v =>
          let jLoc := j + jOffset in
          px ← getpixel im iLoc jLoc;
          addPixel px v) v) v;
      average v) v)
    {| redval := zeros; greenval := zeros; blueval := zeros;
       section := 0; count := 0 |};
  Some (redval v, greenval v, blueval v).

End Catalog.

(** ** mosaic.py *)

Module Mosaic.

(** *** Constants *)

Definition THUMB_SIZE : Z := 840.
Definition DPI : Z := 300.
Definition INCHES2MM : Q := 254 # 10.
Definition MOSAIC_ORIGINAL_TILE_INDEX : Z := -1.
Definition MOSAIC_ORIGINAL_TILE_DISTANCE : R := 0%R.

(** The colour table returned by [readcolourtable]: one
    [(name, (redval, greenval, blueval))] per line of the catalog. *)
Definition ColourTable : Type := list (string * Signature).

(** [tileLocations]: a dict from [(row, col)] to
    [(bestTileIndex, bestDistance)]; [placedTiles]: a set of indices. *)
Abbreviation TileLocations := (gmap (Z * Z) (Z * R)).
Abbreviation PlacedTiles := (gset Z).

(** *** checkFill *)

Definition checkFill (pagei imagei dpi : Z) : Z * Z :=
  let idiff := pagei - imagei in
  let ib := Py.int (inject_Z idiff / 2) in
  let ie := if negb (idiff mod 2 =? 0) then 0 + 1 else 0 in
  let ibp := Py.round (inject_Z (ib * dpi) / INCHES2MM) in
  let iep := Py.round (inject_Z (ie * dpi) / INCHES2MM) in
  (ibp, iep).

(** *** distance *)

Definition distance (dim : Z) (r1 g1 b1 r2 g2 b2 : list Z) : option R :=
  Py.for_ (Py.range (dim * dim)) (fun p dist =>
    r1p ← Py.index r1 p; r2p ← Py.index r2 p;
    let reddist := Z.abs (r1p - r2p) in
    g1p ← Py.index g1 p; g2p ← Py.index g2 p;
    let greendist := Z.abs (g1p - g2p) in
    b1p ← Py.index b1 p; b2p ← Py.index b2 p;
    let bluedist := Z.abs (b1p - b2p) in
    let d := sqrt (IZR (reddist * reddist + greendist * greendist
                        + bluedist * bluedist)) in
    Some (dist + d)%R) 0%R.

(** *** findBestTile *)

(** The pixels sampled for grid cell [(row, col)]: [fx] outside, [fy]
    inside, appended to [r], [g] and [b]. *)
Definition samplePixels (inimage : Image) (dim row col : Z)
  : option Signature :=
  Py.for_ (Py.range dim) (fun fx sig =>
    Py.for_ (Py.range dim) (fun fy '(r, g, b) =>
      '(rp, gp, bp) ← getpixel inimage (col * dim + fx) (row * dim + fy);
      Some (r ++ [rp], g ++ [gp], b ++ [bp])) sig) ([], [], []).

(** The distance line of the scan: [distance(...)] followed by
    [dist / (dim*dim)]. *)
Definition tileDistance (dim : Z) (sig colours : Signature) : option R :=
  let '(r, g, b) := sig in
  let '(tr, tg, tb) := colours in
  dist ← distance dim r g b tr tg tb;
  if dim * dim =? 0 then None else Some (dist / IZR (dim * dim))%R.

(** [found], [bestTileIndex] and [bestDistance] are one option: [None]
    is [found == False]. *)
Definition findBestTile (inimage : Image) (allowDups : bool)
           (placedTiles : PlacedTiles) (table : ColourTable)
           (dim row col : Z) : option (Z * R) :=
  sig ← samplePixels inimage dim row col;
  best ← Py.for_ (Py.range (Z.of_nat (length table))) (fun i best =>
    if allowDups || negb (bool_decide (i ∈ placedTiles)) then
      '(name, colours) ← Py.index table i;
      dist ← tileDistance dim sig colours;
      match best with
      | None => Some (Some (i, dist))
      | Some (bestTileIndex, bestDistance) =>
          if Rlt_dec dist bestDistance then Some (Some (i, dist))
          else Some best
      end
    else Some best) None;
  best.

(** *** placeBestTile *)

Definition placeBestTile (originalRow originalCol cnt nTiles : Z)
           (inimage : Image) (allowDups : bool)
           (tileLocations : TileLocations) (placedTiles : PlacedTiles)
           (table : ColourTable) (dim row col : Z)
  : option (TileLocations * PlacedTiles) :=
  '(bestTileIndex, bestDistance) ←
    (if (row =? originalRow) && (col =? originalCol)
     then Some (MOSAIC_ORIGINAL_TILE_INDEX, MOSAIC_ORIGINAL_TILE_DISTANCE)
     else
       best ← findBestTile inimage allowDups placedTiles table dim row col;
       _ ← Py.index table best.1;
       Some best);
  Some (<[(row, col) := (bestTileIndex, bestDistance)]> tileLocations,
        {[bestTileIndex]} ∪ placedTiles).

(** *** placeSpiral *)

(** [-XD/2 < x <= XD/2 and -YD/2 < y <= YD/2] *)
Definition inGrid (XD YD x y : Z) : bool :=
  Py.ltb (inject_Z (- XD) / 2) (inject_Z x)
  && Qle_bool (inject_Z x) (inject_Z XD / 2)
  && Py.ltb (inject_Z (- YD) / 2) (inject_Z y)
  && Qle_bool (inject_Z y) (inject_Z YD / 2).

(** [x == y or (x < 0 and x == -y) or (x > 0 and x == 1-y)] *)
Definition atCorner (x y : Z) : bool :=
  (x =? y) || ((x <? 0) && (x =? - y)) || ((0 <? x) && (x =? 1 - y)).

(** The variables of the spiral walk, with the state [st] that the call
    made for an accepted cell updates. *)
Record walk (St : Type) := {
  wx : Z; wy : Z; wdx : Z; wdy : Z; wcnt : Z; wst : St
}.
Arguments wx {St}. Arguments wy {St}. Arguments wdx {St}.
Arguments wdy {St}. Arguments wcnt {St}. Arguments wst {St}.

(** The [for i in range(max(XD, YD)**2)] loop; [place cnt row col] is
    the call made for an accepted cell. *)
Definition spiral {St} (place : Z -> Z -> Z -> St -> option St)
           (XD YD : Z) (st : St) : option (walk St) :=
  let ic := Py.int (inject_Z (XD - 1) / 2) in
  let jc := Py.int (inject_Z (YD - 1) / 2) in
  Py.for_ (Py.range (Z.max XD YD ^ 2)) (fun i w =>
    w ← (if inGrid XD YD (wx w) (wy w) then
           let im_i := ic + wx w in
           let im_j := jc + wy w in
           st ← place (wcnt w) im_j im_i (wst w);
           Some {| wx := wx w; wy := wy w; wdx := wdx w; wdy := wdy w;
                   wcnt := wcnt w + 1; wst := st |}
         else Some w);
    let '(dx, dy) := if atCorner (wx w) (wy w) then (- wdy w, wdx w)
                     else (wdx w, wdy w) in
    Some {| wx := wx w + dx; wy := wy w + dy; wdx := dx; wdy := dy;
            wcnt := wcnt w; wst := wst w |})
    {| wx := 0; wy := 0; wdx := 0; wdy := -1; wcnt := 0; wst := st |}.

(** [tileLocations] and [placedTiles] when the loop of [placeSpiral] has
    ended. *)
Definition placeSpiralVars (inimage : Image) (originalRow originalCol : Z)
           (XD YD : Z) (table : ColourTable) (dim : Z) (allowDups : bool)
  : option (TileLocations * PlacedTiles) :=
  w ← spiral (fun cnt row col '(tileLocations, placedTiles) =>
                placeBestTile originalRow originalCol cnt (XD * YD) inimage
                  allowDups tileLocations placedTiles table dim row col)
             XD YD (∅, ∅);
  Some (wst w).

(** [placeSpiral] returns [(tileLocations, len(placedTiles))]. *)
Definition placeSpiral (inimage : Image) (originalRow originalCol : Z)
           (XD YD : Z) (table : ColourTable) (dim : Z) (allowDups : bool)
  : option (TileLocations * Z) :=
  '(tileLocations, placedTiles) ←
    placeSpiralVars inimage originalRow originalCol XD YD table dim
                    allowDups;
  Some (tileLocations, Z.of_nat (size placedTiles)).

(** The cells for which the walk calls [placeBestTile], as [(row, col)]
    in call order: the same loop with a call that only records its
    arguments. *)
Definition acceptedCells (XD YD : Z) : option (list (Z * Z)) :=
  w ← spiral (fun cnt row col cells => Some (cells ++ [(row, col)]))
             XD YD [];
  Some (wst w).

(** *** metric *)

Record tally := { dist : R; same : Z; maxd : R; cnt : Z }.

(** [resize] stands for PIL's [Image.resize]. *)
Definition metric (resize : Image -> Z * Z -> Image)
           (original mosaic : Image) : option R :=
  let '(oWidth, oHeight) := im_size original in
  let '(mWidth, mHeight) := im_size mosaic in
  if negb (oWidth <=? mWidth) then None else
  if negb (oHeight <=? mHeight) then None else
  let oImage := resize original (mWidth, mHeight) in
  let mImage := mosaic in
  let factor := sqrt (IZR (3 * 256 * 256)) in
  t ← Py.for_ (Py.range mWidth) (fun x t =>
    Py.for_ (Py.range mHeight) (fun y t =>
      '(r1, g1, b1) ← getpixel oImage x y;
      '(r2, g2, b2) ← getpixel mImage x y;
      let rdist := Z.abs (r1 - r2) in
      let gdist := Z.abs (g1 - g2) in
      let bdist := Z.abs (b1 - b2) in
      let d := sqrt (IZR (rdist * rdist + gdist * gdist + bdist * bdist)) in
      if Req_dec_T d 0 then
        Some {| dist := dist t; same := same t + 1; maxd := maxd t;
                cnt := cnt t + 1 |}
      else
        let normD := (d / factor)%R in
        Some {| dist := (dist t + normD)%R; same := same t;
                maxd := if Rgt_dec normD (maxd t) then normD else maxd t;
                cnt := cnt t + 1 |}) t)
    {| dist := 0%R; same := 0; maxd := 0%R; cnt := 0 |};
  if cnt t =? 0 then None else Some (dist t / IZR (cnt t))%R.

(** [percent = (1 - metricAvg) * 100.0], the figure [mosaic] reports. *)
Definition percent (metricAvg : R) : R := ((1 - metricAvg) * 100)%R.

(** *** mosaic *)

(** Lines 445-485: the tile counts [(XD, YD)] from the canvas, the
    margin, the tile size and the size of the image being mosaicked. *)
Definition tileGrid (canvas : Z * Z) (margin tilemm : Z) (size : Z * Z)
  : option (Z * Z) :=
  if negb (canvas.1 <? canvas.2) then None else
  let pagesize := (canvas.1 - 2 * margin, canvas.2 - 2 * margin) in
  outX ← Py.truediv (inject_Z pagesize.1) (inject_Z tilemm);
  outY ← Py.truediv (inject_Z pagesize.2) (inject_Z tilemm);
  outRatio ← Py.truediv outX outY;
  let '(origX, origY) := size in
  origRatio ← Py.truediv (inject_Z origX) (inject_Z origY);
  '(XD, YD) ←
    (if Py.ltb origRatio outRatio then
       Some (Py.int (outY * origRatio), Py.int outY)
     else
       q ← Py.truediv outX origRatio;
       Some (Py.int outX, Py.int q));
  ratio ← Py.truediv (inject_Z XD) (inject_Z YD);
  Some (XD, YD).

(** Lines 488-497: the tile side in pixels. *)
Definition tileSize (tilemm : Z) : Z :=
  let tilesize := THUMB_SIZE in
  let targetTilesize := Py.round (inject_Z (DPI * tilemm) / INCHES2MM) in
  if targetTilesize <? tilesize then targetTilesize else tilesize.

Record plan := {
  XD : Z; YD : Z; tilesize : Z;
  bigwidth : Z; bigheight : Z;
  leftOffset : Z; topOffset : Z;
  actualw : Z; actualh : Z;
  actualxmm : Z; actualymm : Z
}.

(** Lines 513-574: pixel and millimetre sizes of the output image.
    [maxPixels] is [MY_MAX_IMAGE_PIXELS], PIL's [Image.MAX_IMAGE_PIXELS]
    as found at import time. *)
Definition canvasPlan (maxPixels : Z) (canvas : Z * Z) (margin : Z)
           (XD YD tilesize : Z) : option plan :=
  let bigwidth := tilesize * XD in
  let bigheight := tilesize * YD in
  '(tilesize, bigwidth, bigheight) ←
    (if (maxPixels <? bigwidth) || (maxPixels <? bigheight) then
       newtilesize ←
         (if bigheight <? bigwidth
          then q ← Py.truediv (inject_Z maxPixels) (inject_Z XD);
               Some (Py.int q)
          else q ← Py.truediv (inject_Z maxPixels) (inject_Z YD);
               Some (Py.int q));
       Some (newtilesize, newtilesize * XD, newtilesize * YD)
     else Some (tilesize, bigwidth, bigheight));
  let xmm := Py.int (inject_Z bigwidth * INCHES2MM / inject_Z DPI) in
  let ymm := Py.int (inject_Z bigheight * INCHES2MM / inject_Z DPI) in
  if negb (xmm <=? canvas.1) then None else
  if negb (ymm <=? canvas.2) then None else
  let '(widthFillPixels, widthExtraPixels) := checkFill canvas.1 xmm DPI in
  let '(heightFillPixels, heightExtraPixels) := checkFill canvas.2 ymm DPI in
  let actualw := bigwidth + widthFillPixels * 2 + widthExtraPixels in
  let actualh := bigheight + heightFillPixels * 2 + heightExtraPixels in
  let actualxmm := Py.round (inject_Z actualw * INCHES2MM / inject_Z DPI) in
  let actualymm := Py.round (inject_Z actualh * INCHES2MM / inject_Z DPI) in
  Some {| XD := XD; YD := YD; tilesize := tilesize;
          bigwidth := bigwidth; bigheight := bigheight;
          leftOffset := widthFillPixels; topOffset := heightFillPixels;
          actualw := actualw; actualh := actualh;
          actualxmm := actualxmm; actualymm := actualymm |}.

(** How far a run of [mosaic] gets.  [Placed] is reached when
    [placeSpiral] has returned; pasting the tiles, saving the output image
    and printing the metric follow it and happen in no other case. *)
Inductive stage := Layout | Resize | Placement.

Inductive outcome :=
| Raised (s : stage)
| NotEnoughImages
| Placed (p : plan) (tileLocations : TileLocations) (nTilesUsed : Z).

(** [mosaic] up to the return of [placeSpiral].  [originalImage],
    [outname] and [alpha] are used by the pasting loop only.  [resize]
    stands for PIL's [Image.resize], which raises [ValueError] ("height
    and width must be > 0") when a side asked for is below 1; this is
    [Raised Resize], at line 486, ahead of the check of the number of
    images. *)
Definition mosaic (resize : Image -> Z * Z -> Image) (maxPixels : Z)
           (newImage : Image) (rotated : bool) (table : ColourTable)
           (tilemm : Z) (canvas : Z * Z) (dim : Z) (allowDups : bool)
           (margin : Z) : outcome :=
  match tileGrid canvas margin tilemm (im_size newImage) with
  | None => Raised Layout
  | Some (XD, YD) =>
      let '(X, Y) := (dim * XD, dim * YD) in
      if (X <? 1) || (Y <? 1) then Raised Resize else
      let inimage := resize newImage (X, Y) in
      let tilesize := tileSize tilemm in
      if (Z.of_nat (length table) <? XD * YD) && negb allowDups
      then NotEnoughImages
      else
        match canvasPlan maxPixels canvas margin XD YD tilesize with
        | None => Raised Layout
        | Some p =>
            let originalRow := YD - 1 in
            let originalCol := if rotated then XD - 1 else 0 in
            match placeSpiral inimage originalRow originalCol XD YD
                              table dim allowDups with
            | None => Raised Placement
            | Some (tileLocations, nTilesUsed) =>
                Placed p tileLocations nTilesUsed
            end
        end
  end.

(** *** crop *)

(** PIL's [Image.crop((left, top, right, bottom))] for a box with
    [left <= right] and [top <= bottom]: the region has
    [right - left] columns and [bottom - top] rows; a pixel of the box
    that lies outside the image is black. *)
Definition Image_crop (im : Image) (box : Z * Z * Z * Z) : Image :=
  let left := box.1.1.1 in let top := box.1.1.2 in
  let right := box.1.2 in let bottom := box.2 in
  {| im_size := (right - left, bottom - top);
     im_data := fun x y =>
       if (0 <=? left + x) && (left + x <? (im_size im).1)
          && (0 <=? top + y) && (top + y <? (im_size im).2)
       then im_data im (left + x) (top + y) else (0, 0, 0) |}.

(** [crop(image)]; the outer option is Python's [None] here, which
    [crop] passes through. *)
Definition crop (image : option Image) : option Image :=
  match image with
  | None => None
  | Some image =>
      let '(width, height) := im_size image in
      if width <? height then
        let side := width in
        let offset := Py.int (inject_Z (height - width) / 2) in
        let left := 0 in let top := offset in
        let right := side in let bottom := offset + side in
        Some (Image_crop image (left, top, right, bottom))
      else if height <? width then
        let side := height in
        let offset := Py.int (inject_Z (width - height) / 2) in
        let left := offset in let top := 0 in
        let right := offset + side in let bottom := side in
        Some (Image_crop image (left, top, right, bottom))
      else Some image
  end.

(** *** The pasting loop of mosaic *)

(** Lines 619-635: the box of the output image into which the tile of
    the placement entry [key = (row, col)] is pasted. *)
Definition tileBox (p : plan) (key : Z * Z) : Z * Z * Z * Z :=
  let '(row, col) := key in
  let left := col * tilesize p in
  let right := left + tilesize p in
  let top := row * tilesize p in
  let bottom := top + tilesize p in
  (leftOffset p + left, topOffset p + top,
   leftOffset p + right, topOffset p + bottom).

(** Line 658: the box that is cropped out of the output image as
    [justMosaic] and handed to [metric]. *)
Definition mosaicBox (p : plan) : Z * Z * Z * Z :=
  (leftOffset p, topOffset p,
   leftOffset p + XD p * tilesize p, topOffset p + YD p * tilesize p).

(** *** main *)

(** PIL's [rotate(90, expand=True)], which is [transpose(ROTATE_90)]: a
    quarter turn anticlockwise. *)
Definition Image_rotate90 (im : Image) : Image :=
  let '(width, height) := im_size im in
  {| im_size := (height, width);
     im_data := fun x y => im_data im (width - 1 - y) x |}.

(** Lines 679-690: [(rotated, workingImage)] as [main] passes them to
    [mosaic]. *)
Definition workingImage (originalImage : Image) : bool * Image :=
  let '(width, height) := im_size originalImage in
  if height <? width then (true, Image_rotate90 originalImage)
  else (false, originalImage).

(** Lines 719-726: the canvas for a custom page size [WxH], [w] and [h]
    being the two integers read from the argument; [None] is the branch
    that prints the usage message. *)
Definition customCanvas (w h : Z) : option (Z * Z) :=
  if h <? w then None else Some (w, h).

(** *** readcolourtable *)

(** The variables of the [for d in range(dim*dim)] loop. *)
Record rowVars := {
  r_redval : list Z; r_greenval : list Z; r_blueval : list Z; r_offset : Z
}.

(** One pass of the loop body: three fields are read at [offset].
    [int] stands for [int] on a string ([None] is its [ValueError]). *)
Definition readTriple (int : string -> option Z) (cols : list string)
           (v : rowVars) : option rowVars :=
  c ← Py.index cols (r_offset v); red ← int c;
  c ← Py.index cols (r_offset v + 1); green ← int c;
  c ← Py.index cols (r_offset v + 2); blue ← int c;
  Some {| r_redval := r_redval v ++ [red];
          r_greenval := r_greenval v ++ [green];
          r_blueval := r_blueval v ++ [blue];
          r_offset := r_offset v + 3 |}.

(** One line of the catalog: [cols = line.split()], then the loop over
    the triples.  [split] stands for [str.split]. *)
Definition readRow (split : string -> list string)
           (int : string -> option Z) (dim : Z) (line : string)
  : option (string * Signature) :=
  let cols := split line in
  name ← Py.index cols 0;
  v ← Py.for_ (Py.range (dim * dim)) (fun d v => readTriple int cols v)
    {| r_redval := []; r_greenval := []; r_blueval := []; r_offset := 1 |};
  Some (name, (r_redval v, r_greenval v, r_blueval v)).

(** [readcolourtable]; [lines] are the lines that [readline] returns
    before the end of the file. *)
Definition readcolourtable (split : string -> list string)
           (int : string -> option Z) (lines : list string) (dim : Z)
  : option ColourTable :=
  Py.for_ lines (fun line ctable =>
    entry ← readRow split int dim line;
    Some (ctable ++ [entry])) [].

End Mosaic.

Import Catalog Mosaic.

(** ** mosaic.py in binary64

    The functions of [mosaic.py] whose result depends on how the
    floating-point operations round, once more with a Python [float] as
    the binary64 number it is: [+], [/], [<], [==] and [math.sqrt] are
    the IEEE 754 operations.  The loops, the failures and the integer
    arithmetic are those of [Mosaic]. *)

Module Float64.

Import PrimFloat.

(** [float(n)] of a Python [int], as [math.sqrt(n)] and [x / n] convert
    their integer argument: the nearest binary64, ties to even;
    [OverflowError] from [2^1024 - 2^970] on, where that would be
    infinite. *)
Definition of_int (n : Z) : option float :=
  if Z.abs n <? 2 ^ 1024 - 2 ^ 970
  then Some (FloatOps.SF2Prim (SpecFloat.binary_normalize 53 1024 n 0 false))
  else None.

(** *** distance *)

Definition distance (dim : Z) (r1 g1 b1 r2 g2 b2 : list Z) : option float :=
  Py.for_ (Py.range (dim * dim)) (fun p dist =>
    r1p ← Py.index r1 p; r2p ← Py.index r2 p;
    let reddist := Z.abs (r1p - r2p) in
    g1p ← Py.index g1 p; g2p ← Py.index g2 p;
    let greendist := Z.abs (g1p - g2p) in
    b1p ← Py.index b1 p; b2p ← Py.index b2 p;
    let bluedist := Z.abs (b1p - b2p) in
    n ← of_int (reddist * reddist + greendist * greendist
                + bluedist * bluedist);
    let d := sqrt n in
    Some (dist + d)%float) 0%float.

(** *** findBestTile *)

(** [distance(...)] followed by [dist / (dim*dim)]; the division raises
    [ZeroDivisionError] when [dim*dim], converted, is [0.0], which is
    when it is [0]. *)
Definition tileDistance (dim : Z) (sig colours : Signature) : option float :=
  let '(r, g, b) := sig in
  let '(tr, tg, tb) := colours in
  dist ← distance dim r g b tr tg tb;
  n ← of_int (dim * dim);
  if dim * dim =? 0 then None else Some (dist / n)%float.

Definition findBestTile (inimage : Image) (allowDups : bool)
           (placedTiles : PlacedTiles) (table : ColourTable)
           (dim row col : Z) : option (Z * float) :=
  sig ← samplePixels inimage dim row col;
  best ← Py.for_ (Py.range (Z.of_nat (length table))) (fun i best =>
    if allowDups || negb (bool_decide (i ∈ placedTiles)) then
      '(name, colours) ← Py.index table i;
      dist ← tileDistance dim sig colours;
      match best with
      | None => Some (Some (i, dist))
      | Some (bestTileIndex, bestDistance) =>
          if (dist <? bestDistance)%float then Some (Some (i, dist))
          else Some best
      end
    else Some best) None;
  best.

(** *** metric *)

Record tally := { dist : float; same : Z; maxd : float; cnt : Z }.

Definition metric (resize : Image -> Z * Z -> Image)
           (original mosaic : Image) : option float :=
  let '(oWidth, oHeight) := im_size original in
  let '(mWidth, mHeight) := im_size mosaic in
  if negb (oWidth <=? mWidth) then None else
  if negb (oHeight <=? mHeight) then None else
  let oImage := resize original (mWidth, mHeight) in
  let mImage := mosaic in
  n ← of_int (3 * 256 * 256);
  let factor := sqrt n in
  t ← Py.for_ (Py.range mWidth) (fun x t =>
    Py.for_ (Py.range mHeight) (fun y t =>
      '(r1, g1, b1) ← getpixel oImage x y;
      '(r2, g2, b2) ← getpixel mImage x y;
      let rdist := Z.abs (r1 - r2) in
      let gdist := Z.abs (g1 - g2) in
      let bdist := Z.abs (b1 - b2) in
      n ← of_int (rdist * rdist + gdist * gdist + bdist * bdist);
      let d := sqrt n in
      if (d =? 0)%float then
        Some {| dist := dist t; same := same t + 1; maxd := maxd t;
                cnt := cnt t + 1 |}
      else
        let normD := (d / factor)%float in
        Some {| dist := (dist t + normD)%float; same := same t;
                maxd := if (maxd t <? normD)%float then normD else maxd t;
                cnt := cnt t + 1 |}) t)
    {| dist := 0%float; same := 0; maxd := 0%float; cnt := 0 |};
  n ← of_int (cnt t);
  if cnt t =? 0 then None else Some (dist t / n)%float.

(** [percent = (1 - metricAvg) * 100.0] *)
Definition percent (metricAvg : float) : float :=
  ((1 - metricAvg) * 100)%float.

End Float64.

(** * Specification-side definitions *)


(** One pass of the loop body on the walk variables alone. *)
Definition next (s : Z * Z * Z * Z) : Z * Z * Z * Z :=
  let '(x, y, dx, dy) := s in
  let '(dx', dy') := if atCorner x y then (- dy, dx) else (dx, dy) in
  (x + dx', y + dy', dx', dy').

Fixpoint positions (n : nat) (s : Z * Z * Z * Z) : list (Z * Z) :=
  match n with
  | O => []
  | S n' => (s.1.1.1, s.1.1.2) :: positions n' (next s)
  end.

Definition east (x y : Z) : bool := (1 <=? x) && (1 - x <=? y) && (y <=? x).
Definition north (x y : Z) : bool := (1 <=? y) && (- y <? x) && (x <? y).
Definition west (x y : Z) : bool := (x <=? 0) && (x <=? y) && (y <=? - x).

(** The step at which the walk stands on [(x, y)]. *)
Definition rank (x y : Z) : Z :=
  if east x y then (2 * x - 1) * (2 * x - 1) + (y + x - 1)
  else if north x y then (2 * y - 1) * (2 * y - 1) + 2 * y + (y - 1 - x)
  else if west x y then (2 * x) * (2 * x) + (- x - y)
  else (2 * y) * (2 * y) + (- 2 * y + 1) + (x - y - 1).

(** The direction with which the walk arrives on [(x, y)]. *)
Definition heading (x y : Z) : Z * Z :=
  if east x y then (if y =? 1 - x then (1, 0) else (0, 1))
  else if north x y then (-1, 0)
  else if west x y then
    (if x =? 0 then (0, -1) else if y =? - x then (-1, 0) else (0, -1))
  else (1, 0).

(** The four arms of the spiral partition the plane. *)
Inductive arm (x y : Z) : Prop :=
| arm_east : 1 <= x -> 1 - x <= y -> y <= x -> arm x y
| arm_north : 1 <= y -> - y < x -> x < y -> arm x y
| arm_west : x <= 0 -> x <= y -> y <= - x -> arm x y
| arm_south : y <= -1 -> y < x -> x <= - y -> arm x y.

Definition start : Z * Z * Z * Z := (0, 0, 0, -1).

Definition aligned (s : Z * Z * Z * Z) : Prop :=
  heading s.1.1.1 s.1.1.2 = (s.1.2, s.2).

(** The cells of the square of side [n] around the start. *)
Definition squareCells (n : Z) : list (Z * Z) :=
  list_prod (map (fun i => i - (n - 1) ÷ 2) (Py.range n))
            (map (fun i => i - (n - 1) ÷ 2) (Py.range n)).

(** The calls the walk makes, as a fold over the cells it accepts:
    [cells] are centre-relative [(x, y)] pairs. *)
Fixpoint visitAll {St} (place : Z -> Z -> Z -> St -> option St)
         (ic jc : Z) (cells : list (Z * Z)) (cnt : Z) (st : St) : option St :=
  match cells with
  | [] => Some st
  | (x, y) :: rest =>
      st' ← place cnt (jc + y) (ic + x) st;
      visitAll place ic jc rest (cnt + 1) st'
  end.

Definition accepted (XD YD : Z) (n : nat) (s : Z * Z * Z * Z) : list (Z * Z) :=
  List.filter (fun p => inGrid XD YD p.1 p.2) (positions n s).

(** Cell [p] of a signature. *)
Definition cell (s : Signature) (p : Z) : RGB :=
  (default 0 (Py.index s.1.1 p), default 0 (Py.index s.1.2 p),
   default 0 (Py.index s.2 p)).

(** Euclidean distance across the three channels. *)
Definition cellDistance (c1 c2 : RGB) : R :=
  sqrt (IZR ((c1.1.1 - c2.1.1) ^ 2 + (c1.1.2 - c2.1.2) ^ 2
             + (c1.2 - c2.2) ^ 2)).

Definition sumR (l : list R) : R := foldr Rplus 0%R l.

(** Sum over the cells of the per-cell distance, divided by [d²]. *)
Definition signatureDistance (d : Z) (a b : Signature) : R :=
  (sumR (map (fun p => cellDistance (cell a p) (cell b p)) (Py.range (d * d)))
   / IZR (d * d))%R.

(** A signature of [d*d] cells. *)
Definition hasCells (d : Z) (s : Signature) : Prop :=
  length s.1.1 = Z.to_nat (d * d) /\ length s.1.2 = Z.to_nat (d * d) /\
  length s.2 = Z.to_nat (d * d).

(** The candidate set of the scan. *)
Definition candidate (allowDups : bool) (placedTiles : gset Z)
           (table : ColourTable) (i : Z) : Prop :=
  0 <= i < Z.of_nat (length table) /\ (allowDups = true \/ i ∉ placedTiles).

(** The averaged distance of catalog entry [i] to a sampled signature. *)
Definition distanceTo (dim : Z) (sig : Signature) (table : ColourTable)
           (i : Z) : option R :=
  '(name, colours) ← Py.index table i; tileDistance dim sig colours.

(** A colour table as [readcolourtable] builds it for dimension [dim]. *)
Definition tableOf (dim : Z) (table : ColourTable) : Prop :=
  forall name colours, (name, colours) ∈ table -> hasCells dim colours.

(** What the scan holds after the entries below [n]. *)
Definition bestBelow (allowDups : bool) (placedTiles : gset Z)
           (table : ColourTable) (dim : Z) (sig : Signature)
           (n : Z) (best : option (Z * R)) : Prop :=
  match best with
  | None => forall i, 0 <= i < n -> ~ candidate allowDups placedTiles table i
  | Some (b, d) =>
      0 <= b < n /\ candidate allowDups placedTiles table b /\
      distanceTo dim sig table b = Some d /\
      forall j dj, 0 <= j < n -> candidate allowDups placedTiles table j ->
                   distanceTo dim sig table j = Some dj ->
                   (d <= dj)%R /\ (j < b -> (d < dj)%R)
  end.

(** The call made for one accepted cell [(row, col)]. *)
Definition placeStep (originalRow originalCol nTiles : Z) (inimage : Image)
           (allowDups : bool) (table : ColourTable) (dim : Z)
           (rc : Z * Z) (s : TileLocations * PlacedTiles)
  : option (TileLocations * PlacedTiles) :=
  placeBestTile originalRow originalCol 0 nTiles inimage allowDups s.1 s.2
                table dim rc.1 rc.2.

(** The catalog indices [0 .. n-1]. *)
Definition catalogIndices (n : nat) : gset Z :=
  list_to_set (Py.range (Z.of_nat n)).

(** The catalog tiles recorded in a placement: its indices without the
    sentinel. *)
Definition tilesPlaced (tileLocations : TileLocations) : gset Z :=
  map_img (fst <$> tileLocations) ∖ {[MOSAIC_ORIGINAL_TILE_INDEX]}.

(** Number of cells of a list that are not the origin cell. *)
Definition tileCells (originalRow originalCol : Z) (cells : list (Z * Z)) : nat :=
  length (filter (fun c => c <> (originalRow, originalCol)) cells).

(** Whether a run got as far as calling [placeSpiral]. *)
Definition reachedPlacement (o : outcome) : bool :=
  match o with
  | Placed _ _ _ | Raised Placement => true
  | _ => false
  end.

Definition tenTiles : ColourTable :=
  replicate 10 ("tile"%string, ([0], [0], [0])).

(** Per-pixel Euclidean distance between the two images, divided by
    [factor], summed over the [w * h] pixels, column by column. *)
Definition normalisedSum (factor : R) (o m : Image) (w h : Z) : R :=
  sumR (map (fun x =>
         sumR (map (fun y =>
                (cellDistance (im_data o x y) (im_data m x y) / factor)%R)
              (Py.range h)))
       (Py.range w)).

(** [(1 - average) * 100] with the average taken over all [w * h] pixels. *)
Definition similarity (factor : R) (o m : Image) (w h : Z) : R :=
  ((1 - normalisedSum factor o m w h / IZR (w * h)) * 100)%R.

Definition onePixel (c : RGB) : Image :=
  {| im_size := (1, 1); im_data := fun _ _ => c |}.

Definition sumZ (l : list Z) : Z := foldr Z.add 0 l.

(** The integer-truncated span of section index [s] along an axis of
    [size] pixels: it starts at [int(s*size/dim)] and is [int(size/dim)]
    pixels long. *)
Definition spanStart (size dim s : Z) : Z := (s * size) ÷ dim.
Definition spanLength (size dim : Z) : Z := size ÷ dim.

(** The pixels of section [(x, y)], in the order the loops read them. *)
Definition sectionPixels (w h dim x y : Z) : list (Z * Z) :=
  flat_map (fun i => map (fun j => (i + spanStart w dim x,
                                    j + spanStart h dim y))
                         (Py.range (spanLength h dim)))
           (Py.range (spanLength w dim)).

(** Mean of a channel, rounded as [round] does. *)
Definition mean (vals : list Z) : Z :=
  Py.round (inject_Z (sumZ vals) / inject_Z (Z.of_nat (length vals))).

Definition sectionColour (im : Image) (dim x y : Z) : RGB :=
  let px := map (fun p => im_data im p.1 p.2)
                (sectionPixels (im_size im).1 (im_size im).2 dim x y) in
  (mean (map (fun c => c.1.1) px), mean (map (fun c => c.1.2) px),
   mean (map (fun c => c.2) px)).

(** The sections in the order they are numbered: [x] outside, [y] inside. *)
Definition sections (dim : Z) : list (Z * Z) :=
  flat_map (fun x => map (fun y => (x, y)) (Py.range dim)) (Py.range dim).

Definition summary (im : Image) (dim : Z) : Signature :=
  let cells := map (fun s => sectionColour im dim s.1 s.2) (sections dim) in
  (map (fun c => c.1.1) cells, map (fun c => c.1.2) cells,
   map (fun c => c.2) cells).

(** A pixel that no section reads. *)
Definition omitted (w h dim i j : Z) : Prop :=
  forall x y, 0 <= x < dim -> 0 <= y < dim ->
              (i, j) ∉ sectionPixels w h dim x y.

(** The body of the [for y] loop for section [(x, y)]. *)
Definition sectionStep (im : Image) (dim : Z) (s : Z * Z) (v : vars)
  : option vars :=
  v ← Py.for_ (sectionPixels (im_size im).1 (im_size im).2 dim s.1 s.2)
              (fun p v => px ← getpixel im p.1 p.2; addPixel px v) v;
  average v.

(** The variables while section [k] is being summed: the three lists hold
    the running sums at index [k]. *)
Definition summing (k : nat) (reds greens blues : list Z) (rs gs bs : Z)
           (n : Z) : vars :=
  {| redval := <[k := rs]> reds; greenval := <[k := gs]> greens;
     blueval := <[k := bs]> blues; section := Z.of_nat k; count := n |}.

(** Two one-cell tiles and a 2 x 1 source image, for [dim = 1]. *)
Definition twoTiles : ColourTable :=
  [("white"%string, ([255], [255], [255]));
   ("black"%string, ([0], [0], [0]))].

Definition twoPixels : Image :=
  {| im_size := (2, 1); im_data := fun x _ => if x =? 0 then (255, 255, 255)
                                               else (0, 0, 0) |}.

(** A pixel of the output image inside a box. *)
Definition inBox (box : Z * Z * Z * Z) (x y : Z) : Prop :=
  box.1.1.1 <= x < box.1.2 /\ box.1.1.2 <= y < box.2.

(** The ring of a centre-relative position, and of a grid cell: its
    distance from the centre cell, counted in cells along the farther
    axis. *)
Definition ring (x y : Z) : Z := Z.max (Z.abs x) (Z.abs y).

Definition cellRing (XD YD : Z) (c : Z * Z) : Z :=
  ring (c.2 - (XD - 1) ÷ 2) (c.1 - (YD - 1) ÷ 2).

(** A line cut at its ASCII whitespace (tab to carriage return, the four
    separators and the space), as [str.split()] cuts it, and a field of
    decimal digits read as a number: the fields and numbers of the lines
    that [catalog.py] writes. *)
Definition isspace (c : Ascii.ascii) : bool :=
  let n := Z.of_nat (Ascii.nat_of_ascii c) in
  ((9 <=? n) && (n <=? 13)) || ((28 <=? n) && (n <=? 32)).

Fixpoint fields (line word : string) : list string :=
  match line with
  | EmptyString => if decide (word = EmptyString) then [] else [word]
  | String c rest =>
      if isspace c then
        if decide (word = EmptyString) then fields rest EmptyString
        else word :: fields rest EmptyString
      else fields rest (word +:+ String c EmptyString)
  end.

Fixpoint digits (field : string) (n : Z) : option Z :=
  match field with
  | EmptyString => Some n
  | String c rest =>
      let v := Z.of_nat (Ascii.nat_of_ascii c) - 48 in
      if (0 <=? v) && (v <=? 9) then digits rest (10 * n + v) else None
  end.

(** *** The matcher in binary64 *)






(** The numbers that the code reports for a black source and a white
    mosaic of one pixel: the average [0.9960937500000001] and the
    percentage [0.3906249999999889]. *)
Module Reported.
Import PrimFloat.
Definition blackWhiteAverage : float := 0x1.fe00000000001p-1.
Definition blackWhitePercent : float := 0x1.8ffffffffff38p-2.
End Reported.

(** Two tiles of [2 x 2] cells whose cells lie at distances
    [sqrt 2, sqrt 3, sqrt 6, 0] and [sqrt 2, sqrt 6, sqrt 3, 0] from
    black, and a black image of [2 x 2] pixels. *)
Definition permutedTiles : ColourTable :=
  [("a"%string, ([1; 1; 2; 0], [1; 1; 1; 0], [0; 1; 1; 0]));
   ("b"%string, ([1; 2; 1; 0], [1; 1; 1; 0], [0; 1; 1; 0]))].

Definition blackBlock : Image :=
  {| im_size := (2, 2); im_data := fun _ _ => (0, 0, 0) |}.

(** * Properties *)

Lemma east_spec x y : east x y = true <-> 1 <= x /\ 1 - x <= y /\ y <= x.
Proof. unfold east. rewrite !andb_true_iff, !Z.leb_le. tauto. Qed.

Lemma north_spec x y : north x y = true <-> 1 <= y /\ - y < x /\ x < y.
Proof. unfold north. rewrite !andb_true_iff, Z.leb_le, !Z.ltb_lt. tauto. Qed.

Lemma west_spec x y : west x y = true <-> x <= 0 /\ x <= y /\ y <= - x.
Proof. unfold west. rewrite !andb_true_iff, !Z.leb_le. tauto. Qed.

Lemma atCorner_spec x y :
  atCorner x y = true <->
  x = y \/ (x < 0 /\ x = - y) \/ (0 < x /\ x = 1 - y).
Proof.
  unfold atCorner.
  rewrite !orb_true_iff, !andb_true_iff, !Z.eqb_eq, !Z.ltb_lt. tauto.
Qed.

Ltac decide_bool b v :=
  let H := fresh "Hb" in
  assert (H : b = v) by
    (first [ apply east_spec | apply north_spec | apply west_spec
           | apply atCorner_spec | apply Z.eqb_eq | apply Z.eqb_neq
           | apply not_true_iff_false;
             first [ rewrite east_spec | rewrite north_spec
                   | rewrite west_spec | rewrite atCorner_spec ] ]; lia);
  rewrite ?H in *.

Lemma arm_total x y : arm x y.
Proof.
  assert (H : (1 <= x /\ 1 - x <= y /\ y <= x) \/
              (1 <= y /\ - y < x /\ x < y) \/
              (x <= 0 /\ x <= y /\ y <= - x) \/
              (y <= -1 /\ y < x /\ x <= - y)) by lia.
  destruct H as [(? & ? & ?)|[(? & ? & ?)|[(? & ? & ?)|(? & ? & ?)]]];
    [ apply arm_east | apply arm_north | apply arm_west | apply arm_south ];
    assumption.
Qed.

Lemma rank_east x y :
  1 <= x -> 1 - x <= y -> y <= x ->
  rank x y = (2 * x - 1) * (2 * x - 1) + (y + x - 1) /\
  heading x y = if y =? 1 - x then (1, 0) else (0, 1).
Proof.
  intros. unfold rank, heading. decide_bool (east x y) true. done.
Qed.

Lemma rank_north x y :
  1 <= y -> - y < x -> x < y ->
  rank x y = (2 * y - 1) * (2 * y - 1) + 2 * y + (y - 1 - x) /\
  heading x y = (-1, 0).
Proof.
  intros. unfold rank, heading.
  decide_bool (east x y) false. decide_bool (north x y) true. done.
Qed.

Lemma rank_west x y :
  x <= 0 -> x <= y -> y <= - x ->
  rank x y = (2 * x) * (2 * x) + (- x - y) /\
  heading x y =
    if x =? 0 then (0, -1) else if y =? - x then (-1, 0) else (0, -1).
Proof.
  intros. unfold rank, heading.
  decide_bool (east x y) false. decide_bool (north x y) false.
  decide_bool (west x y) true. done.
Qed.

Lemma rank_south x y :
  y <= -1 -> y < x -> x <= - y ->
  rank x y = (2 * y) * (2 * y) + (- 2 * y + 1) + (x - y - 1) /\
  heading x y = (1, 0).
Proof.
  intros. unfold rank, heading.
  decide_bool (east x y) false. decide_bool (north x y) false.
  decide_bool (west x y) false. done.
Qed.

Ltac norm := simpl; change (- 0) with 0; change (- -1) with 1;
  change (Z.opp 1) with (-1);
  rewrite ?Z.add_0_r.

Ltac finish :=
  split;
  [ repeat match goal with
           | Hb : ?b = _ |- context [if ?b then _ else _] => rewrite Hb
           end; done
  | lia ].

Ltac use_arm lem x y :=
  let Hr := fresh "Hr" in let Hh := fresh "Hh" in
  destruct (lem x y) as [Hr Hh]; [lia .. |]; rewrite Hr, Hh.

(** One step keeps the heading in line with the position and advances the
    rank by one. *)
Lemma next_rank x y :
  let s' := next (x, y, (heading x y).1, (heading x y).2) in
  heading s'.1.1.1 s'.1.1.2 = (s'.1.2, s'.2) /\
  rank s'.1.1.1 s'.1.1.2 = rank x y + 1.
Proof.
  unfold next.
  destruct (arm_total x y) as [?|?|?|?].
  - use_arm rank_east x y.
    destruct (Z.eq_dec y (1 - x)); [|destruct (Z.eq_dec y x)].
    + decide_bool (y =? 1 - x) true. decide_bool (atCorner x y) true.
      norm. use_arm rank_east x (y + 1).
      decide_bool (y + 1 =? 1 - x) false. finish.
    + decide_bool (y =? 1 - x) false. decide_bool (atCorner x y) true.
      norm. subst y. use_arm rank_north (x + -1) x. finish.
    + decide_bool (y =? 1 - x) false. decide_bool (atCorner x y) false.
      norm. use_arm rank_east x (y + 1).
      decide_bool (y + 1 =? 1 - x) false. finish.
  - use_arm rank_north x y. decide_bool (atCorner x y) false. norm.
    destruct (Z.eq_dec x (1 - y)).
    + subst x. use_arm rank_west (1 - y + -1) y.
      decide_bool (1 - y + -1 =? 0) false.
      decide_bool (y =? - (1 - y + -1)) true. finish.
    + use_arm rank_north (x + -1) y. finish.
  - use_arm rank_west x y.
    destruct (Z.eq_dec x 0); [|destruct (Z.eq_dec y (- x));
                                [|destruct (Z.eq_dec y x)]].
    + assert (y = 0) by lia. subst x y. split; reflexivity.
    + decide_bool (x =? 0) false. decide_bool (y =? - x) true.
      decide_bool (atCorner x y) true. norm.
      use_arm rank_west x (y + -1).
      decide_bool (y + -1 =? - x) false. finish.
    + decide_bool (x =? 0) false. decide_bool (y =? - x) false.
      decide_bool (atCorner x y) true. norm. subst y.
      use_arm rank_south (x + 1) x. finish.
    + decide_bool (x =? 0) false. decide_bool (y =? - x) false.
      decide_bool (atCorner x y) false. norm.
      use_arm rank_west x (y + -1).
      decide_bool (y + -1 =? - x) false. finish.
  - use_arm rank_south x y. decide_bool (atCorner x y) false. norm.
    destruct (Z.eq_dec x (- y)).
    + subst x. use_arm rank_east (- y + 1) y.
      decide_bool (y =? 1 - (- y + 1)) true. finish.
    + use_arm rank_south (x + 1) y. finish.
Qed.

Ltac use_rank lem x y :=
  let Hr := fresh "Hr" in
  destruct (lem x y) as [Hr _]; [lia .. |]; rewrite Hr.

Lemma rank_nonneg x y : 0 <= rank x y.
Proof.
  destruct (arm_total x y);
    [ use_rank rank_east x y | use_rank rank_north x y
    | use_rank rank_west x y | use_rank rank_south x y ]; nia.
Qed.

(** A cell reached before step [n*n] lies in the square of side [n] around
    the start. *)
Lemma rank_square x y n :
  0 <= n -> rank x y < n * n ->
  (- n < 2 * x <= n) /\ (- n < 2 * y <= n).
Proof.
  intros Hn.
  destruct (arm_total x y);
    [ use_rank rank_east x y | use_rank rank_north x y
    | use_rank rank_west x y | use_rank rank_south x y ]; intros Hlt.
  - assert (2 * x - 1 < n) by nia. lia.
  - assert (2 * y - 1 < n) by nia. lia.
  - assert (- 2 * x < n) by nia. lia.
  - assert (- 2 * y < n) by nia. lia.
Qed.

Lemma aligned_next s :
  aligned s -> aligned (next s) /\
  rank (next s).1.1.1 (next s).1.1.2 = rank s.1.1.1 s.1.1.2 + 1.
Proof.
  destruct s as [[[x y] dx] dy]. unfold aligned. simpl. intros H.
  pose proof (next_rank x y) as Hn. rewrite H in Hn. exact Hn.
Qed.

Lemma length_positions n s : length (positions n s) = n.
Proof. revert s. induction n; intros; simpl; [done | by rewrite IHn]. Qed.

Lemma positions_rank n s i p :
  aligned s -> positions n s !! i = Some p ->
  rank p.1 p.2 = rank s.1.1.1 s.1.1.2 + Z.of_nat i.
Proof.
  revert s i. induction n as [|n IH]; intros s i Hs Hi; [done|].
  destruct (aligned_next s Hs) as [Ha Hr].
  destruct i as [|i]; simpl in Hi.
  - inversion Hi. simpl. lia.
  - rewrite (IH _ _ Ha Hi), Hr. lia.
Qed.

Lemma NoDup_positions n : NoDup (positions n start).
Proof.
  apply NoDup_alt. intros i j p Hi Hj.
  apply positions_rank in Hi; [|done]. apply positions_rank in Hj; [|done].
  lia.
Qed.

Lemma positions_in_square n p :
  0 <= n -> p ∈ positions (Z.to_nat (n * n)) start ->
  (- n < 2 * p.1 <= n) /\ (- n < 2 * p.2 <= n).
Proof.
  intros Hn Hp. apply list_elem_of_lookup in Hp as [i Hi].
  pose proof (lookup_lt_Some _ _ _ Hi) as Hlt.
  rewrite length_positions in Hlt.
  apply positions_rank in Hi; [|done].
  change (rank start.1.1.1 start.1.1.2) with 0 in Hi.
  apply rank_square; lia.
Qed.

Lemma length_range n : length (Py.range n) = Z.to_nat n.
Proof. unfold Py.range. by rewrite length_map, length_seq. Qed.

Lemma elem_of_range n x : x ∈ Py.range n <-> 0 <= x < n.
Proof.
  unfold Py.range. rewrite list_elem_of_fmap. split.
  - intros (i & -> & Hi). apply elem_of_seq in Hi. lia.
  - intros Hx. exists (Z.to_nat x). split; [lia|]. apply elem_of_seq. lia.
Qed.

Lemma Qhalf_lt a x : (inject_Z a / 2 < inject_Z x)%Q <-> a < 2 * x.
Proof. unfold Qlt. simpl. lia. Qed.

Lemma Qhalf_le a x : (inject_Z x <= inject_Z a / 2)%Q <-> 2 * x <= a.
Proof. unfold Qle. simpl. lia. Qed.

Lemma inGrid_spec XD YD x y :
  inGrid XD YD x y = true <->
  (- XD < 2 * x <= XD) /\ (- YD < 2 * y <= YD).
Proof.
  unfold inGrid, Py.ltb.
  rewrite !andb_true_iff, !negb_true_iff, !Qle_bool_iff, !Qhalf_le.
  rewrite <- !not_true_iff_false, !Qle_bool_iff, !Qhalf_le. lia.
Qed.

Lemma int_half n : Py.int (inject_Z n / 2) = n ÷ 2.
Proof. unfold Py.int. simpl. by rewrite Z.mul_1_r. Qed.

(** Centre-relative coordinates in the grid are exactly the grid's columns
    (or rows) shifted by the centre [int((n-1)/2)]. *)
Lemma centred n x :
  1 <= n -> (- n < 2 * x <= n) <-> (0 <= (n - 1) ÷ 2 + x < n).
Proof.
  intros Hn. rewrite Z.quot_div_nonneg by lia.
  pose proof (Z.div_mod (n - 1) 2). pose proof (Z.mod_pos_bound (n - 1) 2).
  lia.
Qed.

Lemma length_squareCells n : 0 <= n -> length (squareCells n) = Z.to_nat (n * n).
Proof.
  intros. unfold squareCells.
  rewrite length_prod, !length_map, !length_range. lia.
Qed.

Lemma elem_of_squareCells n x y :
  1 <= n -> (- n < 2 * x <= n) -> (- n < 2 * y <= n) ->
  In (x, y) (squareCells n).
Proof.
  intros Hn Hx Hy. apply in_prod; apply in_map_iff.
  - exists ((n - 1) ÷ 2 + x). split; [lia|].
    apply list_elem_of_In, elem_of_range, centred; done.
  - exists ((n - 1) ÷ 2 + y). split; [lia|].
    apply list_elem_of_In, elem_of_range, centred; done.
Qed.

(** In [n*n] steps the walk stands on every cell of the square of side
    [n]. *)
Lemma positions_cover n x y :
  1 <= n -> (- n < 2 * x <= n) -> (- n < 2 * y <= n) ->
  (x, y) ∈ positions (Z.to_nat (n * n)) start.
Proof.
  intros Hn Hx Hy. apply list_elem_of_In.
  apply (NoDup_length_incl (l' := squareCells n)).
  - apply NoDup_ListNoDup, NoDup_positions.
  - rewrite length_positions, length_squareCells; lia.
  - intros [a b] Hin. apply list_elem_of_In in Hin.
    apply positions_in_square in Hin; [|lia].
    apply elem_of_squareCells; tauto.
  - by apply elem_of_squareCells.
Qed.

Section SpiralLoop.
Context {St : Type} (place : Z -> Z -> Z -> St -> option St).
Variables XD YD : Z.

Let ic := Py.int (inject_Z (XD - 1) / 2).
Let jc := Py.int (inject_Z (YD - 1) / 2).

Let body := (fun (i : Z) (w : walk St) =>
    w ← (if inGrid XD YD (wx w) (wy w) then
           let im_i := ic + wx w in
           let im_j := jc + wy w in
           st ← place (wcnt w) im_j im_i (wst w);
           Some {| wx := wx w; wy := wy w; wdx := wdx w; wdy := wdy w;
                   wcnt := wcnt w + 1; wst := st |}
         else Some w);
    let '(dx, dy) := if atCorner (wx w) (wy w) then (- wdy w, wdx w)
                     else (wdx w, wdy w) in
    Some {| wx := wx w + dx; wy := wy w + dy; wdx := dx; wdy := dy;
            wcnt := wcnt w; wst := wst w |}).

Lemma body_eq i w :
  body i w =
  match (if inGrid XD YD (wx w) (wy w)
         then st ← place (wcnt w) (jc + wy w) (ic + wx w) (wst w);
              Some (st, wcnt w + 1)
         else Some (wst w, wcnt w)) with
  | None => None
  | Some (st, c) =>
      let d := if atCorner (wx w) (wy w) then (- wdy w, wdx w)
               else (wdx w, wdy w) in
      Some {| wx := wx w + d.1; wy := wy w + d.2; wdx := d.1; wdy := d.2;
              wcnt := c; wst := st |}
  end.
Proof.
  unfold body. destruct (inGrid XD YD (wx w) (wy w)); simpl;
    [destruct (place _ _ _ _); simpl; [|done]|];
    destruct (atCorner (wx w) (wy w)); done.
Qed.

Lemma spiral_loop (l : list Z) (w : walk St) :
  wst <$> Py.for_ l body w =
  visitAll place ic jc
    (accepted XD YD (length l) (wx w, wy w, wdx w, wdy w)) (wcnt w) (wst w).
Proof.
  revert w. induction l as [|i l IH]; intros w; [done|].
  unfold accepted. simpl. rewrite body_eq.
  destruct (inGrid XD YD (wx w) (wy w)) eqn:Hin; simpl.
  - destruct (place (wcnt w) (jc + wy w) (ic + wx w) (wst w)) as [st|];
      simpl; [|done].
    destruct (atCorner (wx w) (wy w)); simpl; rewrite IH; done.
  - destruct (atCorner (wx w) (wy w)); simpl; rewrite IH; done.
Qed.

Lemma spiral_visitAll (st : St) :
  wst <$> spiral place XD YD st =
  visitAll place ic jc
    (accepted XD YD (Z.to_nat (Z.max XD YD ^ 2)) start) 0 st.
Proof.
  unfold spiral. fold ic jc. 
  change (Py.for_ _ _ ?w) with (Py.for_ (Py.range (Z.max XD YD ^ 2)) body w).
  rewrite spiral_loop, length_range. done.
Qed.

(** When the call does not look at [cnt], the walk is a plain loop over
    the accepted cells as [(row, col)] pairs. *)
Lemma visitAll_for cells cnt st :
  (forall c c' row col s, place c row col s = place c' row col s) ->
  visitAll place ic jc cells cnt st =
  Py.for_ (map (fun p => (jc + p.2, ic + p.1)) cells)
          (fun rc s => place 0 rc.1 rc.2 s) st.
Proof.
  intros Hcnt. revert cnt st.
  induction cells as [|[x y] cells IH]; intros cnt st; [done|].
  simpl. rewrite (Hcnt cnt 0).
  destruct (place 0 (jc + y) (ic + x) st); simpl; [apply IH | done].
Qed.

End SpiralLoop.

Lemma visitAll_log ic jc cells cnt (log : list (Z * Z)) :
  visitAll (fun _ row col cs => Some (cs ++ [(row, col)])) ic jc cells cnt log
  = Some (log ++ map (fun p => (jc + p.2, ic + p.1)) cells).
Proof.
  revert cnt log. induction cells as [|[x y] cells IH]; intros cnt log; simpl.
  - by rewrite app_nil_r.
  - rewrite IH. by rewrite <- app_assoc.
Qed.

Lemma acceptedCells_eq XD YD :
  acceptedCells XD YD =
  Some (map (fun p => ((YD - 1) ÷ 2 + p.2, (XD - 1) ÷ 2 + p.1))
            (accepted XD YD (Z.to_nat (Z.max XD YD ^ 2)) start)).
Proof.
  unfold acceptedCells.
  pose proof (spiral_visitAll
    (fun (_ row col : Z) cs => Some (cs ++ [(row, col)])) XD YD []) as H.
  rewrite visitAll_log, !int_half in H.
  destruct (spiral _ XD YD []) as [w|]; simpl in *; [|done].
  by inversion H.
Qed.

Lemma elem_of_accepted XD YD x y :
  1 <= XD -> 1 <= YD ->
  (x, y) ∈ accepted XD YD (Z.to_nat (Z.max XD YD ^ 2)) start <->
  (- XD < 2 * x <= XD) /\ (- YD < 2 * y <= YD).
Proof.
  intros HX HY. unfold accepted.
  rewrite list_elem_of_In, filter_In, <- list_elem_of_In. simpl.
  rewrite inGrid_spec. split; [tauto|]. intros H. split; [|done].
  replace (Z.max XD YD ^ 2) with (Z.max XD YD * Z.max XD YD) by lia.
  apply positions_cover; lia.
Qed.

Lemma NoDup_accepted XD YD n : NoDup (accepted XD YD n start).
Proof.
  apply NoDup_ListNoDup, List.NoDup_filter, NoDup_ListNoDup, NoDup_positions.
Qed.

Lemma acceptedCells_grid_head XD YD :
  1 <= XD -> 1 <= YD ->
  exists cells,
    acceptedCells XD YD = Some cells /\
    NoDup cells /\
    (forall row col, (row, col) ∈ cells <-> 0 <= row < YD /\ 0 <= col < XD) /\
    head cells = Some (Py.int (inject_Z (YD - 1) / 2),
                       Py.int (inject_Z (XD - 1) / 2)).
Proof.
  intros HX HY. eexists. split; [apply acceptedCells_eq|].
  split; [|split].
  - apply NoDup_fmap_2; [|apply NoDup_accepted].
    intros [x y] [x' y'] Heq. simpl in Heq. inversion Heq. f_equal; lia.
  - intros row col. rewrite list_elem_of_fmap. split.
    + intros ([x y] & Heq & Hin). simpl in Heq. inversion Heq; subst.
      apply elem_of_accepted in Hin; [|done..].
      rewrite <- !centred by done. tauto.
    + intros [Hr Hc]. exists (col - (XD - 1) ÷ 2, row - (YD - 1) ÷ 2).
      split; [simpl; f_equal; lia|].
      apply elem_of_accepted; [done..|].
      rewrite !centred by done.
      replace ((XD - 1) ÷ 2 + (col - (XD - 1) ÷ 2)) with col by lia.
      replace ((YD - 1) ÷ 2 + (row - (YD - 1) ÷ 2)) with row by lia. done.
  - rewrite !int_half. unfold accepted.
    assert (Z.to_nat (Z.max XD YD ^ 2) = S (Z.to_nat (Z.max XD YD ^ 2) - 1))
      as -> by nia.
    simpl. 
    assert (inGrid XD YD 0 0 = true) as -> by (apply inGrid_spec; lia).
    simpl. by rewrite !Z.add_0_r.
Qed.

(** C1: for a grid with [XD >= 1] and [YD >= 1], the walk of
    [max(XD, YD)^2] steps accepts every cell of the [XD x YD] rectangle
    exactly once (the list of accepted cells has no duplicate and holds
    exactly the cells with [0 <= row < YD] and [0 <= col < XD]), and the
    first accepted cell is the grid centre
    [(int((YD-1)/2), int((XD-1)/2))]. *)
Theorem spiral_accepts_each_cell_once XD YD :
  1 <= XD -> 1 <= YD ->
  exists cells,
    acceptedCells XD YD = Some cells /\
    NoDup cells /\
    (forall row col, (row, col) ∈ cells <-> 0 <= row < YD /\ 0 <= col < XD) /\
    head cells = Some (Py.int (inject_Z (YD - 1) / 2),
                       Py.int (inject_Z (XD - 1) / 2)).
Proof. apply acceptedCells_grid_head. Qed.


(** *** Specification of the signature distance *)

Lemma for_app {A S} (l1 l2 : list A) (body : A -> S -> option S) s :
  Py.for_ (l1 ++ l2) body s = Py.for_ l1 body s ≫= Py.for_ l2 body.
Proof.
  revert s. induction l1 as [|a l1 IH]; intros s; simpl; [done|].
  destruct (body a s); simpl; [apply IH | done].
Qed.

Lemma range_S (n : nat) :
  Py.range (Z.of_nat (S n)) = Py.range (Z.of_nat n) ++ [Z.of_nat n].
Proof.
  unfold Py.range. rewrite !Nat2Z.id, seq_S, map_app. done.
Qed.

Lemma range_nat n : 0 <= n -> Py.range n = Py.range (Z.of_nat (Z.to_nat n)).
Proof. intros. by rewrite Z2Nat.id. Qed.

Lemma index_Some {A} (l : list A) p :
  0 <= p < Z.of_nat (length l) -> exists a, Py.index l p = Some a.
Proof.
  intros Hp. unfold Py.index.
  destruct (Z.ltb_spec p 0); [lia|].
  apply lookup_lt_is_Some_2. lia.
Qed.

Lemma sumR_app l1 l2 : sumR (l1 ++ l2) = (sumR l1 + sumR l2)%R.
Proof. induction l1; simpl; [lra | rewrite IHl1; lra]. Qed.

Lemma sumR_nonneg l : (forall v, v ∈ l -> (0 <= v)%R) -> (0 <= sumR l)%R.
Proof.
  induction l as [|a l IH]; intros H; simpl; [lra|].
  assert (0 <= a)%R by (apply H; left).
  assert (0 <= sumR l)%R by (apply IH; intros; apply H; by right). lra.
Qed.

Lemma sumR_zero l :
  (forall v, v ∈ l -> (0 <= v)%R) -> sumR l = 0%R -> forall v, v ∈ l -> v = 0%R.
Proof.
  induction l as [|a l IH]; intros H Hs v Hv; [by apply elem_of_nil in Hv|].
  simpl in Hs.
  assert (0 <= a)%R by (apply H; left).
  assert (0 <= sumR l)%R by (apply sumR_nonneg; intros; apply H; by right).
  apply elem_of_cons in Hv as [->|Hv]; [lra|].
  apply IH; [intros; apply H; by right | lra | done].
Qed.

Lemma cellDistance_abs (r1 g1 b1 r2 g2 b2 : Z) :
  sqrt (IZR (Z.abs (r1 - r2) * Z.abs (r1 - r2)
             + Z.abs (g1 - g2) * Z.abs (g1 - g2)
             + Z.abs (b1 - b2) * Z.abs (b1 - b2)))
  = cellDistance (r1, g1, b1) (r2, g2, b2).
Proof. unfold cellDistance. simpl. do 2 f_equal. lia. Qed.

(** The loop of [distance] over the first [n] cells. *)
Lemma distance_prefix (a b : Signature) (n : nat) (d0 : R) :
  (n <= length b.1.1 /\ n <= length b.1.2 /\ n <= length b.2)%nat ->
  (n <= length a.1.1 /\ n <= length a.1.2 /\ n <= length a.2)%nat ->
  Py.for_ (Py.range (Z.of_nat n)) (fun p dist =>
      r1p ← Py.index a.1.1 p; r2p ← Py.index b.1.1 p;
      let reddist := Z.abs (r1p - r2p) in
      g1p ← Py.index a.1.2 p; g2p ← Py.index b.1.2 p;
      let greendist := Z.abs (g1p - g2p) in
      b1p ← Py.index a.2 p; b2p ← Py.index b.2 p;
      let bluedist := Z.abs (b1p - b2p) in
      let d := sqrt (IZR (reddist * reddist + greendist * greendist
                          + bluedist * bluedist)) in
      Some (dist + d)%R) d0
  = Some (d0 + sumR (map (fun p => cellDistance (cell a p) (cell b p))
                         (Py.range (Z.of_nat n))))%R.
Proof.
  intros Hb Ha. induction n as [|n IH].
  - simpl. f_equal. lra.
  - rewrite range_S, for_app, IH by lia. simpl.
    destruct (index_Some a.1.1 (Z.of_nat n)) as [r1 Hr1]; [lia|].
    destruct (index_Some b.1.1 (Z.of_nat n)) as [r2 Hr2]; [lia|].
    destruct (index_Some a.1.2 (Z.of_nat n)) as [g1 Hg1]; [lia|].
    destruct (index_Some b.1.2 (Z.of_nat n)) as [g2 Hg2]; [lia|].
    destruct (index_Some a.2 (Z.of_nat n)) as [b1 Hb1]; [lia|].
    destruct (index_Some b.2 (Z.of_nat n)) as [b2 Hb2]; [lia|].
    rewrite Hr1, Hr2, Hg1, Hg2, Hb1, Hb2. simpl.
    rewrite map_app, sumR_app. simpl. unfold cell.
    rewrite Hr1, Hr2, Hg1, Hg2, Hb1, Hb2. simpl.
    rewrite cellDistance_abs. f_equal. lra.
Qed.

Lemma distance_eq d a b :
  0 <= d -> hasCells d a -> hasCells d b ->
  distance d a.1.1 a.1.2 a.2 b.1.1 b.1.2 b.2 =
  Some (sumR (map (fun p => cellDistance (cell a p) (cell b p))
                  (Py.range (d * d)))).
Proof.
  intros Hd (Ha1 & Ha2 & Ha3) (Hb1 & Hb2 & Hb3).
  unfold distance. rewrite (range_nat (d * d)) by nia.
  rewrite (distance_prefix a b) by lia. f_equal. lra.
Qed.

Lemma tileDistance_eq d a b :
  1 <= d -> hasCells d a -> hasCells d b ->
  tileDistance d a b = Some (signatureDistance d a b).
Proof.
  intros Hd Ha Hb. unfold tileDistance.
  destruct a as [[r g] bl], b as [[tr tg] tb].
  pose proof (distance_eq d (r, g, bl) (tr, tg, tb)) as He. simpl in He.
  rewrite He by (done || lia). simpl.
  destruct (Z.eqb_spec (d * d) 0); [nia | done].
Qed.


Lemma cellDistance_nonneg c1 c2 : (0 <= cellDistance c1 c2)%R.
Proof. apply sqrt_pos. Qed.

Lemma cellDistance_zero c1 c2 : cellDistance c1 c2 = 0%R -> c1 = c2.
Proof.
  destruct c1 as [[r1 g1] b1], c2 as [[r2 g2] b2]. unfold cellDistance. simpl.
  intros H. apply sqrt_eq_0 in H; [|apply IZR_le; nia].
  apply eq_IZR in H.
  assert (r1 - r2 = 0) by nia. assert (g1 - g2 = 0) by nia.
  assert (b1 - b2 = 0) by nia. repeat f_equal; lia.
Qed.

Lemma cellDistance_refl c : cellDistance c c = 0%R.
Proof.
  unfold cellDistance.
  replace ((c.1.1 - c.1.1) ^ 2 + (c.1.2 - c.1.2) ^ 2 + (c.2 - c.2) ^ 2)
    with 0 by lia.
  apply sqrt_0.
Qed.

Lemma index_default_eq (l1 l2 : list Z) n :
  length l1 = n -> length l2 = n ->
  (forall p, 0 <= p < Z.of_nat n ->
             default 0 (Py.index l1 p) = default 0 (Py.index l2 p)) ->
  l1 = l2.
Proof.
  intros H1 H2 H. apply list_eq. intros i.
  destruct (decide (i < n)%nat) as [Hi|Hi].
  - specialize (H (Z.of_nat i)). unfold Py.index in H.
    destruct (Z.ltb_spec (Z.of_nat i) 0); [lia|]. rewrite Nat2Z.id in H.
    destruct (lookup_lt_is_Some_2 l1 i) as [v1 Hv1]; [lia|].
    destruct (lookup_lt_is_Some_2 l2 i) as [v2 Hv2]; [lia|].
    rewrite Hv1, Hv2 in *. simpl in H. f_equal. apply H. lia.
  - rewrite !lookup_ge_None_2 by lia. done.
Qed.


(** *** The tile matcher *)

Section Scan.
Variables (allowDups : bool) (placedTiles : gset Z) (table : ColourTable).
Variables (dim : Z) (sig : Signature).

Let body := (fun (i : Z) (best : option (Z * R)) =>
    if allowDups || negb (bool_decide (i ∈ placedTiles)) then
      '(name, colours) ← Py.index table i;
      dist ← tileDistance dim sig colours;
      match best with
      | None => Some (Some (i, dist))
      | Some (bestTileIndex, bestDistance) =>
          if Rlt_dec dist bestDistance then Some (Some (i, dist))
          else Some best
      end
    else Some best).

Lemma candidate_test i :
  0 <= i < Z.of_nat (length table) ->
  allowDups || negb (bool_decide (i ∈ placedTiles)) = true <->
  candidate allowDups placedTiles table i.
Proof.
  intros Hi. unfold candidate.
  rewrite orb_true_iff, negb_true_iff, bool_decide_eq_false. tauto.
Qed.

Lemma scan_prefix (n : nat) :
  (n <= length table)%nat ->
  (forall i, candidate allowDups placedTiles table i ->
             is_Some (distanceTo dim sig table i)) ->
  exists best,
    Py.for_ (Py.range (Z.of_nat n)) body None = Some best /\
    bestBelow allowDups placedTiles table dim sig (Z.of_nat n) best.
Proof.
  intros Hn Hd. induction n as [|n IH].
  - exists None. split; [done|]. simpl. lia.
  - destruct IH as (best & Hrun & Hbest); [lia|].
    rewrite range_S, for_app, Hrun. simpl. unfold body at 1.
    destruct (allowDups || negb (bool_decide (Z.of_nat n ∈ placedTiles)))
      eqn:Hc.
    + apply candidate_test in Hc; [|lia].
      destruct (Hd _ Hc) as [dist Hdist].
      pose proof Hdist as Hdist'. unfold distanceTo in Hdist'.
      destruct (Py.index table (Z.of_nat n)) as [[name colours]|];
        simpl in *; [|done].
      rewrite Hdist'. simpl.
      destruct best as [[b d]|].
      * destruct Hbest as (Hb & Hcb & Hdb & Hmin).
        destruct (Rlt_dec dist d) as [Hlt|Hge].
        -- eexists. split; [done|]. simpl.
           split; [lia|]. split; [done|]. split; [done|].
           intros j dj Hj Hcj Hdj.
           destruct (decide (j = Z.of_nat n)) as [->|Hne].
           ++ rewrite Hdist in Hdj. inversion Hdj; subst. split; [lra|lia].
           ++ destruct (Hmin j dj) as [Hle _]; [lia|done..|].
              split; [lra|]. intros _. lra.
        -- eexists. split; [done|]. simpl.
           split; [lia|]. split; [done|]. split; [done|].
           intros j dj Hj Hcj Hdj.
           destruct (decide (j = Z.of_nat n)) as [->|Hne].
           ++ rewrite Hdist in Hdj. inversion Hdj; subst. split; [lra|lia].
           ++ apply Hmin; [lia|done..].
      * eexists. split; [done|]. simpl.
        split; [lia|]. split; [done|]. split; [done|].
        intros j dj Hj Hcj Hdj.
        destruct (decide (j = Z.of_nat n)) as [->|Hne].
        ++ rewrite Hdist in Hdj. inversion Hdj; subst. split; [lra|lia].
        ++ exfalso. apply (Hbest j); [lia|done].
    + exists best. split; [done|].
      assert (Hnc : ~ candidate allowDups placedTiles table (Z.of_nat n)).
      { intros Hcand. apply candidate_test in Hcand; [congruence|lia]. }
      destruct best as [[b d]|]; simpl in *.
      * destruct Hbest as (Hb & Hcb & Hdb & Hmin).
        split; [lia|]. split; [done|]. split; [done|].
        intros j dj Hj Hcj Hdj.
        destruct (decide (j = Z.of_nat n)) as [->|Hne]; [done|].
        apply Hmin; [lia|done..].
      * intros i Hi. destruct (decide (i = Z.of_nat n)) as [->|Hne]; [done|].
        apply Hbest. lia.
Qed.

Lemma scan_sound (n : nat) best :
  (n <= length table)%nat ->
  Py.for_ (Py.range (Z.of_nat n)) body None = Some best ->
  match best with
  | None => True
  | Some (b, _) => candidate allowDups placedTiles table b
  end.
Proof.
  revert best. induction n as [|n IH]; intros best Hn Hrun.
  - by inversion Hrun.
  - rewrite range_S, for_app in Hrun.
    destruct (Py.for_ (Py.range (Z.of_nat n)) body None) as [best0|];
      simpl in Hrun; [|done].
    specialize (IH best0). unfold body at 1 in Hrun.
    destruct (allowDups || negb (bool_decide (Z.of_nat n ∈ placedTiles)))
      eqn:Hc.
    + apply candidate_test in Hc; [|lia].
      destruct (Py.index table (Z.of_nat n)) as [[name colours]|];
        simpl in Hrun; [|done].
      destruct (tileDistance dim sig colours) as [dist|];
        simpl in Hrun; [|done].
      destruct best0 as [[b0 d0]|].
      * destruct (Rlt_dec dist d0); simpl in Hrun; simplify_eq; [done|].
        apply IH; [lia|done].
      * simpl in Hrun. by simplify_eq.
    + simpl in Hrun. simplify_eq. apply IH; [lia|done].
Qed.

End Scan.

Lemma findBestTile_candidate inimage allowDups placedTiles table dim row col b d :
  findBestTile inimage allowDups placedTiles table dim row col = Some (b, d) ->
  candidate allowDups placedTiles table b.
Proof.
  unfold findBestTile. intros H.
  destruct (samplePixels inimage dim row col) as [sig|]; simpl in H; [|done].
  destruct (Py.for_ _ _ None) as [best|] eqn:Hrun; simpl in H; [|done].
  subst best.
  apply (scan_sound allowDups placedTiles table dim sig (length table)) in Hrun;
    [done | lia].
Qed.

(** *** Sampling *)

Section Sample.
Variables (inimage : Image) (dim row col : Z).

Let inner (fx : Z) := (fun (fy : Z) (s : Signature) =>
    let '(r, g, b) := s in
    '(rp, gp, bp) ← getpixel inimage (col * dim + fx) (row * dim + fy);
    Some (r ++ [rp], g ++ [gp], b ++ [bp])).

Lemma sample_inner fx (l : list Z) (s s' : Signature) :
  Py.for_ l (inner fx) s = Some s' ->
  length s'.1.1 = (length s.1.1 + length l)%nat /\
  length s'.1.2 = (length s.1.2 + length l)%nat /\
  length s'.2 = (length s.2 + length l)%nat.
Proof.
  revert s. induction l as [|fy l IH]; intros s H; simpl in H.
  - simplify_eq. simpl. lia.
  - destruct s as [[r g] b]. simpl in H.
    destruct (getpixel inimage _ _) as [[[rp gp] bp]|]; simpl in H; [|done].
    apply IH in H. simpl in H. rewrite !length_app in H. simpl in *. lia.
Qed.

Lemma sample_inner_ok fx (l : list Z) (s : Signature) :
  (forall fy, fy ∈ l ->
     is_Some (getpixel inimage (col * dim + fx) (row * dim + fy))) ->
  is_Some (Py.for_ l (inner fx) s).
Proof.
  revert s. induction l as [|fy l IH]; intros s H; simpl; [done|].
  destruct s as [[r g] b]. simpl.
  destruct (H fy) as [[[rp gp] bp] Hp]; [left|]. rewrite Hp. simpl.
  apply IH. intros. apply H. by right.
Qed.

Lemma sample_outer (l : list Z) (s s' : Signature) :
  Py.for_ l (fun fx sig => Py.for_ (Py.range dim) (inner fx) sig) s
    = Some s' ->
  length s'.1.1 = (length s.1.1 + length l * Z.to_nat dim)%nat /\
  length s'.1.2 = (length s.1.2 + length l * Z.to_nat dim)%nat /\
  length s'.2 = (length s.2 + length l * Z.to_nat dim)%nat.
Proof.
  revert s. induction l as [|fx l IH]; intros s H; simpl in H.
  - simplify_eq. simpl. lia.
  - destruct (Py.for_ (Py.range dim) (inner fx) s) as [s1|] eqn:H1;
      simpl in H; [|done].
    apply sample_inner in H1. rewrite length_range in H1.
    apply IH in H. simpl. lia.
Qed.

Lemma sample_outer_ok (l : list Z) (s : Signature) :
  (forall fx fy, fx ∈ l -> 0 <= fy < dim ->
     is_Some (getpixel inimage (col * dim + fx) (row * dim + fy))) ->
  is_Some (Py.for_ l (fun fx sig => Py.for_ (Py.range dim) (inner fx) sig) s).
Proof.
  revert s. induction l as [|fx l IH]; intros s H; simpl; [done|].
  destruct (sample_inner_ok fx (Py.range dim) s) as [s1 H1].
  { intros fy Hfy. apply H; [left | by apply elem_of_range]. }
  rewrite H1. simpl. apply IH. intros. apply H; [by right | done].
Qed.

Lemma samplePixels_cells sig :
  0 <= dim -> samplePixels inimage dim row col = Some sig ->
  hasCells dim sig.
Proof.
  intros Hd H. apply sample_outer in H. rewrite length_range in H.
  simpl in H. unfold hasCells. 
  replace (Z.to_nat (dim * dim)) with (Z.to_nat dim * Z.to_nat dim)%nat
    by nia. lia.
Qed.

Lemma samplePixels_ok :
  (forall fx fy, 0 <= fx < dim -> 0 <= fy < dim ->
     is_Some (getpixel inimage (col * dim + fx) (row * dim + fy))) ->
  is_Some (samplePixels inimage dim row col).
Proof.
  intros H. apply sample_outer_ok. intros fx fy Hfx Hfy.
  apply H; [by apply elem_of_range | done].
Qed.

End Sample.

Lemma distanceTo_Some dim sig table allowDups placedTiles i :
  1 <= dim -> tableOf dim table -> hasCells dim sig ->
  candidate allowDups placedTiles table i ->
  is_Some (distanceTo dim sig table i).
Proof.
  intros Hd Ht Hs [Hi _]. unfold distanceTo.
  destruct (index_Some table i Hi) as [[name colours] Hrow].
  rewrite Hrow. simpl. rewrite tileDistance_eq; [done..|].
  apply (Ht name). unfold Py.index in Hrow.
  destruct (i <? 0); [done|]. by eapply list_elem_of_lookup_2.
Qed.

Lemma findBestTile_spec inimage allowDups placedTiles table dim row col sig :
  1 <= dim -> tableOf dim table ->
  samplePixels inimage dim row col = Some sig ->
  (exists i, candidate allowDups placedTiles table i) ->
  exists best d,
    findBestTile inimage allowDups placedTiles table dim row col
      = Some (best, d) /\
    candidate allowDups placedTiles table best /\
    distanceTo dim sig table best = Some d /\
    forall j dj, candidate allowDups placedTiles table j ->
                 distanceTo dim sig table j = Some dj ->
                 (d <= dj)%R /\ (j < best -> (d < dj)%R).
Proof.
  intros Hdim Htab Hsig [i Hi].
  destruct (scan_prefix allowDups placedTiles table dim sig (length table))
    as (best & Hrun & Hbest); [lia| |].
  { intros. eapply distanceTo_Some; try done.
    eapply samplePixels_cells; [|done]. lia. }
  unfold findBestTile. rewrite Hsig. simpl. rewrite Hrun. simpl.
  destruct best as [[b d]|]; simpl in Hbest.
  - destruct Hbest as (Hb & Hcb & Hdb & Hmin).
    exists b, d. split; [done|]. split; [done|]. split; [done|].
    intros j dj Hcj Hdj. apply Hmin; [apply Hcj|done..].
  - exfalso. apply (Hbest i); [apply Hi | done].
Qed.

(** *** The scheduler as a loop over the accepted cells *)

Lemma for_ext {A S} (l : list A) (f g : A -> S -> option S) s :
  (forall a s, f a s = g a s) -> Py.for_ l f s = Py.for_ l g s.
Proof.
  intros H. revert s. induction l as [|a l IH]; intros s; simpl; [done|].
  rewrite H. destruct (g a s); simpl; [apply IH | done].
Qed.

Lemma placeSpiralVars_for inimage originalRow originalCol XD YD table dim allowDups cells :
  acceptedCells XD YD = Some cells ->
  placeSpiralVars inimage originalRow originalCol XD YD table dim allowDups =
  Py.for_ cells (placeStep originalRow originalCol (XD * YD) inimage
                           allowDups table dim) (∅, ∅).
Proof.
  rewrite acceptedCells_eq. intros Hc. simplify_eq.
  unfold placeSpiralVars.
  pose proof (spiral_visitAll
    (fun cnt row col '(tileLocations, placedTiles) =>
       placeBestTile originalRow originalCol cnt (XD * YD) inimage
         allowDups tileLocations placedTiles table dim row col)
    XD YD (∅, ∅)) as H.
  rewrite visitAll_for, !int_half in H by (by intros ???? [??]).
  rewrite (for_ext _ _ (placeStep originalRow originalCol (XD * YD) inimage
                                  allowDups table dim)) in H
    by (intros rc [tl pt]; reflexivity).
  rewrite <- H.
  by destruct (spiral _ XD YD (∅, ∅)) as [w|].
Qed.

Lemma elem_of_catalogIndices n i :
  i ∈ catalogIndices n <-> 0 <= i < Z.of_nat n.
Proof. unfold catalogIndices. rewrite elem_of_list_to_set. apply elem_of_range. Qed.

Lemma NoDup_range n : NoDup (Py.range n).
Proof.
  unfold Py.range. apply NoDup_fmap_2; [|apply NoDup_seq].
  intros ???. lia.
Qed.

Lemma size_catalogIndices n : size (catalogIndices n) = n.
Proof.
  unfold catalogIndices.
  rewrite size_list_to_set by apply NoDup_range.
  rewrite length_range. lia.
Qed.

Set Warnings "-clear-no-such-hyp".

Section Schedule.
Variables (originalRow originalCol nTiles : Z) (inimage : Image).
Variables (allowDups : bool) (table : ColourTable) (dim : Z).

Let origin : Z * Z := (originalRow, originalCol).
Let step := placeStep originalRow originalCol nTiles inimage allowDups
                      table dim.
Let catalog := catalogIndices (length table).

Lemma placeStep_origin s :
  step origin s =
  Some (<[origin := (-1, 0%R)]> s.1, {[-1]} ∪ s.2).
Proof.
  unfold step, placeStep, placeBestTile. simpl.
  by rewrite !Z.eqb_refl.
Qed.

Lemma placeStep_tile c s s' :
  c <> origin -> step c s = Some s' ->
  exists i d, s' = (<[c := (i, d)]> s.1, {[i]} ∪ s.2) /\
              candidate allowDups s.2 table i.
Proof.
  intros Hc. unfold step, placeStep, placeBestTile.
  destruct c as [row col]. simpl.
  destruct ((row =? originalRow) && (col =? originalCol)) eqn:Ho.
  { apply andb_true_iff in Ho as [?%Z.eqb_eq ?%Z.eqb_eq].
    subst. by destruct Hc. }
  destruct (findBestTile inimage allowDups s.2 table dim row col)
    as [[b d]|] eqn:Hf; simpl; [|done].
  destruct (Py.index table b); simpl; [|done].
  intros H. simplify_eq. exists b, d. split; [done|].
  by eapply findBestTile_candidate.
Qed.

Lemma schedule_inv cells : forall s0 s,
  NoDup cells -> (forall c, c ∈ cells -> s0.1 !! c = None) ->
  Py.for_ cells step s0 = Some s ->
  (forall c, c ∉ cells -> s.1 !! c = s0.1 !! c) /\
  (forall c, c ∈ cells -> exists i d,
      s.1 !! c = Some (i, d) /\
      (c = origin -> i = -1 /\ d = 0%R) /\
      (c <> origin -> 0 <= i < Z.of_nat (length table) /\
                      (allowDups = false -> i ∉ s0.2))) /\
  (forall i, i ∈ s.2 <->
             i ∈ s0.2 \/ exists c d, c ∈ cells /\ s.1 !! c = Some (i, d)) /\
  (allowDups = false ->
   (forall c1 c2 i d1 d2, c1 ∈ cells -> c2 ∈ cells ->
      c1 <> origin -> c2 <> origin ->
      s.1 !! c1 = Some (i, d1) -> s.1 !! c2 = Some (i, d2) -> c1 = c2) /\
   size (catalog ∩ s.2) = (size (catalog ∩ s0.2) + tileCells originalRow originalCol cells)%nat).
Proof.
  induction cells as [|c cells IH]; intros s0 s Hnd Hfresh Hrun.
  - simpl in Hrun. simplify_eq. unfold tileCells. simpl.
    split; [done|]. split; [by intros ? ?%elem_of_nil|].
    split; [|intros _; split; [by intros ???? ? ?%elem_of_nil | lia]].
    intros i. split; [by left|].
    intros [?|(c & d & Hc%elem_of_nil & _)]; done.
  - apply NoDup_cons in Hnd as [Hc Hnd]. simpl in Hrun.
    destruct (step c s0) as [s1|] eqn:Hstep; simpl in Hrun; [|done].
    assert (Hs1 : exists i d,
      s1 = (<[c := (i, d)]> s0.1, {[i]} ∪ s0.2) /\
      (c = origin -> i = -1 /\ d = 0%R) /\
      (c <> origin -> candidate allowDups s0.2 table i)).
    { destruct (decide (c = origin)) as [->|Hne].
      - rewrite placeStep_origin in Hstep. simplify_eq.
        exists (-1), 0%R. done.
      - destruct (placeStep_tile _ _ _ Hne Hstep) as (i & d & -> & Hcand).
        exists i, d. done. }
    destruct Hs1 as (i & d & -> & Horig & Htile).
    assert (Hfresh' : forall c', c' ∈ cells ->
              (<[c := (i, d)]> s0.1, {[i]} ∪ s0.2).1 !! c' = None).
    { intros c' Hc'. simpl. rewrite lookup_insert_ne; [|by intros ->].
      apply Hfresh. by right. }
    destruct (IH _ _ Hnd Hfresh' Hrun) as (Hframe & Hent & Hpt & Hinj).
    simpl in *.
    assert (Hatc : s.1 !! c = Some (i, d)).
    { rewrite Hframe by done. apply lookup_insert_eq. }
    split; [|split; [|split]].
    + intros c' Hc'. apply not_elem_of_cons in Hc' as [Hne Hc'].
      rewrite Hframe by done. by rewrite lookup_insert_ne.
    + intros c' [->|Hc']%elem_of_cons.
      * exists i, d. split; [done|]. split; [done|].
        intros Hne. destruct (Htile Hne) as [Hr Hu].
        split; [done|]. intros ->. by destruct Hu.
      * destruct (Hent c' Hc') as (i' & d' & Hl & Ho & Ht).
        exists i', d'. split; [done|]. split; [done|].
        intros Hne. destruct (Ht Hne) as [Hr Hu]. split; [done|].
        intros Hf. specialize (Hu Hf). set_solver.
    + intros j. rewrite Hpt. split.
      * intros [[->%elem_of_singleton|Hj]%elem_of_union
               |(c' & d' & Hc' & Hl)].
        -- right. exists c, d. split; [left | done].
        -- by left.
        -- right. exists c', d'. split; [by right | done].
      * intros [Hj|(c' & d' & [->|Hc']%elem_of_cons & Hl)].
        -- left. set_solver.
        -- left. rewrite Hatc in Hl. simplify_eq. set_solver.
        -- right. exists c', d'. done.
    + intros Hf. destruct (Hinj Hf) as [Hinj' Hsize]. split.
      * intros c1 c2 j d1 d2 [->|H1]%elem_of_cons [->|H2]%elem_of_cons
               Hn1 Hn2 Hl1 Hl2; [done| | |by eapply Hinj'].
        -- exfalso. destruct (Hent c2 H2) as (i' & d' & Hl & _ & Ht).
           destruct (Ht Hn2) as [_ Hu]. specialize (Hu Hf).
           rewrite Hatc in Hl1. rewrite Hl in Hl2.
           assert (i' = i) by congruence. set_solver.
        -- exfalso. destruct (Hent c1 H1) as (i' & d' & Hl & _ & Ht).
           destruct (Ht Hn1) as [_ Hu]. specialize (Hu Hf).
           rewrite Hatc in Hl2. rewrite Hl in Hl1.
           assert (i' = i) by congruence. set_solver.
      * rewrite Hsize. unfold tileCells. rewrite filter_cons.
        destruct (decide (c <> (originalRow, originalCol))) as [Hne|Heq].
        -- destruct (Htile Hne) as [Hr [?|Hu]]; [congruence|].
           replace (catalog ∩ ({[i]} ∪ s0.2))
             with ({[i]} ∪ catalog ∩ s0.2).
           2:{ apply set_eq. intros j.
               pose proof (elem_of_catalogIndices (length table) i).
               set_solver. }
           rewrite size_union by set_solver.
           rewrite size_singleton. simpl. lia.
        -- assert (c = origin) as Hco by (by destruct (decide (c = origin))).
           destruct (Horig Hco) as [-> _].
           replace (catalog ∩ ({[-1]} ∪ s0.2)) with (catalog ∩ s0.2); [lia|].
           apply set_eq. intros j.
           pose proof (elem_of_catalogIndices (length table) (-1)).
           set_solver by lia.
Qed.

Lemma unused_index (pt : gset Z) :
  (size (catalog ∩ pt) < length table)%nat ->
  exists i, candidate false pt table i.
Proof.
  intros Hlt.
  destruct (set_choose_or_empty (catalog ∖ pt)) as [[i Hi]|Hempty].
  - exists i. apply elem_of_difference in Hi as [Hi Hn].
    apply elem_of_catalogIndices in Hi. split; [done | by right].
  - exfalso. unfold catalog in *.
    assert (catalogIndices (length table) ∩ pt
            = catalogIndices (length table)) as Heq.
    { apply set_eq. intros j. split; [set_solver|]. intros Hj.
      apply elem_of_intersection. split; [done|].
      destruct (decide (j ∈ pt)); [done|]. set_solver. }
    rewrite Heq, size_catalogIndices in Hlt. lia.
Qed.

Lemma schedule_total cells : forall s0,
  allowDups = false -> 1 <= dim -> tableOf dim table ->
  (forall c, c ∈ cells -> is_Some (samplePixels inimage dim c.1 c.2)) ->
  (size (catalog ∩ s0.2) + tileCells originalRow originalCol cells <= length table)%nat ->
  is_Some (Py.for_ cells step s0).
Proof.
  intros s0 Hf Hdim Htab. revert s0.
  induction cells as [|c cells IH]; intros s0 Hsample Hsize; [done|].
  unfold tileCells in Hsize. rewrite filter_cons in Hsize. simpl.
  destruct (decide (c <> (originalRow, originalCol))) as [Hne|Heq].
  - simpl in Hsize.
    destruct (unused_index s0.2) as [i0 Hi0]; [lia|].
    destruct (Hsample c) as [sig Hsig]; [left|].
    destruct (findBestTile_spec inimage false s0.2 table dim c.1 c.2 sig)
      as (b & d & Hfind & [Hb [?|Hu]] & _); [done..|by exists i0|done|].
    destruct (index_Some table b Hb) as [row Hrow].
    assert (Hstep : step c s0 = Some (<[c := (b, d)]> s0.1, {[b]} ∪ s0.2)).
    { unfold step, placeStep, placeBestTile. destruct c as [r cl]. simpl.
      destruct ((r =? originalRow) && (cl =? originalCol)) eqn:Ho.
      { apply andb_true_iff in Ho as [?%Z.eqb_eq ?%Z.eqb_eq].
        subst. by destruct Hne. }
      rewrite Hf. simpl in Hfind. rewrite Hfind. simpl. rewrite Hrow. done. }
    rewrite Hstep. simpl. apply IH; [intros; apply Hsample; by right|].
    simpl. replace (catalog ∩ ({[b]} ∪ s0.2)) with ({[b]} ∪ catalog ∩ s0.2).
    2:{ apply set_eq. intros j.
        pose proof (elem_of_catalogIndices (length table) b).
        set_solver. }
    rewrite size_union by set_solver. rewrite size_singleton.
    unfold tileCells. lia.
  - assert (c = origin) as -> by (by destruct (decide (c = origin))).
    rewrite placeStep_origin. simpl.
    apply IH; [intros; apply Hsample; by right|]. simpl.
    replace (catalog ∩ ({[-1]} ∪ s0.2)) with (catalog ∩ s0.2);
      [unfold tileCells; lia|].
    apply set_eq. intros j.
    pose proof (elem_of_catalogIndices (length table) (-1)).
    set_solver by lia.
Qed.

End Schedule.

Lemma getpixel_in_image im x y :
  0 <= x < (im_size im).1 -> 0 <= y < (im_size im).2 ->
  is_Some (getpixel im x y).
Proof.
  intros Hx Hy. unfold getpixel. destruct (im_size im) as [w h]. simpl in *.
  destruct (Z.ltb_spec x 0); [lia|]. destruct (Z.ltb_spec y 0); [lia|].
  destruct (Z.leb_spec 0 x); [|lia]. destruct (Z.ltb_spec x w); [|lia].
  destruct (Z.leb_spec 0 y); [|lia]. destruct (Z.ltb_spec y h); [|lia]. done.
Qed.

(** A grid cell of the resized source image can be sampled. *)
Lemma sample_in_grid inimage dim XD YD row col :
  1 <= dim -> im_size inimage = (dim * XD, dim * YD) ->
  0 <= row < YD -> 0 <= col < XD ->
  is_Some (samplePixels inimage dim row col).
Proof.
  intros Hd Hsz Hr Hc. apply samplePixels_ok. intros fx fy Hfx Hfy.
  apply getpixel_in_image; rewrite Hsz; simpl; nia.
Qed.

Lemma NoDup_list_prod {A B} (l : list A) (l' : list B) :
  NoDup l -> NoDup l' -> NoDup (list_prod l l').
Proof.
  intros Hl Hl'. induction Hl as [|a l Ha Hl IH]; simpl; [constructor|].
  apply NoDup_app. split; [|split; [|done]].
  - apply NoDup_fmap_2; [|done]. by intros ?? [=].
  - intros [a' b] [b' [[= -> ->] _]]%list_elem_of_fmap Hin.
    apply list_elem_of_In, in_prod_iff in Hin as [Hin _].
    by apply list_elem_of_In in Hin.
Qed.

Lemma length_accepted_cells XD YD cells :
  1 <= XD -> 1 <= YD -> NoDup cells ->
  (forall row col, (row, col) ∈ cells <-> 0 <= row < YD /\ 0 <= col < XD) ->
  length cells = Z.to_nat (XD * YD).
Proof.
  intros HX HY Hnd Hin.
  set (grid := list_prod (Py.range YD) (Py.range XD)).
  assert (Hg : length grid = Z.to_nat (XD * YD)).
  { unfold grid. rewrite length_prod, !length_range. lia. }
  assert (Hgin : forall c, In c grid <-> c ∈ cells).
  { intros [row col]. unfold grid.
    rewrite in_prod_iff, <- !list_elem_of_In, !elem_of_range, Hin. tauto. }
  apply Nat.le_antisymm.
  - rewrite <- Hg. apply NoDup_incl_length; [by apply NoDup_ListNoDup|].
    intros c Hc. apply Hgin. by apply list_elem_of_In.
  - rewrite <- Hg. apply NoDup_incl_length.
    + apply NoDup_ListNoDup. unfold grid.
      apply NoDup_list_prod; apply NoDup_range.
    + intros c Hc. apply list_elem_of_In. by apply Hgin.
Qed.

Lemma acceptedCells_grid XD YD :
  1 <= XD -> 1 <= YD ->
  exists cells,
    acceptedCells XD YD = Some cells /\
    NoDup cells /\
    (forall row col, (row, col) ∈ cells <-> 0 <= row < YD /\ 0 <= col < XD).
Proof.
  intros HX HY.
  destruct (acceptedCells_grid_head XD YD HX HY)
    as (cells & ? & ? & ? & _).
  by exists cells.
Qed.

Lemma tileCells_le oR oC cells : (tileCells oR oC cells <= length cells)%nat.
Proof. apply length_filter. Qed.

Lemma tileCells_all oR oC cells :
  (oR, oC) ∉ cells -> tileCells oR oC cells = length cells.
Proof.
  unfold tileCells. induction cells as [|c cells IH]; intros Hn; [done|].
  apply not_elem_of_cons in Hn as [Hne Hn]. rewrite filter_cons.
  destruct (decide (c <> (oR, oC))) as [|Hn']; [|destruct Hn'; congruence].
  simpl. by rewrite IH.
Qed.

(** C2, amended: for a catalog of [N] tiles and a grid of exactly [N]
    cells ([XD*YD = N]) with duplicates disallowed, scheduling completes;
    the placement has an entry for exactly the grid cells; the reserved
    origin cell, when it lies in the grid, records the sentinel [-1] and
    every other cell records a catalog index in [0..N-1]; no index is
    recorded twice; and when the origin cell lies outside the grid every
    catalog index is recorded, so that the recorded indices and the
    catalog indices are in bijection. *)
Theorem placement_tiles_distinct inimage originalRow originalCol XD YD table dim :
  1 <= XD -> 1 <= YD -> 1 <= dim ->
  tableOf dim table -> im_size inimage = (dim * XD, dim * YD) ->
  Z.of_nat (length table) = XD * YD ->
  exists tileLocations nTilesUsed,
    placeSpiral inimage originalRow originalCol XD YD table dim false
      = Some (tileLocations, nTilesUsed) /\
    (forall row col, is_Some (tileLocations !! (row, col)) <->
                     0 <= row < YD /\ 0 <= col < XD) /\
    (forall c i d, tileLocations !! c = Some (i, d) ->
       if decide (c = (originalRow, originalCol))
       then i = MOSAIC_ORIGINAL_TILE_INDEX
       else 0 <= i < Z.of_nat (length table)) /\
    (forall c1 c2 i d1 d2,
       tileLocations !! c1 = Some (i, d1) ->
       tileLocations !! c2 = Some (i, d2) -> c1 = c2) /\
    (~ (0 <= originalRow < YD /\ 0 <= originalCol < XD) ->
     forall i, 0 <= i < Z.of_nat (length table) ->
               exists c d, tileLocations !! c = Some (i, d)).
Proof.
  intros HX HY Hdim Htab Hsz Hlen.
  destruct (acceptedCells_grid XD YD HX HY) as (cells & Hacc & Hnd & Hin).
  pose proof (length_accepted_cells XD YD cells HX HY Hnd Hin) as Hcells.
  pose proof (placeSpiralVars_for inimage originalRow originalCol XD YD table
                dim false cells Hacc) as Hfor.
  assert (Hsample : forall c, c ∈ cells ->
            is_Some (samplePixels inimage dim c.1 c.2)).
  { intros [row col] Hc. apply Hin in Hc. simpl.
    apply (sample_in_grid _ _ XD YD); tauto. }
  assert (Hroom : (size (catalogIndices (length table) ∩ (∅ : gset Z))
                   + tileCells originalRow originalCol cells
                   <= length table)%nat).
  { rewrite intersection_empty_r_L, size_empty.
    pose proof (tileCells_le originalRow originalCol cells). lia. }
  destruct (schedule_total originalRow originalCol (XD * YD) inimage false
              table dim cells (∅, ∅) eq_refl Hdim Htab Hsample Hroom)
    as [[tl pt] Hrun].
  destruct (schedule_inv originalRow originalCol (XD * YD) inimage false
              table dim cells (∅, ∅) (tl, pt) Hnd)
    as (Hframe & Hent & Hpt & Hinj); [done..|].
  destruct (Hinj eq_refl) as [Hinj' Hsize]. simpl in *.
  assert (Hdom : forall c i d, tl !! c = Some (i, d) -> c ∈ cells).
  { intros c i d Hl. destruct (decide (c ∈ cells)) as [|Hn]; [done|].
    rewrite Hframe in Hl by done. by rewrite lookup_empty in Hl. }
  exists tl, (Z.of_nat (size pt)).
  split; [unfold placeSpiral; by rewrite Hfor, Hrun|].
  split; [|split; [|split]].
  - intros row col. rewrite <- Hin. split.
    + intros [[i d] Hl]. by eapply Hdom.
    + intros Hc. destruct (Hent _ Hc) as (i & d & Hl & _). by rewrite Hl.
  - intros c i d Hl. destruct (Hent c) as (i' & d' & Hl' & Ho & Ht);
      [by eapply Hdom|]. rewrite Hl in Hl'. simplify_eq.
    destruct (decide (c = (originalRow, originalCol))) as [Hc|Hc].
    + by destruct (Ho Hc).
    + by destruct (Ht Hc).
  - intros c1 c2 i d1 d2 Hl1 Hl2.
    pose proof (Hdom _ _ _ Hl1) as Hc1. pose proof (Hdom _ _ _ Hl2) as Hc2.
    destruct (Hent c1 Hc1) as (i1 & e1 & Hl1' & Ho1 & Ht1).
    destruct (Hent c2 Hc2) as (i2 & e2 & Hl2' & Ho2 & Ht2).
    rewrite Hl1 in Hl1'. rewrite Hl2 in Hl2'. simplify_eq.
    destruct (decide (c1 = (originalRow, originalCol))) as [E1|N1],
             (decide (c2 = (originalRow, originalCol))) as [E2|N2].
    + congruence.
    + destruct (Ho1 E1). destruct (Ht2 N2). lia.
    + destruct (Ho2 E2). destruct (Ht1 N1). lia.
    + by eapply Hinj'.
  - intros Hout i Hi.
    assert (Hno : (originalRow, originalCol) ∉ cells) by (by rewrite Hin).
    rewrite (tileCells_all _ _ _ Hno), intersection_empty_r_L, size_empty
      in Hsize.
    assert (Heq : catalogIndices (length table) ∩ pt
                  = catalogIndices (length table)).
    { apply set_subseteq_size_eq; [set_solver|].
      rewrite size_catalogIndices. lia. }
    assert (Hi' : i ∈ pt).
    { apply elem_of_catalogIndices in Hi. rewrite <- Heq in Hi. set_solver. }
    apply Hpt in Hi' as [Hi'|(c & d & _ & Hl)]; [set_solver|].
    by exists c, d.
Qed.

(** C10: when the reserved origin cell lies in the grid and scheduling
    completes, the placement records the sentinel [-1] (with distance
    [0.0]) at that cell, [-1] is a member of [placedTiles], and the count
    [placeSpiral] returns is the number of distinct catalog tiles placed
    plus one. *)
Theorem origin_counts_as_used_tile inimage originalRow originalCol XD YD table dim
        allowDups tileLocations placedTiles :
  1 <= XD -> 1 <= YD ->
  0 <= originalRow < YD -> 0 <= originalCol < XD ->
  placeSpiralVars inimage originalRow originalCol XD YD table dim allowDups
    = Some (tileLocations, placedTiles) ->
  tileLocations !! (originalRow, originalCol)
    = Some (MOSAIC_ORIGINAL_TILE_INDEX, MOSAIC_ORIGINAL_TILE_DISTANCE) /\
  MOSAIC_ORIGINAL_TILE_INDEX ∈ placedTiles /\
  placeSpiral inimage originalRow originalCol XD YD table dim allowDups
    = Some (tileLocations, Z.of_nat (size (tilesPlaced tileLocations)) + 1).
Proof.
  intros HX HY HoR HoC Hvars.
  destruct (acceptedCells_grid XD YD HX HY) as (cells & Hacc & Hnd & Hin).
  rewrite (placeSpiralVars_for _ _ _ _ _ _ _ _ cells Hacc) in Hvars.
  destruct (schedule_inv originalRow originalCol (XD * YD) inimage allowDups
              table dim cells (∅, ∅) (tileLocations, placedTiles) Hnd)
    as (Hframe & Hent & Hpt & _); [done..|]. simpl in *.
  assert (Hoc : (originalRow, originalCol) ∈ cells) by (by apply Hin).
  destruct (Hent _ Hoc) as (i & d & Hl & Ho & _).
  destruct (Ho eq_refl) as [-> ->].
  assert (Hmem : -1 ∈ placedTiles).
  { apply Hpt. right. by exists (originalRow, originalCol), 0%R. }
  split; [done|]. split; [done|].
  unfold placeSpiral.
  rewrite (placeSpiralVars_for _ _ _ _ _ _ _ _ cells Hacc), Hvars. simpl.
  do 2 f_equal.
  assert (Himg : placedTiles = map_img (fst <$> tileLocations)).
  { apply set_eq. intros j. rewrite Hpt, elem_of_map_img. split.
    - intros [?%elem_of_empty|(c & e & _ & Hc)]; [done|].
      exists c. by rewrite lookup_fmap, Hc.
    - intros [c Hc]. right. rewrite lookup_fmap in Hc.
      destruct (tileLocations !! c) as [[j' e]|] eqn:Hlc;
        simpl in Hc; [|done]. injection Hc as ->.
      exists c, e. split; [|done].
      destruct (decide (c ∈ cells)) as [|Hn]; [done|].
      rewrite Hframe in Hlc by done. by rewrite lookup_empty in Hlc. }
  unfold tilesPlaced, MOSAIC_ORIGINAL_TILE_INDEX. rewrite <- Himg.
  assert (Hsplit : placedTiles = {[-1]} ∪ placedTiles ∖ {[-1]}).
  { apply set_eq. intros j. destruct (decide (j = -1)); set_solver. }
  rewrite Hsplit at 1. rewrite size_union by set_solver.
  rewrite size_singleton. lia.
Qed.


(** C4: when duplicates are disallowed and the grid needs more cells than
    the catalog has tiles ([XD*YD > len(table)]), a run of [mosaic] ends
    before [placeSpiral] is called: at the "not enough images" exit of
    line 511 or, when the sampling image asked of [resize] has a side
    below 1 (a [dim] or a tile count that is not positive), three lines
    earlier at the [ValueError] of [resize].  Nothing is placed, pasted or
    saved on either way out. *)
Theorem too_few_images_stops_before_placement
        resize maxPixels newImage rotated table tilemm canvas dim margin XD YD :
  tileGrid canvas margin tilemm (im_size newImage) = Some (XD, YD) ->
  Z.of_nat (length table) < XD * YD ->
  mosaic resize maxPixels newImage rotated table tilemm canvas dim false margin
    = (if (dim * XD <? 1) || (dim * YD <? 1) then Raised Resize
       else NotEnoughImages) /\
  reachedPlacement
    (mosaic resize maxPixels newImage rotated table tilemm canvas dim false
            margin) = false.
Proof.
  intros Hgrid Hlt. unfold mosaic. rewrite Hgrid. cbv beta iota zeta.
  destruct ((dim * XD <? 1) || (dim * YD <? 1)); [done|].
  destruct (Z.ltb_spec (Z.of_nat (length table)) (XD * YD)); [|lia]. done.
Qed.

Lemma too_few_images_witness :
  exists newImage,
    tileGrid (40, 50) 0 10 (im_size newImage) = Some (4, 4) /\
    Z.of_nat (length tenTiles) < 4 * 4 /\
    mosaic (fun im _ => im) 89478485 newImage false tenTiles 10 (40, 50) 1
           false 0 = NotEnoughImages.
Proof.
  exists {| im_size := (100, 100); im_data := fun _ _ => (0, 0, 0) |}.
  split; [reflexivity|]. split; [vm_compute; reflexivity|].
  destruct (too_few_images_stops_before_placement (fun im _ => im) 89478485
              {| im_size := (100, 100); im_data := fun _ _ => (0, 0, 0) |}
              false tenTiles 10 (40, 50) 1 0 4 4) as [Hrun _];
    [reflexivity | vm_compute; reflexivity | exact Hrun].
Defined.

(** C6, at the failing input: an A1 canvas (594 x 841 mm), 20 mm margin,
    10 mm tiles and a 3000 x 4000 source give a 55 x 73 grid of 118-pixel
    tiles; the final image is 7022 pixels wide, which at 300 dpi is
    595 mm: one millimetre wider than the canvas asked for. *)
Lemma a1_canvas_comes_out_wider_than_requested :
  tileGrid (594, 841) 20 10 (3000, 4000) = Some (55, 73) /\
  exists p,
    canvasPlan 89478485 (594, 841) 20 55 73 (tileSize 10) = Some p /\
    bigwidth p = 6490 /\ actualw p = 7022 /\
    actualxmm p = 595 /\ 594 < actualxmm p.
Proof.
  split; [reflexivity|]. eexists. split; [vm_compute; reflexivity|].
  simpl. repeat split; reflexivity.
Qed.


(** *** Specification of the similarity metric *)

Section Metric.
Variables (oImage mImage : Image) (mWidth mHeight : Z).
Hypothesis Ho : im_size oImage = (mWidth, mHeight).
Hypothesis Hm : im_size mImage = (mWidth, mHeight).

Let factor := sqrt (IZR (3 * 256 * 256)).

Let inner (x : Z) := (fun (y : Z) (t : tally) =>
      '(r1, g1, b1) ← getpixel oImage x y;
      '(r2, g2, b2) ← getpixel mImage x y;
      let rdist := Z.abs (r1 - r2) in
      let gdist := Z.abs (g1 - g2) in
      let bdist := Z.abs (b1 - b2) in
      let d := sqrt (IZR (rdist * rdist + gdist * gdist + bdist * bdist)) in
      if Req_dec_T d 0 then
        Some {| dist := dist t; same := same t + 1; maxd := maxd t;
                cnt := cnt t + 1 |}
      else
        let normD := (d / factor)%R in
        Some {| dist := (dist t + normD)%R; same := same t;
                maxd := if Rgt_dec normD (maxd t) then normD else maxd t;
                cnt := cnt t + 1 |}).

Lemma getpixel_data im x y :
  im_size im = (mWidth, mHeight) ->
  0 <= x < mWidth -> 0 <= y < mHeight ->
  getpixel im x y = Some (im_data im x y).
Proof.
  intros Hs Hx Hy. unfold getpixel. rewrite Hs.
  destruct (Z.ltb_spec x 0); [lia|]. destruct (Z.ltb_spec y 0); [lia|].
  destruct (Z.leb_spec 0 x); [|lia]. destruct (Z.ltb_spec x mWidth); [|lia].
  destruct (Z.leb_spec 0 y); [|lia]. destruct (Z.ltb_spec y mHeight); [|lia].
  done.
Qed.

Lemma metric_pixel x y t :
  0 <= x < mWidth -> 0 <= y < mHeight ->
  exists t', inner x y t = Some t' /\
    dist t' = (dist t + cellDistance (im_data oImage x y)
                                     (im_data mImage x y) / factor)%R /\
    cnt t' = cnt t + 1.
Proof.
  intros Hx Hy. unfold inner.
  rewrite (getpixel_data oImage), (getpixel_data mImage) by done.
  destruct (im_data oImage x y) as [[r1 g1] b1].
  destruct (im_data mImage x y) as [[r2 g2] b2]. simpl.
  rewrite cellDistance_abs.
  destruct (Req_dec_T _ 0) as [Hz|Hnz]; eexists; (split; [done|]); simpl.
  - rewrite Hz. split; [unfold Rdiv; lra | done].
  - done.
Qed.

Lemma metric_column x (n : nat) t :
  0 <= x < mWidth -> Z.of_nat n <= mHeight ->
  exists t', Py.for_ (Py.range (Z.of_nat n)) (inner x) t = Some t' /\
    dist t' = (dist t + sumR (map (fun y =>
                 (cellDistance (im_data oImage x y) (im_data mImage x y)
                  / factor)%R) (Py.range (Z.of_nat n))))%R /\
    cnt t' = cnt t + Z.of_nat n.
Proof.
  intros Hx. induction n as [|n IH]; intros Hn.
  - exists t. simpl. split; [done|]. split; [lra | lia].
  - destruct IH as (t1 & Hrun & Hd & Hc); [lia|].
    destruct (metric_pixel x (Z.of_nat n) t1) as (t2 & Hp & Hd2 & Hc2);
      [lia..|].
    exists t2. rewrite range_S, for_app, Hrun. simpl. rewrite Hp. simpl.
    split; [done|]. rewrite map_app, sumR_app, Hd2, Hd, Hc2, Hc. simpl.
    split; [lra | lia].
Qed.

Lemma metric_columns (n : nat) t :
  Z.of_nat n <= mWidth -> 0 <= mHeight ->
  exists t',
    Py.for_ (Py.range (Z.of_nat n))
            (fun x t => Py.for_ (Py.range mHeight) (inner x) t) t = Some t' /\
    dist t' = (dist t + normalisedSum factor oImage mImage (Z.of_nat n)
                                      mHeight)%R /\
    cnt t' = cnt t + Z.of_nat n * mHeight.
Proof.
  intros Hn Hh. induction n as [|n IH].
  - exists t. unfold normalisedSum. simpl. split; [done|]. split; [lra|lia].
  - destruct IH as (t1 & Hrun & Hd & Hc); [lia|].
    destruct (metric_column (Z.of_nat n) (Z.to_nat mHeight) t1)
      as (t2 & Hp & Hd2 & Hc2); [lia..|].
    rewrite Z2Nat.id in Hp, Hd2, Hc2 by done.
    exists t2. rewrite range_S, for_app, Hrun. simpl. rewrite Hp. simpl.
    split; [done|]. unfold normalisedSum in *.
    rewrite range_S, map_app, sumR_app, Hd2, Hd, Hc2, Hc. simpl.
    split; [lra | lia].
Qed.

End Metric.

Lemma metric_eq resize original mosaic mWidth mHeight :
  im_size mosaic = (mWidth, mHeight) ->
  im_size (resize original (mWidth, mHeight)) = (mWidth, mHeight) ->
  (im_size original).1 <= mWidth -> (im_size original).2 <= mHeight ->
  1 <= mWidth -> 1 <= mHeight ->
  exists avg,
    metric resize original mosaic = Some avg /\
    percent avg =
      similarity (sqrt (IZR (3 * 256 * 256)))
                 (resize original (mWidth, mHeight)) mosaic mWidth mHeight.
Proof.
  intros Hm Ho Hw Hh H1 H2. unfold metric.
  destruct (im_size original) as [oWidth oHeight]. rewrite Hm. simpl in *.
  destruct (Z.leb_spec oWidth mWidth); [|lia].
  destruct (Z.leb_spec oHeight mHeight); [|lia]. simpl.
  destruct (metric_columns (resize original (mWidth, mHeight)) mosaic
              mWidth mHeight Ho Hm (Z.to_nat mWidth)
              {| dist := 0%R; same := 0; maxd := 0%R; cnt := 0 |})
    as (t & Hrun & Hd & Hc); [lia..|].
  rewrite Z2Nat.id in Hrun, Hd, Hc by lia.
  match goal with
  | |- context [Py.for_ ?l ?f ?t0] =>
      assert (Hrun' : Py.for_ l f t0 = Some t) by exact Hrun; rewrite Hrun'
  end.
  simpl in *.
  destruct (Z.eqb_spec (cnt t) 0); [nia|].
  eexists. split; [done|]. unfold percent, similarity.
  rewrite Hd, Hc. do 3 f_equal. lra.
Qed.

Lemma normalisedSum_identical factor o m w h :
  (forall x y, 0 <= x < w -> 0 <= y < h -> im_data o x y = im_data m x y) ->
  normalisedSum factor o m w h = 0%R.
Proof.
  intros Hsame. unfold normalisedSum.
  assert (Hcol : forall x, 0 <= x < w ->
    sumR (map (fun y => (cellDistance (im_data o x y) (im_data m x y)
                         / factor)%R) (Py.range h)) = 0%R).
  { intros x Hx.
    assert (Hin : forall y, y ∈ Py.range h -> 0 <= y < h)
      by (intros; by apply elem_of_range).
    induction (Py.range h) as [|y l IH]; [done|]. simpl.
    rewrite Hsame, cellDistance_refl, IH;
      [unfold Rdiv; lra | intros; apply Hin; by right | done
      | apply Hin; left].  }
  assert (Hin : forall x, x ∈ Py.range w -> 0 <= x < w)
    by (intros; by apply elem_of_range).
  induction (Py.range w) as [|x l IH]; [done|]. simpl.
  rewrite Hcol, IH; [lra | intros; apply Hin; by right | apply Hin; left].
Qed.

(** *** Specification of the summarizer *)

Lemma truediv_pos a b :
  0 < b ->
  exists q, Py.truediv (inject_Z a) (inject_Z b) = Some q /\
            q = (inject_Z a / inject_Z b)%Q /\ Py.int q = a ÷ b.
Proof.
  intros Hb. unfold Py.truediv.
  destruct b as [|p|p]; try lia. simpl.
  eexists. split; [done|]. split; [done|].
  unfold Py.int. simpl. rewrite Z.mul_1_r. done.
Qed.

Lemma for_map {A B S} (f : A -> B) (l : list A) (h : B -> S -> option S) s :
  Py.for_ (map f l) h s = Py.for_ l (fun a => h (f a)) s.
Proof.
  revert s. induction l as [|a l IH]; intros s; simpl; [done|].
  destruct (h (f a) s); simpl; [apply IH | done].
Qed.

Lemma for_flat_map {A B S} (F : A -> list B) (l : list A)
      (h : B -> S -> option S) s :
  Py.for_ (flat_map F l) h s = Py.for_ l (fun a s => Py.for_ (F a) h s) s.
Proof.
  revert s. induction l as [|a l IH]; intros s; simpl; [done|].
  rewrite for_app. destruct (Py.for_ (F a) h s); simpl; [apply IH | done].
Qed.

(** The four nested loops of [colours] are one loop over the sections. *)
Lemma colours_sections im dim :
  1 <= dim ->
  colours im dim =
  v ← Py.for_ (sections dim) (sectionStep im dim)
        {| redval := replicate (Z.to_nat (dim * dim)) 0;
           greenval := replicate (Z.to_nat (dim * dim)) 0;
           blueval := replicate (Z.to_nat (dim * dim)) 0;
           section := 0; count := 0 |};
  Some (redval v, greenval v, blueval v).
Proof.
  intros Hd. unfold colours, sections.
  destruct (im_size im) as [width height] eqn:Hsz.
  rewrite for_flat_map. f_equal. apply for_ext. intros x v.
  destruct (truediv_pos (x * width) dim) as (xw & -> & _ & Hxw); [lia|].
  simpl. rewrite for_map. apply for_ext. intros y v'.
  destruct (truediv_pos (y * height) dim) as (yh & -> & _ & Hyh); [lia|].
  destruct (truediv_pos width dim) as (wd & -> & _ & Hwd); [lia|].
  destruct (truediv_pos height dim) as (hd & Hhd & _ & Hhd'); [lia|].
  simpl. unfold sectionStep, sectionPixels. rewrite Hsz. simpl.
  f_equal. rewrite for_flat_map. unfold spanLength, spanStart.
  rewrite Hwd, Hxw, Hyh. apply for_ext. intros i v''.
  rewrite Hhd. simpl. rewrite for_map, Hhd'. done.
Qed.

Lemma index_lookup {A} (l : list A) (k : nat) :
  Py.index l (Z.of_nat k) = l !! k.
Proof.
  unfold Py.index. destruct (Z.ltb_spec (Z.of_nat k) 0); [lia|].
  by rewrite Nat2Z.id.
Qed.

Lemma setitem_insert {A} (l : list A) (k : nat) v :
  (k < length l)%nat -> Py.setitem l (Z.of_nat k) v = Some (<[k := v]> l).
Proof.
  intros Hk. unfold Py.setitem.
  destruct (Z.leb_spec 0 (Z.of_nat k)); [|lia].
  destruct (Z.ltb_spec (Z.of_nat k) (Z.of_nat (length l))); [|lia].
  simpl. by rewrite Nat2Z.id.
Qed.

Lemma addPixel_summing k reds greens blues rs gs bs n r g b :
  (k < length reds)%nat -> (k < length greens)%nat -> (k < length blues)%nat ->
  addPixel (r, g, b) (summing k reds greens blues rs gs bs n) =
  Some (summing k reds greens blues (rs + r) (gs + g) (bs + b) (n + 1)).
Proof.
  intros Hr Hg Hb. unfold addPixel, summing. simpl.
  rewrite !index_lookup, !list_lookup_insert_eq by done. simpl.
  rewrite !setitem_insert by (by rewrite length_insert). simpl.
  by rewrite !list_insert_insert_eq.
Qed.

Lemma accumulate_summing im k reds greens blues (ps : list (Z * Z)) :
  (k < length reds)%nat -> (k < length greens)%nat -> (k < length blues)%nat ->
  (forall p, p ∈ ps -> getpixel im p.1 p.2 = Some (im_data im p.1 p.2)) ->
  forall rs gs bs n,
  Py.for_ ps (fun p v => px ← getpixel im p.1 p.2; addPixel px v)
          (summing k reds greens blues rs gs bs n) =
  Some (summing k reds greens blues
          (rs + sumZ (map (fun p => (im_data im p.1 p.2).1.1) ps))
          (gs + sumZ (map (fun p => (im_data im p.1 p.2).1.2) ps))
          (bs + sumZ (map (fun p => (im_data im p.1 p.2).2) ps))
          (n + Z.of_nat (length ps))).
Proof.
  intros Hr Hg Hb. induction ps as [|p ps IH]; intros Hpx rs gs bs n.
  - simpl. by rewrite !Z.add_0_r.
  - cbn [Py.for_]. rewrite (Hpx p) by left. simpl.
    destruct (im_data im p.1 p.2) as [[r g] b] eqn:Hp.
    rewrite addPixel_summing by done. simpl.
    rewrite IH by (intros; apply Hpx; by right).
    f_equal. unfold summing. simpl. rewrite <- !Z.add_assoc. f_equal. lia.
Qed.

Lemma average_summing k reds greens blues rs gs bs n :
  (k < length reds)%nat -> (k < length greens)%nat -> (k < length blues)%nat ->
  0 < n ->
  average (summing k reds greens blues rs gs bs n) =
  Some {| redval := <[k := Py.round (inject_Z rs / inject_Z n)]> reds;
          greenval := <[k := Py.round (inject_Z gs / inject_Z n)]> greens;
          blueval := <[k := Py.round (inject_Z bs / inject_Z n)]> blues;
          section := Z.of_nat (S k); count := 0 |}.
Proof.
  intros Hr Hg Hb Hn. unfold average, summing. simpl.
  rewrite !index_lookup, !list_lookup_insert_eq by done. simpl.
  destruct (truediv_pos rs n Hn) as (rq & -> & -> & _).
  destruct (truediv_pos gs n Hn) as (gq & -> & -> & _).
  destruct (truediv_pos bs n Hn) as (bq & -> & -> & _). simpl.
  rewrite !setitem_insert by (by rewrite length_insert). simpl.
  rewrite !list_insert_insert_eq. do 2 f_equal. lia.
Qed.

Lemma elem_of_sectionPixels w h dim x y i j :
  (i, j) ∈ sectionPixels w h dim x y <->
  spanStart w dim x <= i < spanStart w dim x + spanLength w dim /\
  spanStart h dim y <= j < spanStart h dim y + spanLength h dim.
Proof.
  unfold sectionPixels. rewrite list_elem_of_In, in_flat_map. split.
  - intros (i0 & Hi0 & Hin). apply in_map_iff in Hin as (j0 & Heq & Hj0).
    apply list_elem_of_In, elem_of_range in Hi0, Hj0. simplify_eq. lia.
  - intros [Hi Hj]. exists (i - spanStart w dim x). split.
    + apply list_elem_of_In, elem_of_range. lia.
    + apply in_map_iff. exists (j - spanStart h dim y). split.
      * f_equal; lia.
      * apply list_elem_of_In, elem_of_range. lia.
Qed.

Lemma length_flat_map_const {A B} (F : A -> list B) (l : list A) n :
  (forall a, length (F a) = n) -> length (flat_map F l) = (length l * n)%nat.
Proof.
  intros HF. induction l as [|a l IH]; simpl; [done|].
  rewrite length_app, HF, IH. done.
Qed.

Lemma length_sectionPixels w h dim x y :
  length (sectionPixels w h dim x y) =
  (Z.to_nat (spanLength w dim) * Z.to_nat (spanLength h dim))%nat.
Proof.
  unfold sectionPixels.
  rewrite (length_flat_map_const _ _ (Z.to_nat (spanLength h dim))).
  - by rewrite length_range.
  - intros i. by rewrite length_map, length_range.
Qed.

(** A span lies inside the axis it divides. *)
Lemma span_in_axis size dim s :
  1 <= dim -> 0 <= size -> 0 <= s < dim ->
  0 <= spanStart size dim s /\
  spanStart size dim s + spanLength size dim <= size.
Proof.
  intros Hd Hs Hr. unfold spanStart, spanLength.
  rewrite !Z.quot_div_nonneg by nia.
  pose proof (Z.div_mod (s * size) dim). pose proof (Z.div_mod size dim).
  pose proof (Z.mod_pos_bound (s * size) dim).
  pose proof (Z.mod_pos_bound size dim).
  assert (0 <= s * size / dim) by (apply Z.div_pos; nia).
  assert (0 <= size / dim) by (apply Z.div_pos; nia).
  split; [done|]. nia.
Qed.

Lemma spanLength_pos size dim : 1 <= dim -> dim <= size -> 0 < spanLength size dim.
Proof.
  intros Hd Hs. unfold spanLength. rewrite Z.quot_div_nonneg by lia.
  apply Z.div_str_pos. lia.
Qed.

Lemma sectionPixels_in_image im dim x y p :
  1 <= dim -> 0 <= (im_size im).1 -> 0 <= (im_size im).2 ->
  0 <= x < dim -> 0 <= y < dim ->
  p ∈ sectionPixels (im_size im).1 (im_size im).2 dim x y ->
  getpixel im p.1 p.2 = Some (im_data im p.1 p.2).
Proof.
  intros Hd Hw Hh Hx Hy Hp. destruct p as [i j].
  apply elem_of_sectionPixels in Hp as [Hi Hj].
  pose proof (span_in_axis (im_size im).1 dim x Hd Hw Hx).
  pose proof (span_in_axis (im_size im).2 dim y Hd Hh Hy).
  destruct (im_size im) as [w h] eqn:Hsz. simpl in *.
  unfold getpixel. rewrite Hsz.
  destruct (Z.ltb_spec i 0); [lia|]. destruct (Z.ltb_spec j 0); [lia|].
  destruct (Z.leb_spec 0 i); [|lia]. destruct (Z.ltb_spec i w); [|lia].
  destruct (Z.leb_spec 0 j); [|lia]. destruct (Z.ltb_spec j h); [|lia]. done.
Qed.

(** One section: its three sums are replaced by the rounded means. *)
Lemma sectionStep_mean im dim x y k reds greens blues :
  1 <= dim -> dim <= (im_size im).1 -> dim <= (im_size im).2 ->
  0 <= x < dim -> 0 <= y < dim ->
  reds !! k = Some 0 -> greens !! k = Some 0 -> blues !! k = Some 0 ->
  sectionStep im dim (x, y)
    {| redval := reds; greenval := greens; blueval := blues;
       section := Z.of_nat k; count := 0 |} =
  Some {| redval := <[k := (sectionColour im dim x y).1.1]> reds;
          greenval := <[k := (sectionColour im dim x y).1.2]> greens;
          blueval := <[k := (sectionColour im dim x y).2]> blues;
          section := Z.of_nat (S k); count := 0 |}.
Proof.
  intros Hd Hw Hh Hx Hy Hr Hg Hb.
  assert (Hkr := lookup_lt_Some _ _ _ Hr).
  assert (Hkg := lookup_lt_Some _ _ _ Hg).
  assert (Hkb := lookup_lt_Some _ _ _ Hb).
  unfold sectionStep. simpl.
  replace {| redval := reds; greenval := greens; blueval := blues;
             section := Z.of_nat k; count := 0 |}
    with (summing k reds greens blues 0 0 0 0)
    by (unfold summing; by rewrite !list_insert_id).
  rewrite accumulate_summing; try done.
  2:{ intros p Hp. by apply (sectionPixels_in_image im dim x y); try lia. }
  simpl. rewrite average_summing; try done.
  2:{ rewrite length_sectionPixels.
      pose proof (spanLength_pos (im_size im).1 dim Hd Hw).
      pose proof (spanLength_pos (im_size im).2 dim Hd Hh). nia. }
  unfold sectionColour, mean. simpl.
  rewrite !map_map, !length_map. done.
Qed.

Lemma elem_of_sections dim x y :
  (x, y) ∈ sections dim <-> 0 <= x < dim /\ 0 <= y < dim.
Proof.
  unfold sections. rewrite list_elem_of_In, in_flat_map. split.
  - intros (x0 & Hx0 & Hin). apply in_map_iff in Hin as (y0 & Heq & Hy0).
    apply list_elem_of_In, elem_of_range in Hx0, Hy0. by simplify_eq.
  - intros [Hx Hy]. exists x. split.
    + by apply list_elem_of_In, elem_of_range.
    + apply in_map_iff. exists y. split; [done|].
      by apply list_elem_of_In, elem_of_range.
Qed.

Lemma length_sections dim :
  0 <= dim -> length (sections dim) = Z.to_nat (dim * dim).
Proof.
  intros Hd. unfold sections.
  rewrite (length_flat_map_const _ _ (Z.to_nat dim)).
  - rewrite length_range. nia.
  - intros. by rewrite length_map, length_range.
Qed.

(** The loop over the sections fills the three lists from the left. *)
Lemma sections_loop im dim (ss : list (Z * Z)) : forall (filled : list RGB),
  1 <= dim -> dim <= (im_size im).1 -> dim <= (im_size im).2 ->
  (forall s, s ∈ ss -> 0 <= s.1 < dim /\ 0 <= s.2 < dim) ->
  Py.for_ ss (sectionStep im dim)
    {| redval := map (fun c => c.1.1) filled ++ replicate (length ss) 0;
       greenval := map (fun c => c.1.2) filled ++ replicate (length ss) 0;
       blueval := map (fun c => c.2) filled ++ replicate (length ss) 0;
       section := Z.of_nat (length filled); count := 0 |} =
  Some (let cells := filled ++ map (fun s => sectionColour im dim s.1 s.2) ss in
        {| redval := map (fun c => c.1.1) cells;
           greenval := map (fun c => c.1.2) cells;
           blueval := map (fun c => c.2) cells;
           section := Z.of_nat (length filled + length ss); count := 0 |}).
Proof.
  induction ss as [|[x y] ss IH]; intros filled Hd Hw Hh Hss.
  - simpl. by rewrite !app_nil_r, Nat.add_0_r.
  - cbn [Py.for_ length replicate].
    assert (Hk : forall (f : RGB -> Z) (v : Z),
      (map f filled ++ v :: replicate (length ss) 0) !! length filled = Some v).
    { intros f v. rewrite lookup_app_r by (by rewrite length_map).
      by rewrite length_map, Nat.sub_diag. }
    destruct (Hss (x, y)) as [Hx Hy]; [left|]. simpl in Hx, Hy.
    rewrite sectionStep_mean by (done || apply Hk). cbn [mbind option_bind].
    assert (Hins : forall (f : Z * Z * Z -> Z) (c : Z * Z * Z),
      <[length filled := f c]> (map f filled ++ 0 :: replicate (length ss) 0)
      = map f (filled ++ [c]) ++ replicate (length ss) 0).
    { intros f c. rewrite insert_app_r_alt by (by rewrite length_map).
      rewrite length_map, Nat.sub_diag, map_app. simpl.
      by rewrite <- app_assoc. }
    pose proof (Hins (fun c => c.1.1) (sectionColour im dim x y)) as H1.
    pose proof (Hins (fun c => c.1.2) (sectionColour im dim x y)) as H2.
    pose proof (Hins (fun c => c.2) (sectionColour im dim x y)) as H3.
    cbv beta in H1, H2, H3. rewrite H1, H2, H3.
    replace (S (length filled)) with (length (filled ++ [sectionColour im dim x y]))
      by (rewrite length_app; simpl; lia).
    rewrite IH by (done || intros; apply Hss; by right).
    simpl. rewrite <- !app_assoc, length_app. simpl. do 2 f_equal. lia.
Qed.

(** [colours] returns the rounded means of the sections. *)
Lemma colours_summary im dim :
  1 <= dim -> dim <= (im_size im).1 -> dim <= (im_size im).2 ->
  colours im dim = Some (summary im dim).
Proof.
  intros Hd Hw Hh. rewrite colours_sections by done.
  pose proof (sections_loop im dim (sections dim) [] Hd Hw Hh) as Hloop.
  rewrite length_sections in Hloop by lia. simpl in Hloop.
  change (Z.of_nat 0) with 0 in Hloop.
  rewrite Hloop; [done|].
  intros [x y] Hs. by apply elem_of_sections.
Qed.

Lemma round_exact c n : 0 < n -> Py.round (inject_Z (c * n) / inject_Z n) = c.
Proof.
  intros Hn.
  assert (Heq : (inject_Z (c * n) / inject_Z n == inject_Z c)%Q).
  { rewrite inject_Z_mult. field. intros H0.
    unfold Qeq in H0. simpl in H0. lia. }
  assert (Hf : Qfloor (inject_Z (c * n) / inject_Z n) = c)
    by (rewrite Heq; apply Qfloor_Z).
  assert (Hc : (inject_Z (c * n) / inject_Z n - inject_Z c ?= 1 # 2)%Q = Lt).
  { rewrite Heq. apply (proj1 (Qlt_alt _ _)). unfold Qlt. simpl. lia. }
  unfold Py.round. cbv zeta. by rewrite Hf, Hc.
Qed.

Lemma mean_const (c : Z) (l : list Z) :
  l <> [] -> (forall v, v ∈ l -> v = c) -> mean l = c.
Proof.
  intros Hne Hall.
  assert (Hsum : sumZ l = c * Z.of_nat (length l)).
  { clear Hne. induction l as [|v l IH]; simpl; [lia|].
    rewrite (Hall v) by left. rewrite IH by (intros; apply Hall; by right).
    lia. }
  unfold mean. rewrite Hsum. apply round_exact.
  destruct l; [done | simpl; lia].
Qed.

Lemma map_const {A B} (f : A -> B) (b : B) (l : list A) :
  (forall a, a ∈ l -> f a = b) -> map f l = replicate (length l) b.
Proof.
  induction l as [|a l IH]; intros H; simpl; [done|].
  rewrite (H a) by left. rewrite IH by (intros; apply H; by right). done.
Qed.

Lemma map_replicate {A B} (f : A -> B) n (a : A) :
  map f (replicate n a) = replicate n (f a).
Proof. induction n; simpl; [done | by rewrite IHn]. Qed.

Lemma sectionColour_uniform im dim x y C :
  1 <= dim -> dim <= (im_size im).1 -> dim <= (im_size im).2 ->
  0 <= x < dim -> 0 <= y < dim ->
  (forall i j, 0 <= i < (im_size im).1 -> 0 <= j < (im_size im).2 ->
               im_data im i j = C) ->
  sectionColour im dim x y = C.
Proof.
  intros Hd Hw Hh Hx Hy HC. unfold sectionColour.
  set (ps := sectionPixels (im_size im).1 (im_size im).2 dim x y).
  assert (Hne : ps <> []).
  { intros Hnil. pose proof (length_sectionPixels (im_size im).1
                               (im_size im).2 dim x y) as Hl.
    fold ps in Hl. rewrite Hnil in Hl. simpl in Hl.
    pose proof (spanLength_pos (im_size im).1 dim Hd Hw).
    pose proof (spanLength_pos (im_size im).2 dim Hd Hh). nia. }
  assert (Hpx : map (fun p => im_data im p.1 p.2) ps = replicate (length ps) C).
  { apply map_const. intros [i j] Hp.
    apply elem_of_sectionPixels in Hp as [Hi Hj].
    pose proof (span_in_axis (im_size im).1 dim x).
    pose proof (span_in_axis (im_size im).2 dim y).
    apply HC; simpl; lia. }
  rewrite Hpx. destruct C as [[r g] b].
  assert (Hrep : forall (f : Z * Z * Z -> Z),
            mean (map f (replicate (length ps) (r, g, b))) = f (r, g, b)).
  { intros f. apply mean_const.
    - destruct ps; [done | simpl; done].
    - intros v Hv. apply list_elem_of_fmap in Hv as (c & -> & Hc).
      apply elem_of_replicate in Hc as [-> _]. done. }
  by rewrite !Hrep.
Qed.

(** C7, amended: for a square image of side [side] whose pixels all have
    the colour [C] and for a grid dimension [d] with [1 <= d <= side],
    [colours] returns [d*d] cells each equal to [C]. *)
Theorem uniform_image_summary im side d C :
  im_size im = (side, side) ->
  (forall x y, 0 <= x < side -> 0 <= y < side -> im_data im x y = C) ->
  1 <= d -> d <= side ->
  colours im d = Some (replicate (Z.to_nat (d * d)) C.1.1,
                       replicate (Z.to_nat (d * d)) C.1.2,
                       replicate (Z.to_nat (d * d)) C.2).
Proof.
  intros Hsz HC Hd Hs.
  rewrite colours_summary by (rewrite ?Hsz; simpl; lia).
  unfold summary.
  assert (Hcells : map (fun s => sectionColour im d s.1 s.2) (sections d)
                   = replicate (Z.to_nat (d * d)) C).
  { rewrite <- length_sections by lia. apply map_const. intros [x y] Hxy.
    apply elem_of_sections in Hxy as [Hx Hy].
    apply sectionColour_uniform; rewrite ?Hsz; simpl; try lia.
    apply HC. }
  rewrite Hcells, !map_replicate. done.
Qed.

Lemma uniform_image_summary_witness :
  colours {| im_size := (4, 4); im_data := fun _ _ => (200, 100, 50) |} 2
  = Some ([200; 200; 200; 200], [100; 100; 100; 100], [50; 50; 50; 50]).
Proof.
  apply (uniform_image_summary _ 4 2 (200, 100, 50));
    [reflexivity | reflexivity | lia | lia].
Defined.

(** C7 as stated: a grid dimension larger than the side. *)
Lemma uniform_summary_fails_when_dim_exceeds_side :
  colours {| im_size := (1, 1); im_data := fun _ _ => (200, 100, 50) |} 2
  = None.
Proof. reflexivity. Qed.

(** Spans of increasing section indices do not overlap. *)
Lemma spans_ordered size dim s s' :
  1 <= dim -> 0 <= size -> 0 <= s -> s < s' ->
  spanStart size dim s + spanLength size dim <= spanStart size dim s'.
Proof.
  intros Hd Hs H0 Hlt. unfold spanStart, spanLength.
  rewrite !Z.quot_div_nonneg by nia.
  apply Z.div_le_lower_bound; [lia|].
  pose proof (Z.mul_div_le (s * size) dim).
  pose proof (Z.mul_div_le size dim). nia.
Qed.

Lemma span_unique size dim s s' i :
  1 <= dim -> 0 <= size -> 0 <= s -> 0 <= s' ->
  spanStart size dim s <= i < spanStart size dim s + spanLength size dim ->
  spanStart size dim s' <= i < spanStart size dim s' + spanLength size dim ->
  s = s'.
Proof.
  intros Hd Hs H0 H0' Hi Hi'.
  destruct (Z.lt_trichotomy s s') as [Hlt|[->|Hgt]]; [|done|].
  - pose proof (spans_ordered size dim s s' Hd Hs H0 Hlt). lia.
  - pose proof (spans_ordered size dim s' s Hd Hs H0' Hgt). lia.
Qed.

(** When [dim] divides the axis, the spans leave nothing out. *)
Lemma span_cover size dim i :
  1 <= dim -> (dim | size) -> 0 <= i < size ->
  exists s, 0 <= s < dim /\
    spanStart size dim s <= i < spanStart size dim s + spanLength size dim.
Proof.
  intros Hd [q ->] Hi. assert (0 < q) by nia.
  exists (i / q). unfold spanStart, spanLength.
  assert (0 <= i / q) by (apply Z.div_pos; lia).
  rewrite !Z.quot_div_nonneg by nia.
  replace (i / q * (q * dim)) with (i / q * q * dim) by lia.
  rewrite !Z.div_mul by lia.
  pose proof (Z.div_mod i q). pose proof (Z.mod_pos_bound i q).
  split; [|nia]. split; [done|].
  apply Z.div_lt_upper_bound; nia.
Qed.

(** C8, amended: for an image of [w x h] pixels and [1 <= d <= min(w, h)],
    [colours] returns for each section the rounded mean of exactly the
    pixels of that section's integer-truncated span; spans of different
    sections share no pixel; and when [d] divides both [w] and [h] no
    pixel of the image is left out.  (When [d] does not divide [w] or [h]
    the pixels in no span are left out, and these need not be in the final
    row or column.) *)
Theorem colours_average_truncated_spans im w h d :
  im_size im = (w, h) -> 1 <= d -> d <= w -> d <= h ->
  colours im d = Some (summary im d) /\
  (forall x y i j,
     (i, j) ∈ sectionPixels w h d x y <->
     spanStart w d x <= i < spanStart w d x + spanLength w d /\
     spanStart h d y <= j < spanStart h d y + spanLength h d) /\
  (forall x y x' y' p, 0 <= x < d -> 0 <= y < d -> 0 <= x' < d -> 0 <= y' < d ->
     p ∈ sectionPixels w h d x y -> p ∈ sectionPixels w h d x' y' ->
     x = x' /\ y = y') /\
  ((d | w) -> (d | h) ->
   forall i j, 0 <= i < w -> 0 <= j < h -> ~ omitted w h d i j).
Proof.
  intros Hsz Hd Hw Hh.
  split; [apply colours_summary; rewrite ?Hsz; simpl; lia|].
  split; [intros; apply elem_of_sectionPixels|]. split.
  - intros x y x' y' [i j] Hx Hy Hx' Hy' [Hi Hj]%elem_of_sectionPixels
           [Hi' Hj']%elem_of_sectionPixels.
    split; [apply (span_unique w d x x' i) | apply (span_unique h d y y' j)];
      (done || lia).
  - intros Hdw Hdh i j Hi Hj Hom.
    destruct (span_cover w d i Hd Hdw Hi) as (x & Hx & Hxi).
    destruct (span_cover h d j Hd Hdh Hj) as (y & Hy & Hyj).
    apply (Hom x y Hx Hy). by apply elem_of_sectionPixels.
Qed.

Lemma colours_average_truncated_spans_witness :
  colours {| im_size := (4, 6); im_data := fun x y => (x, y, 9) |} 2
  = Some (summary {| im_size := (4, 6); im_data := fun x y => (x, y, 9) |} 2).
Proof.
  apply (colours_average_truncated_spans _ 4 6 2); [reflexivity | lia..].
Defined.

(** C8 as stated: a 5 x 5 image summarized with [dim = 3].  Column 2 is
    read by no section although it is not the final column. *)
Lemma interior_column_is_omitted :
  omitted 5 5 3 2 0 /\ 0 <= 2 < 5 - 1 /\ 0 <= 0 < 5 - 1.
Proof.
  split; [|lia]. intros x y Hx Hy Hin.
  apply elem_of_sectionPixels in Hin as [Hi _].
  assert (Hc : x = 0 \/ x = 1 \/ x = 2) by lia.
  destruct Hc as [Hc|[Hc|Hc]]; subst x; vm_compute in Hi;
    destruct Hi as [H1 H2]; first [ by apply H1 | done ].
Qed.


Lemma spiral_accepts_each_cell_once_witness :
  1 <= 3 /\ 1 <= 2 /\
  exists cells,
    acceptedCells 3 2 = Some cells /\
    NoDup cells /\
    (forall row col, (row, col) ∈ cells <-> 0 <= row < 2 /\ 0 <= col < 3) /\
    head cells = Some (Py.int (inject_Z (2 - 1) / 2),
                       Py.int (inject_Z (3 - 1) / 2)).
Proof.
  split; [lia|]. split; [lia|].
  apply (spiral_accepts_each_cell_once 3 2); lia.
Defined.

Lemma tableOf_twoTiles : tableOf 1 twoTiles.
Proof.
  intros name colours Hin. unfold twoTiles in Hin.
  repeat (apply elem_of_cons in Hin as [Hin|Hin];
          [simplify_eq; repeat split; reflexivity|]).
  by apply elem_of_nil in Hin.
Qed.

Lemma placement_tiles_distinct_witness :
  exists tileLocations nTilesUsed,
    placeSpiral twoPixels 5 5 2 1 twoTiles 1 false
      = Some (tileLocations, nTilesUsed) /\
    (forall i, 0 <= i < 2 -> exists c d, tileLocations !! c = Some (i, d)).
Proof.
  destruct (placement_tiles_distinct twoPixels 5 5 2 1 twoTiles 1)
    as (tl & n & Hrun & _ & _ & _ & Hall);
    [lia | lia | lia | apply tableOf_twoTiles | reflexivity | reflexivity |].
  exists tl, n. split; [exact Hrun|]. apply Hall. lia.
Defined.

(** C2 as stated: one tile, one cell, and the cell is the origin cell. *)
Lemma origin_cell_leaves_a_tile_unused :
  exists tileLocations nTilesUsed,
    placeSpiral (onePixel (255, 255, 255)) 0 0 1 1
                [("white"%string, ([255], [255], [255]))] 1 false
      = Some (tileLocations, nTilesUsed) /\
    ~ exists c d, tileLocations !! c = Some (0, d).
Proof.
  exists {[ (0, 0) := (-1, 0%R) ]}, 1. split; [vm_compute; reflexivity|].
  intros (c & d & Hl). apply lookup_singleton_Some in Hl as [_ Heq].
  by inversion Heq.
Qed.


Lemma origin_counts_as_used_tile_witness :
  exists tileLocations placedTiles,
    placeSpiralVars twoPixels 0 0 2 1
      [("white"%string, ([255], [255], [255]))] 1 false
      = Some (tileLocations, placedTiles) /\
    tileLocations !! (0, 0) = Some (-1, 0%R) /\
    -1 ∈ placedTiles /\
    placeSpiral twoPixels 0 0 2 1
      [("white"%string, ([255], [255], [255]))] 1 false
    = Some (tileLocations, Z.of_nat (size (tilesPlaced tileLocations)) + 1).
Proof.
  eexists _, _.
  assert (Hvars : placeSpiralVars twoPixels 0 0 2 1
      [("white"%string, ([255], [255], [255]))] 1 false
      = Some (?[tl], ?[pt])) by (vm_compute; reflexivity).
  split; [exact Hvars|].
  apply (origin_counts_as_used_tile twoPixels 0 0 2 1 _ 1 false);
    [lia | lia | lia | lia | exact Hvars].
Defined.

(** ** Further properties of the code *)

(** *** Layout arithmetic *)

Lemma int_floor q : (0 <= q)%Q -> Py.int q = Qfloor q.
Proof.
  destruct q as [n d]. unfold Qle, Py.int, Qfloor. simpl. intros Hn.
  apply Z.quot_div_nonneg; lia.
Qed.

Lemma int_bounds q :
  (0 <= q)%Q -> (inject_Z (Py.int q) <= q)%Q /\ (q < inject_Z (Py.int q) + 1)%Q.
Proof.
  intros Hq. rewrite (int_floor q Hq). split; [apply Qfloor_le|].
  pose proof (Qlt_floor q) as H. rewrite inject_Z_plus in H. exact H.
Qed.

Lemma int_nonneg q : (0 <= q)%Q -> 0 <= Py.int q.
Proof.
  intros Hq. rewrite (int_floor q Hq).
  change 0 with (Qfloor 0). by apply Qfloor_resp_le.
Qed.

Lemma round_bounds q :
  (q - (1 # 2) <= inject_Z (Py.round q))%Q /\
  (inject_Z (Py.round q) <= q + (1 # 2))%Q.
Proof.
  unfold Py.round. pose proof (Qfloor_le q) as Hlo.
  pose proof (Qlt_floor q) as Hhi. rewrite inject_Z_plus in Hhi.
  destruct (Qcompare (q - inject_Z (Qfloor q)) (1 # 2)) eqn:Hc.
  - apply Qeq_alt in Hc. destruct (Z.even (Qfloor q));
      rewrite ?inject_Z_plus; change (inject_Z 1) with 1%Q in *;
      split; Lqa.lra.
  - apply Qlt_alt in Hc. change (inject_Z 1) with 1%Q in *. split; Lqa.lra.
  - apply Qgt_alt in Hc. rewrite inject_Z_plus.
    change (inject_Z 1) with 1%Q in *. split; Lqa.lra.
Qed.

Lemma inject_Z_pos b : 0 < b -> (0 < inject_Z b)%Q.
Proof. intros H. unfold Qlt. simpl. lia. Qed.

Lemma inject_Z_nonneg a : 0 <= a -> (0 <= inject_Z a)%Q.
Proof. intros H. unfold Qle. simpl. lia. Qed.

Lemma Qfrac_lt a b c d :
  0 < b -> 0 < d ->
  (inject_Z a / inject_Z b < inject_Z c / inject_Z d)%Q <-> a * d < c * b.
Proof.
  intros Hb Hd.
  pose proof (inject_Z_pos b Hb) as Hb'.
  pose proof (inject_Z_pos d Hd) as Hd'.
  rewrite (Zlt_Qlt (a * d) (c * b)), !inject_Z_mult.
  split; intros H.
  - apply (Qmult_lt_r _ _ (inject_Z b * inject_Z d)) in H; [|Lqa.nra].
    assert (E1 : (inject_Z a / inject_Z b * (inject_Z b * inject_Z d)
                  == inject_Z a * inject_Z d)%Q) by (field; Lqa.lra).
    assert (E2 : (inject_Z c / inject_Z d * (inject_Z b * inject_Z d)
                  == inject_Z c * inject_Z b)%Q) by (field; Lqa.lra).
    rewrite E1, E2 in H. exact H.
  - apply (Qmult_lt_r _ _ (inject_Z b * inject_Z d)); [Lqa.nra|].
    assert (E1 : (inject_Z a / inject_Z b * (inject_Z b * inject_Z d)
                  == inject_Z a * inject_Z d)%Q) by (field; Lqa.lra).
    assert (E2 : (inject_Z c / inject_Z d * (inject_Z b * inject_Z d)
                  == inject_Z c * inject_Z b)%Q) by (field; Lqa.lra).
    rewrite E1, E2. exact H.
Qed.

Lemma int_frac q a b :
  0 <= a -> 0 < b -> (q == inject_Z a / inject_Z b)%Q -> Py.int q = a / b.
Proof.
  intros Ha Hb Hq.
  pose proof (inject_Z_pos b Hb) as Hb'.
  pose proof (inject_Z_nonneg a Ha) as Ha'.
  assert (H0 : (0 <= q)%Q).
  { rewrite Hq. apply Qle_shift_div_l; [exact Hb'|]. Lqa.lra. }
  rewrite (int_floor q H0), Hq.
  destruct b as [|b|b]; try lia.
  change (inject_Z a / inject_Z (Z.pos b))%Q with (Qmake a 1 / Qmake (Z.pos b) 1)%Q.
  assert (E : (Qmake a 1 / Qmake (Z.pos b) 1 == Qmake a b)%Q).
  { unfold Qeq, Qdiv, Qmult, Qinv. simpl. lia. }
  rewrite E. reflexivity.
Qed.

Lemma truediv_Qpos a b : (0 < b)%Q -> Py.truediv a b = Some (a / b)%Q.
Proof.
  intros Hb. unfold Py.truediv.
  destruct (Qeq_bool b 0) eqn:E; [|reflexivity].
  apply Qeq_bool_iff in E. rewrite E in Hb. by apply Qlt_irrefl in Hb.
Qed.

Lemma truediv_Z a b :
  Py.truediv a (inject_Z b) = if b =? 0 then None else Some (a / inject_Z b)%Q.
Proof.
  unfold Py.truediv. destruct (Z.eqb_spec b 0) as [->|Hb]; [reflexivity|].
  destruct (Qeq_bool (inject_Z b) 0) eqn:E; [|reflexivity].
  apply Qeq_bool_iff in E. unfold Qeq in E. simpl in E. lia.
Qed.

Lemma ltb_lt a b : Py.ltb a b = true <-> (a < b)%Q.
Proof.
  unfold Py.ltb. rewrite negb_true_iff. split.
  - intros H. apply Qnot_le_lt. intros Hle. apply Qle_bool_iff in Hle. congruence.
  - intros H. destruct (Qle_bool b a) eqn:E; [|reflexivity].
    apply Qle_bool_iff in E. exfalso. apply (Qlt_not_le _ _ H E).
Qed.

(** The tile counts of [mosaic] as integer quotients. *)
Lemma tileGrid_eq c1 c2 margin tilemm ox oy :
  0 < tilemm -> 0 < ox -> 0 < oy -> 0 < c1 - 2 * margin -> c1 < c2 ->
  tileGrid (c1, c2) margin tilemm (ox, oy) =
  let p1 := c1 - 2 * margin in
  let p2 := c2 - 2 * margin in
  let '(XD, YD) := if ox * p2 <? p1 * oy
                   then ((p2 * ox) / (tilemm * oy), p2 / tilemm)
                   else (p1 / tilemm, (p1 * oy) / (tilemm * ox)) in
  if YD =? 0 then None else Some (XD, YD).
Proof.
  intros Ht Hox Hoy Hp1 Hc. unfold tileGrid. cbn [fst snd].
  destruct (Z.ltb_spec c1 c2) as [_|]; [|lia]. cbn [negb].
  set (p1 := c1 - 2 * margin). set (p2 := c2 - 2 * margin).
  assert (Hp2 : 0 < p2) by (unfold p2, p1 in *; lia).
  pose proof (inject_Z_pos _ Ht) as Ht'. pose proof (inject_Z_pos _ Hox) as Hox'.
  pose proof (inject_Z_pos _ Hoy) as Hoy'. pose proof (inject_Z_pos _ Hp1) as Hp1'.
  pose proof (inject_Z_pos _ Hp2) as Hp2'. fold p1 in Hp1'.
  assert (HoutX : (0 < inject_Z p1 / inject_Z tilemm)%Q)
    by (apply Qlt_shift_div_l; [exact Ht'|Lqa.lra]).
  assert (HoutY : (0 < inject_Z p2 / inject_Z tilemm)%Q)
    by (apply Qlt_shift_div_l; [exact Ht'|Lqa.lra]).
  assert (Horig : (0 < inject_Z ox / inject_Z oy)%Q)
    by (apply Qlt_shift_div_l; [exact Hoy'|Lqa.lra]).
  rewrite !(truediv_Qpos _ _ Ht'). cbn [mbind option_bind].
  rewrite (truediv_Qpos _ _ HoutY). cbn [mbind option_bind].
  rewrite (truediv_Qpos _ _ Hoy'). cbn [mbind option_bind].
  assert (Hratio : (inject_Z p1 / inject_Z tilemm / (inject_Z p2 / inject_Z tilemm)
                    == inject_Z p1 / inject_Z p2)%Q) by (field; split; Lqa.lra).
  assert (Hcmp : Py.ltb (inject_Z ox / inject_Z oy)
                   (inject_Z p1 / inject_Z tilemm / (inject_Z p2 / inject_Z tilemm))
                 = (ox * p2 <? p1 * oy)).
  { apply eq_true_iff_eq. rewrite ltb_lt, Hratio, Z.ltb_lt.
    apply Qfrac_lt; lia. }
  rewrite Hcmp. destruct (ox * p2 <? p1 * oy) eqn:Hlt.
  - cbn [mbind option_bind].
    rewrite (int_frac (inject_Z p2 / inject_Z tilemm * (inject_Z ox / inject_Z oy))
               (p2 * ox) (tilemm * oy)); [|nia|nia|].
    2:{ rewrite !inject_Z_mult. field. split; Lqa.lra. }
    rewrite (int_frac (inject_Z p2 / inject_Z tilemm) p2 tilemm);
      [|lia|lia|reflexivity].
    rewrite truediv_Z. destruct (p2 / tilemm =? 0); reflexivity.
  - rewrite (truediv_Qpos _ _ Horig). cbn [mbind option_bind].
    rewrite (int_frac (inject_Z p1 / inject_Z tilemm) p1 tilemm);
      [|lia|lia|reflexivity].
    rewrite (int_frac (inject_Z p1 / inject_Z tilemm / (inject_Z ox / inject_Z oy))
               (p1 * oy) (tilemm * ox)); [|nia|nia|].
    2:{ rewrite !inject_Z_mult. field. repeat split; Lqa.lra. }
    rewrite truediv_Z. destruct (p1 * oy / (tilemm * ox) =? 0); reflexivity.
Qed.

(** X2: [mosaic] raises [ZeroDivisionError] (at [ratio = XD/YD]) exactly when
    not one row of tiles fits. *)
Theorem tileGrid_raises_without_a_row canvas margin tilemm size :
  0 < tilemm -> 0 < size.1 -> 0 < size.2 -> 0 < canvas.1 - 2 * margin ->
  canvas.1 < canvas.2 ->
  tileGrid canvas margin tilemm size = None <->
  (if size.1 * (canvas.2 - 2 * margin) <? (canvas.1 - 2 * margin) * size.2
   then canvas.2 - 2 * margin < tilemm
   else (canvas.1 - 2 * margin) * size.2 < tilemm * size.1).
Proof.
  destruct canvas as [c1 c2], size as [ox oy]. cbn [fst snd].
  intros Ht Hox Hoy Hp1 Hc.
  rewrite (tileGrid_eq c1 c2 margin tilemm ox oy Ht Hox Hoy Hp1 Hc).
  cbv zeta. set (p1 := c1 - 2 * margin) in *. set (p2 := c2 - 2 * margin) in *.
  assert (Hp2 : p1 < p2) by (unfold p1, p2; lia).
  destruct (Z.ltb_spec (ox * p2) (p1 * oy)) as [Hlt|Hge].
  - destruct (Z.eqb_spec (p2 / tilemm) 0) as [E|E].
    + split; [intros _|reflexivity].
      apply Z.div_small_iff in E; lia.
    + split; [discriminate|]. intros Hs. destruct E. apply Z.div_small. lia.
  - destruct (Z.eqb_spec ((p1 * oy) / (tilemm * ox)) 0) as [E|E].
    + split; [intros _|reflexivity].
      apply Z.div_small_iff in E; nia.
    + split; [discriminate|]. intros Hs. destruct E. apply Z.div_small. nia.
Qed.

Lemma tileGrid_raises_without_a_row_witness :
  tileGrid (100, 150) 0 200 (3000, 4000) = None.
Proof.
  apply (tileGrid_raises_without_a_row (100, 150) 0 200 (3000, 4000));
    vm_compute; reflexivity.
Defined.

Lemma inject_Z_le a b : (inject_Z a <= inject_Z b)%Q -> a <= b.
Proof. unfold Qle. simpl. lia. Qed.

Lemma inject_Z_lt a b : (inject_Z a < inject_Z b)%Q -> a < b.
Proof. unfold Qlt. simpl. lia. Qed.

Lemma mm_of_pixels b :
  (inject_Z b * INCHES2MM / inject_Z DPI == inject_Z b * (127 # 1500))%Q.
Proof. unfold INCHES2MM, DPI. change (inject_Z 300) with 300%Q. field. Qed.

Lemma pixels_of_mm a :
  (inject_Z (a * DPI) / INCHES2MM == inject_Z a * (1500 # 127))%Q.
Proof.
  rewrite inject_Z_mult. unfold INCHES2MM, DPI.
  change (inject_Z 300) with 300%Q. field.
Qed.

(** One axis of the final image: the border that [checkFill] computes
    brings the tiled region up to the page, to within one millimetre. *)
Lemma axis_final_size c bw :
  0 <= bw ->
  Py.int (inject_Z bw * INCHES2MM / inject_Z DPI) <= c ->
  let xmm := Py.int (inject_Z bw * INCHES2MM / inject_Z DPI) in
  let fe := checkFill c xmm DPI in
  0 <= fe.1 /\ 0 <= fe.2 /\
  c <= Py.round (inject_Z (bw + fe.1 * 2 + fe.2) * INCHES2MM / inject_Z DPI)
    <= c + 1.
Proof.
  intros Hbw Hle xmm fe. fold xmm in Hle.
  pose proof (inject_Z_nonneg bw Hbw) as Hbw'.
  assert (Hq : (0 <= inject_Z bw * INCHES2MM / inject_Z DPI)%Q).
  { rewrite mm_of_pixels. Lqa.lra. }
  destruct (int_bounds _ Hq) as [Hlo Hhi]. fold xmm in Hlo, Hhi.
  rewrite mm_of_pixels in Hlo, Hhi.
  unfold fe, checkFill. cbv zeta. cbn [fst snd].
  set (idiff := c - xmm). rewrite int_half.
  set (ib := idiff ÷ 2).
  set (ie := if negb (idiff mod 2 =? 0) then 0 + 1 else 0).
  assert (Hsum : 2 * ib + ie = idiff /\ 0 <= ib /\ 0 <= ie <= 1).
  { assert (0 <= idiff) by (unfold idiff; lia).
    unfold ib, ie. rewrite (Z.quot_div_nonneg idiff 2) by lia.
    pose proof (Z.div_mod idiff 2 ltac:(lia)).
    pose proof (Z.mod_pos_bound idiff 2 ltac:(lia)).
    pose proof (Z.div_pos idiff 2 ltac:(lia) ltac:(lia)).
    destruct (Z.eqb_spec (idiff mod 2) 0); cbn [negb]; lia. }
  destruct Hsum as (Hsum & Hib & Hie).
  destruct (round_bounds (inject_Z (ib * DPI) / INCHES2MM)) as [Hf1 Hf2].
  destruct (round_bounds (inject_Z (ie * DPI) / INCHES2MM)) as [He1 He2].
  set (f := Py.round (inject_Z (ib * DPI) / INCHES2MM)) in *.
  set (e := Py.round (inject_Z (ie * DPI) / INCHES2MM)) in *.
  destruct (round_bounds (inject_Z (bw + f * 2 + e) * INCHES2MM / inject_Z DPI))
    as [Hr1 Hr2].
  set (r := Py.round (inject_Z (bw + f * 2 + e) * INCHES2MM / inject_Z DPI)) in *.
  rewrite pixels_of_mm in Hf1, Hf2, He1, He2.
  rewrite mm_of_pixels in Hr1, Hr2.
  rewrite !inject_Z_plus, !inject_Z_mult in Hr1, Hr2.
  change (inject_Z 2) with 2%Q in *.
  assert (Hsum' : (inject_Z (2 * ib + ie) == inject_Z (c + - xmm))%Q)
    by (rewrite Hsum; unfold idiff; reflexivity).
  rewrite !inject_Z_plus, inject_Z_mult, inject_Z_opp in Hsum'.
  change (inject_Z 2) with 2%Q in Hsum'.
  pose proof (inject_Z_nonneg ib Hib) as Hib'.
  pose proof (inject_Z_nonneg ie ltac:(lia)) as Hie'.
  repeat split.
  - assert (H : -1 < f); [|lia]. apply inject_Z_lt.
    change (inject_Z (-1)) with (-1)%Q. Lqa.lra.
  - assert (H : -1 < e); [|lia]. apply inject_Z_lt.
    change (inject_Z (-1)) with (-1)%Q. Lqa.lra.
  - assert (H : c < r + 1); [|lia]. apply inject_Z_lt.
    rewrite inject_Z_plus. change (inject_Z 1) with 1%Q. Lqa.lra.
  - assert (H : r < c + 2); [|lia]. apply inject_Z_lt.
    rewrite inject_Z_plus. change (inject_Z 2) with 2%Q. Lqa.lra.
Qed.

(** The tile side and the tiled region after the check against
    [MY_MAX_IMAGE_PIXELS] (lines 513-532). *)
Lemma canvasPlan_region maxPixels canvas margin XD YD tilesize p :
  0 <= maxPixels -> 0 <= XD -> 0 <= YD -> 0 <= tilesize ->
  canvasPlan maxPixels canvas margin XD YD tilesize = Some p ->
  0 <= Mosaic.tilesize p <= tilesize /\
  bigwidth p = Mosaic.tilesize p * XD /\
  bigheight p = Mosaic.tilesize p * YD /\
  bigwidth p <= maxPixels /\ bigheight p <= maxPixels /\
  Py.int (inject_Z (bigwidth p) * INCHES2MM / inject_Z DPI) <= canvas.1 /\
  Py.int (inject_Z (bigheight p) * INCHES2MM / inject_Z DPI) <= canvas.2 /\
  (leftOffset p, actualw p - bigwidth p - leftOffset p * 2) =
    checkFill canvas.1
      (Py.int (inject_Z (bigwidth p) * INCHES2MM / inject_Z DPI)) DPI /\
  (topOffset p, actualh p - bigheight p - topOffset p * 2) =
    checkFill canvas.2
      (Py.int (inject_Z (bigheight p) * INCHES2MM / inject_Z DPI)) DPI /\
  actualxmm p = Py.round (inject_Z (actualw p) * INCHES2MM / inject_Z DPI) /\
  actualymm p = Py.round (inject_Z (actualh p) * INCHES2MM / inject_Z DPI).
Proof.
  intros Hmax HX HY Hts Hrun. unfold canvasPlan in Hrun.
  assert (Hadj : exists ts,
    (if (maxPixels <? tilesize * XD) || (maxPixels <? tilesize * YD) then
       newtilesize ←
         (if tilesize * YD <? tilesize * XD
          then q ← Py.truediv (inject_Z maxPixels) (inject_Z XD);
               Some (Py.int q)
          else q ← Py.truediv (inject_Z maxPixels) (inject_Z YD);
               Some (Py.int q));
       Some (newtilesize, newtilesize * XD, newtilesize * YD)
     else Some (tilesize, tilesize * XD, tilesize * YD))
    = Some (ts, ts * XD, ts * YD) /\
    0 <= ts <= tilesize /\ ts * XD <= maxPixels /\ ts * YD <= maxPixels).
  { destruct ((maxPixels <? tilesize * XD) || (maxPixels <? tilesize * YD))
      eqn:Hbig.
    - apply orb_true_iff in Hbig. rewrite !Z.ltb_lt in Hbig.
      destruct (Z.ltb_spec (tilesize * YD) (tilesize * XD)) as [Hw|Hh].
      + assert (0 < XD) by nia.
        destruct (truediv_pos maxPixels XD ltac:(lia)) as (q & -> & _ & Hq).
        cbn [mbind option_bind]. rewrite Hq, (Z.quot_div_nonneg _ _ Hmax) by lia.
        exists (maxPixels / XD). split; [reflexivity|].
        pose proof (Z.div_pos maxPixels XD Hmax ltac:(lia)).
        pose proof (Z.mul_div_le maxPixels XD ltac:(lia)).
        assert (maxPixels / XD <= tilesize).
        { apply Z.div_le_upper_bound; nia. }
        assert (YD <= XD) by nia. repeat split; nia.
      + assert (0 < YD) by nia.
        destruct (truediv_pos maxPixels YD ltac:(lia)) as (q & -> & _ & Hq).
        cbn [mbind option_bind]. rewrite Hq, (Z.quot_div_nonneg _ _ Hmax) by lia.
        exists (maxPixels / YD). split; [reflexivity|].
        pose proof (Z.div_pos maxPixels YD Hmax ltac:(lia)).
        pose proof (Z.mul_div_le maxPixels YD ltac:(lia)).
        assert (maxPixels / YD <= tilesize).
        { apply Z.div_le_upper_bound; nia. }
        assert (XD <= YD) by nia. repeat split; nia.
    - apply orb_false_iff in Hbig. rewrite !Z.ltb_ge in Hbig.
      exists tilesize. split; [reflexivity|]. lia. }
  destruct Hadj as (ts & Hadj & Hts' & Hbw & Hbh).
  rewrite Hadj in Hrun. cbn [mbind option_bind] in Hrun.
  destruct (Z.leb_spec (Py.int (inject_Z (ts * XD) * INCHES2MM / inject_Z DPI))
              canvas.1) as [Hx|]; [|discriminate].
  destruct (Z.leb_spec (Py.int (inject_Z (ts * YD) * INCHES2MM / inject_Z DPI))
              canvas.2) as [Hy|]; [|discriminate].
  cbn [negb] in Hrun.
  destruct (checkFill canvas.1 _ DPI) as [wf we] eqn:Hwf.
  destruct (checkFill canvas.2 _ DPI) as [hf he] eqn:Hhf.
  injection Hrun as <-.
  cbn [Mosaic.tilesize bigwidth bigheight leftOffset topOffset actualw
       actualh actualxmm actualymm].
  rewrite Hwf, Hhf.
  repeat split; try lia; try reflexivity; f_equal; lia.
Qed.

Lemma checkFill_extra pagei imagei :
  (checkFill pagei imagei DPI).2 = 0 \/ (checkFill pagei imagei DPI).2 = 12.
Proof.
  unfold checkFill. cbn [snd].
  destruct (negb ((pagei - imagei) mod 2 =? 0)); [right|left]; reflexivity.
Qed.

(** X4: the tiles are pasted inside the final image, and the tiled region is
    centred in it: the border on the right (below) is the border on the
    left (above) or 12 pixels, one millimetre, more. *)
Theorem canvasPlan_region_centred maxPixels canvas margin XD YD tilesize p :
  0 <= maxPixels -> 0 <= XD -> 0 <= YD -> 0 <= tilesize ->
  canvasPlan maxPixels canvas margin XD YD tilesize = Some p ->
  0 <= leftOffset p /\ 0 <= topOffset p /\
  (actualw p - (leftOffset p + bigwidth p) = leftOffset p \/
   actualw p - (leftOffset p + bigwidth p) = leftOffset p + 12) /\
  (actualh p - (topOffset p + bigheight p) = topOffset p \/
   actualh p - (topOffset p + bigheight p) = topOffset p + 12).
Proof.
  intros Hmax HX HY Hts Hrun.
  destruct (canvasPlan_region _ _ _ _ _ _ _ Hmax HX HY Hts Hrun)
    as (Hts' & Hbw & Hbh & _ & _ & Hx & Hy & Hwf & Hhf & _).
  assert (Hbw0 : 0 <= bigwidth p) by nia.
  assert (Hbh0 : 0 <= bigheight p) by nia.
  pose proof (axis_final_size canvas.1 (bigwidth p) Hbw0 Hx) as Hw.
  pose proof (axis_final_size canvas.2 (bigheight p) Hbh0 Hy) as Hh.
  cbv zeta in Hw, Hh. rewrite <- Hwf in Hw. rewrite <- Hhf in Hh.
  cbn [fst snd] in Hw, Hh.
  pose proof (checkFill_extra canvas.1
    (Py.int (inject_Z (bigwidth p) * INCHES2MM / inject_Z DPI))) as Hwe.
  pose proof (checkFill_extra canvas.2
    (Py.int (inject_Z (bigheight p) * INCHES2MM / inject_Z DPI))) as Hhe.
  rewrite <- Hwf in Hwe. rewrite <- Hhf in Hhe. cbn [snd] in Hwe, Hhe.
  lia.
Qed.

Lemma canvasPlan_region_centred_witness :
  exists p,
    canvasPlan 89478485 (594, 841) 20 55 73 118 = Some p /\
    0 <= leftOffset p /\
    (actualw p - (leftOffset p + bigwidth p) = leftOffset p \/
     actualw p - (leftOffset p + bigwidth p) = leftOffset p + 12).
Proof.
  eexists. split; [reflexivity|].
  destruct (canvasPlan_region_centred 89478485 (594, 841) 20 55 73 118 _
              ltac:(lia) ltac:(lia) ltac:(lia) ltac:(lia) eq_refl)
    as (H1 & _ & H2 & _).
  split; [exact H1 | exact H2].
Defined.

(** X5: after the check against [MY_MAX_IMAGE_PIXELS] neither side of the
    tiled region is longer than [maxPixels] pixels, and the tile side has
    not grown. *)
Theorem canvasPlan_within_max_pixels maxPixels canvas margin XD YD tilesize p :
  0 <= maxPixels -> 0 <= XD -> 0 <= YD -> 0 <= tilesize ->
  canvasPlan maxPixels canvas margin XD YD tilesize = Some p ->
  bigwidth p = Mosaic.tilesize p * XD /\
  bigheight p = Mosaic.tilesize p * YD /\
  0 <= Mosaic.tilesize p <= tilesize /\
  bigwidth p <= maxPixels /\ bigheight p <= maxPixels.
Proof.
  intros Hmax HX HY Hts Hrun.
  destruct (canvasPlan_region _ _ _ _ _ _ _ Hmax HX HY Hts Hrun)
    as (Hts' & Hbw & Hbh & Hmw & Hmh & _).
  tauto.
Qed.

Lemma canvasPlan_within_max_pixels_witness :
  exists p,
    canvasPlan 5000 (594, 841) 20 55 73 118 = Some p /\
    Mosaic.tilesize p = 68 /\ bigheight p <= 5000.
Proof.
  eexists. split; [reflexivity|].
  destruct (canvasPlan_within_max_pixels 5000 (594, 841) 20 55 73 118 _
              ltac:(lia) ltac:(lia) ltac:(lia) ltac:(lia) eq_refl)
    as (_ & _ & _ & _ & H).
  split; [reflexivity | exact H].
Defined.

(** *** Tile size *)

Lemma pixels_of_mm' a :
  (inject_Z (DPI * a) / INCHES2MM == inject_Z a * (1500 # 127))%Q.
Proof. rewrite Z.mul_comm. apply pixels_of_mm. Qed.

(** X6: tiles of up to 71 mm are made of as many pixels as 300 dpi asks for,
    to the nearest pixel; from 72 mm on a tile stays at 840 pixels, the
    size of the thumbnails, and its resolution falls below 300 dpi. *)
Theorem tileSize_resolution tilemm :
  tileSize tilemm <= THUMB_SIZE /\
  (tilemm <= 71 -> Z.abs (254 * tileSize tilemm - 3000 * tilemm) <= 127) /\
  (72 <= tilemm -> tileSize tilemm = THUMB_SIZE).
Proof.
  unfold tileSize. cbv zeta.
  destruct (round_bounds (inject_Z (DPI * tilemm) / INCHES2MM)) as [Hlo Hhi].
  set (t := Py.round (inject_Z (DPI * tilemm) / INCHES2MM)) in *.
  rewrite pixels_of_mm' in Hlo, Hhi.
  assert (Hlo' : 3000 * tilemm - 127 <= 254 * t).
  { apply inject_Z_le. unfold Z.sub.
    rewrite inject_Z_plus, !inject_Z_mult, inject_Z_opp.
    change (inject_Z 3000) with 3000%Q. change (inject_Z 254) with 254%Q.
    change (inject_Z 127) with 127%Q. Lqa.lra. }
  assert (Hhi' : 254 * t <= 3000 * tilemm + 127).
  { apply inject_Z_le.
    rewrite inject_Z_plus, !inject_Z_mult.
    change (inject_Z 3000) with 3000%Q. change (inject_Z 254) with 254%Q.
    change (inject_Z 127) with 127%Q. Lqa.lra. }
  unfold THUMB_SIZE. destruct (Z.ltb_spec t 840); repeat split; intros; lia.
Qed.

Lemma tileSize_resolution_witness :
  Z.abs (254 * tileSize 10 - 3000 * 10) <= 127.
Proof.
  destruct (tileSize_resolution 10) as (_ & Hdpi & _). apply Hdpi. lia.
Defined.

(** *** crop *)

Lemma getpixel_inside im x y :
  0 <= x < (im_size im).1 -> 0 <= y < (im_size im).2 ->
  getpixel im x y = Some (im_data im x y).
Proof.
  intros Hx Hy. unfold getpixel. destruct (im_size im) as [w h].
  cbn [fst snd] in *.
  destruct (Z.ltb_spec x 0); [lia|]. destruct (Z.ltb_spec y 0); [lia|].
  destruct (Z.leb_spec 0 x); [|lia]. destruct (Z.ltb_spec x w); [|lia].
  destruct (Z.leb_spec 0 y); [|lia]. destruct (Z.ltb_spec y h); [|lia].
  reflexivity.
Qed.

Lemma getpixel_crop im l t r b x y :
  0 <= l -> 0 <= t -> r <= (im_size im).1 -> b <= (im_size im).2 ->
  0 <= x < r - l -> 0 <= y < b - t ->
  getpixel (Image_crop im (l, t, r, b)) x y = getpixel im (l + x) (t + y).
Proof.
  intros Hl Ht Hr Hb Hx Hy.
  rewrite (getpixel_inside im) by lia.
  rewrite getpixel_inside by (cbn; lia).
  cbn.
  destruct (Z.leb_spec 0 (l + x)); [|lia].
  destruct (Z.ltb_spec (l + x) (im_size im).1); [|lia].
  destruct (Z.leb_spec 0 (t + y)); [|lia].
  destruct (Z.ltb_spec (t + y) (im_size im).2); [|lia].
  reflexivity.
Qed.

(** X7: [crop] returns the centred square window of the image: its side is
    the shorter side of the image, its pixels are those of the window,
    and the parts cut off on the two sides differ by one pixel at most. *)
Theorem crop_square_centred im w h :
  im_size im = (w, h) -> 0 <= w -> 0 <= h ->
  let side := Z.min w h in
  let ox := (w - side) ÷ 2 in
  let oy := (h - side) ÷ 2 in
  exists c,
    crop (Some im) = Some c /\
    im_size c = (side, side) /\
    (forall x y, 0 <= x < side -> 0 <= y < side ->
       getpixel c x y = Some (im_data im (ox + x) (oy + y))) /\
    0 <= ox /\ 0 <= oy /\
    0 <= (w - side) - 2 * ox <= 1 /\ 0 <= (h - side) - 2 * oy <= 1.
Proof.
  intros Hsz Hw Hh side ox oy. unfold crop. rewrite Hsz.
  assert (Hquot : forall n, 0 <= n -> 0 <= n ÷ 2 /\ 0 <= n - 2 * (n ÷ 2) <= 1).
  { intros n Hn. rewrite Z.quot_div_nonneg by lia.
    pose proof (Z.div_mod n 2 ltac:(lia)).
    pose proof (Z.mod_pos_bound n 2 ltac:(lia)).
    pose proof (Z.div_pos n 2 Hn ltac:(lia)). lia. }
  destruct (Z.ltb_spec w h) as [Hlt|Hge].
  - cbv zeta. rewrite int_half.
    assert (Hside : side = w) by (unfold side; lia).
    assert (Hox : ox = 0) by (unfold ox; rewrite Hside, Z.sub_diag; reflexivity).
    assert (Hoy : oy = (h - w) ÷ 2) by (unfold oy; by rewrite Hside).
    destruct (Hquot (h - w) ltac:(lia)) as [Hq1 Hq2].
    eexists. split; [reflexivity|]. rewrite Hside, Hox, Hoy.
    split; [cbn; f_equal; lia|].
    split; [|lia].
    intros x y Hx Hy.
    rewrite getpixel_crop by (rewrite ?Hsz; cbn [fst snd]; lia).
    apply getpixel_inside; rewrite Hsz; cbn [fst snd]; lia.
  - destruct (Z.ltb_spec h w) as [Hlt|Hge'].
    + cbv zeta. rewrite int_half.
      assert (Hside : side = h) by (unfold side; lia).
      assert (Hoy : oy = 0) by (unfold oy; rewrite Hside, Z.sub_diag; reflexivity).
      assert (Hox : ox = (w - h) ÷ 2) by (unfold ox; by rewrite Hside).
      destruct (Hquot (w - h) ltac:(lia)) as [Hq1 Hq2].
      eexists. split; [reflexivity|]. rewrite Hside, Hox, Hoy.
      split; [cbn; f_equal; lia|].
      split; [|lia].
      intros x y Hx Hy.
      rewrite getpixel_crop by (rewrite ?Hsz; cbn [fst snd]; lia).
      apply getpixel_inside; rewrite Hsz; cbn [fst snd]; lia.
    + assert (w = h) by lia. subst h.
      assert (Hside : side = w) by (unfold side; lia).
      assert (Hox : ox = 0) by (unfold ox; rewrite Hside, Z.sub_diag; reflexivity).
      assert (Hoy : oy = 0) by (unfold oy; rewrite Hside, Z.sub_diag; reflexivity).
      exists im. split; [reflexivity|]. rewrite Hside, Hox, Hoy.
      split; [exact Hsz|]. split; [|lia].
      intros x y Hx Hy. apply getpixel_inside; rewrite Hsz; cbn [fst snd]; lia.
Qed.

Lemma crop_square_centred_witness :
  exists c,
    crop (Some {| im_size := (5, 2); im_data := fun x y => (x, y, 0) |})
      = Some c /\
    im_size c = (2, 2) /\ getpixel c 0 1 = Some (1, 1, 0).
Proof.
  destruct (crop_square_centred
              {| im_size := (5, 2); im_data := fun x y => (x, y, 0) |} 5 2)
    as (c & Hc & Hsz & Hpx & _); [reflexivity | lia | lia |].
  exists c. split; [exact Hc|]. split; [exact Hsz|].
  apply (Hpx 0 1); vm_compute; split; congruence.
Defined.

Lemma crop_of_square im :
  (im_size im).1 = (im_size im).2 -> crop (Some im) = Some im.
Proof.
  intros Hsq. unfold crop. destruct (im_size im) as [w h].
  cbn [fst snd] in Hsq. subst h. by rewrite Z.ltb_irrefl.
Qed.

Lemma crop_is_square im :
  exists c, crop (Some im) = Some c /\ (im_size c).1 = (im_size c).2.
Proof.
  unfold crop. destruct (im_size im) as [w h] eqn:Hsz.
  destruct (Z.ltb_spec w h) as [Hlt|Hge];
    [|destruct (Z.ltb_spec h w) as [Hlt|Hge']].
  - eexists. split; [reflexivity|]. cbn. lia.
  - eexists. split; [reflexivity|]. cbn. lia.
  - exists im. split; [reflexivity|]. rewrite Hsz. cbn. lia.
Qed.

(** X8: cropping an image that is already square, and so cropping twice,
    changes nothing; no image gives no image. *)
Theorem crop_idempotent image : crop (crop image) = crop image.
Proof.
  destruct image as [im|]; [|reflexivity].
  destruct (crop_is_square im) as (c & -> & Hsq).
  by apply crop_of_square.
Qed.

(** *** The matcher's failure and exact matches *)

(** X9: [findBestTile] fails its [assert found] exactly when no catalog entry
    is a candidate. *)
Theorem findBestTile_raises_without_candidate
        inimage allowDups placedTiles table dim row col sig :
  1 <= dim -> tableOf dim table ->
  samplePixels inimage dim row col = Some sig ->
  findBestTile inimage allowDups placedTiles table dim row col = None <->
  ~ exists i, candidate allowDups placedTiles table i.
Proof.
  intros Hdim Htab Hsig. split.
  - intros Hnone Hex.
    destruct (findBestTile_spec _ _ _ _ _ _ _ _ Hdim Htab Hsig Hex)
      as (b & d & Hrun & _). congruence.
  - intros Hno.
    destruct (findBestTile inimage allowDups placedTiles table dim row col)
      as [[b d]|] eqn:Hrun; [|reflexivity].
    destruct Hno. exists b. by eapply findBestTile_candidate.
Qed.

Lemma findBestTile_raises_without_candidate_witness :
  findBestTile twoPixels false {[0; 1]} twoTiles 1 0 0 = None.
Proof.
  apply (findBestTile_raises_without_candidate twoPixels false {[0; 1]}
           twoTiles 1 0 0 ([255], [255], [255]));
    [lia | apply tableOf_twoTiles | reflexivity |].
  intros (i & [Hi1 Hi2] & [Hd|Hn]); [discriminate|].
  apply Hn. simpl in Hi2.
  assert (i = 0 \/ i = 1) as [->| ->] by lia; set_solver.
Defined.

Lemma distanceTo_signature dim sig table i name colours :
  1 <= dim -> hasCells dim sig -> hasCells dim colours ->
  Py.index table i = Some (name, colours) ->
  distanceTo dim sig table i = Some (signatureDistance dim sig colours).
Proof.
  intros Hdim Hsig Hcol Hi. unfold distanceTo. rewrite Hi. simpl.
  by apply tileDistance_eq.
Qed.

Lemma signatureDistance_self dim sig : signatureDistance dim sig sig = 0%R.
Proof.
  unfold signatureDistance.
  assert (Hz : sumR (map (fun p => cellDistance (cell sig p) (cell sig p))
                     (Py.range (dim * dim))) = 0%R).
  { induction (Py.range (dim * dim)) as [|p l IH]; [reflexivity|].
    simpl. rewrite IH, cellDistance_refl. lra. }
  rewrite Hz. unfold Rdiv. apply Rmult_0_l.
Qed.

Lemma signatureDistance_nonneg d a b :
  1 <= d -> (0 <= signatureDistance d a b)%R.
Proof.
  intros Hd. unfold signatureDistance. apply Rmult_le_pos.
  - apply sumR_nonneg. intros v Hv.
    apply list_elem_of_fmap in Hv as (p & -> & _). apply cellDistance_nonneg.
  - left. apply Rinv_0_lt_compat. apply IZR_lt. nia.
Qed.

Lemma signatureDistance_zero d a b :
  1 <= d -> hasCells d a -> hasCells d b ->
  signatureDistance d a b = 0%R -> a = b.
Proof.
  intros Hd Ha Hb Hz. unfold signatureDistance in Hz.
  assert (Hpos : (0 < IZR (d * d))%R) by (apply IZR_lt; nia).
  assert (Hnn : forall v,
    v ∈ map (fun p => cellDistance (cell a p) (cell b p)) (Py.range (d * d)) ->
    (0 <= v)%R).
  { intros v Hv. apply list_elem_of_fmap in Hv as (p & -> & _).
    apply cellDistance_nonneg. }
  assert (Hs : sumR (map (fun p => cellDistance (cell a p) (cell b p))
                         (Py.range (d * d))) = 0%R).
  { apply (Rmult_eq_reg_r (/ IZR (d * d))); [|apply Rinv_neq_0_compat; lra].
    unfold Rdiv in Hz. lra. }
  assert (Hc : forall p, 0 <= p < d * d -> cell a p = cell b p).
  { intros p Hp. apply cellDistance_zero.
    apply (sumR_zero _ Hnn Hs). apply list_elem_of_fmap.
    exists p. split; [done|]. by apply elem_of_range. }
  destruct a as [[r g] bl], b as [[tr tg] tb].
  destruct Ha as (Ha1 & Ha2 & Ha3), Hb as (Hb1 & Hb2 & Hb3). simpl in *.
  assert (Hp : forall p, 0 <= p < Z.of_nat (Z.to_nat (d * d)) ->
                         cell (r, g, bl) p = cell (tr, tg, tb) p)
    by (intros; apply Hc; lia).
  unfold cell in Hp. simpl in Hp.
  f_equal; [f_equal|];
    apply (index_default_eq _ _ (Z.to_nat (d * d))); try done;
    intros p Hpp; specialize (Hp p Hpp); congruence.
Qed.

Lemma index_elem_of {A} (l : list A) i a : Py.index l i = Some a -> a ∈ l.
Proof.
  unfold Py.index. destruct (i <? 0); [discriminate|].
  apply list_elem_of_lookup_2.
Qed.

Lemma index_range {A} (l : list A) i a :
  Py.index l i = Some a -> 0 <= i < Z.of_nat (length l).
Proof.
  unfold Py.index. destruct (Z.ltb_spec i 0); [discriminate|].
  intros Hl. apply lookup_lt_Some in Hl. lia.
Qed.

(** X10: when the catalog holds a candidate whose colour summary is the sampled
    signature itself, [findBestTile] returns distance [0.0] and a tile with
    that very summary: the first such candidate. *)
Theorem findBestTile_exact_match
        inimage allowDups placedTiles table dim row col sig i name :
  1 <= dim -> tableOf dim table ->
  samplePixels inimage dim row col = Some sig ->
  candidate allowDups placedTiles table i ->
  Py.index table i = Some (name, sig) ->
  exists best name',
    findBestTile inimage allowDups placedTiles table dim row col
      = Some (best, 0%R) /\
    Py.index table best = Some (name', sig) /\ best <= i /\
    forall j name'', candidate allowDups placedTiles table j ->
      Py.index table j = Some (name'', sig) -> best <= j.
Proof.
  intros Hdim Htab Hsig Hcand Hi.
  assert (Hcells : hasCells dim sig).
  { eapply samplePixels_cells; [|exact Hsig]. lia. }
  destruct (findBestTile_spec _ _ _ _ _ _ _ _ Hdim Htab Hsig
              (ex_intro _ i Hcand)) as (b & d & Hrun & Hb & Hd & Hmin).
  assert (Hself : forall j nm, Py.index table j = Some (nm, sig) ->
            distanceTo dim sig table j = Some 0%R).
  { intros j nm Hj.
    rewrite (distanceTo_signature dim sig table j nm sig) by done.
    by rewrite signatureDistance_self. }
  destruct (Hmin i 0%R Hcand (Hself _ _ Hi)) as [Hle Hlt].
  pose proof Hd as Hd'. unfold distanceTo in Hd'.
  destruct (Py.index table b) as [[nb cb]|] eqn:Hbi; [|discriminate].
  simpl in Hd'.
  assert (Hcb : hasCells dim cb).
  { apply (Htab nb). by eapply index_elem_of. }
  rewrite tileDistance_eq in Hd' by done. injection Hd' as Hd'.
  pose proof (signatureDistance_nonneg dim sig cb Hdim) as Hnn.
  assert (Hz : signatureDistance dim sig cb = 0%R) by lra.
  assert (Hd0 : d = 0%R) by lra. clear Hd' Hnn. subst d.
  assert (Heq : sig = cb) by (by apply (signatureDistance_zero dim)).
  subst cb. exists b, nb. split; [exact Hrun|]. split; [exact Hbi|].
  split.
  - destruct (Z.le_gt_cases b i) as [|Hgt]; [done|].
    specialize (Hlt ltac:(lia)). lra.
  - intros j nm Hj Hjs.
    destruct (Hmin j 0%R Hj (Hself _ _ Hjs)) as [_ Hlt'].
    destruct (Z.le_gt_cases b j) as [|Hgt]; [done|].
    specialize (Hlt' ltac:(lia)). lra.
Qed.

Lemma findBestTile_exact_match_witness :
  exists best name',
    findBestTile twoPixels false ∅ twoTiles 1 0 1 = Some (best, 0%R) /\
    Py.index twoTiles best = Some (name', ([0], [0], [0])).
Proof.
  destruct (findBestTile_exact_match twoPixels false ∅ twoTiles 1 0 1
              ([0], [0], [0]) 1 "black"%string)
    as (best & nm & Hrun & Hidx & _);
    [lia | apply tableOf_twoTiles | reflexivity
    | split; [simpl; lia | right; set_solver] | reflexivity |].
  exists best, nm. split; [exact Hrun | exact Hidx].
Defined.

(** *** The placement as a whole *)


Lemma placeStep_at_origin oR oC nT im aD table dim s :
  placeStep oR oC nT im aD table dim (oR, oC) s
  = Some (<[(oR, oC) := (-1, 0%R)]> s.1, {[-1]} ∪ s.2).
Proof.
  unfold placeStep, placeBestTile. cbn [fst snd].
  by rewrite !Z.eqb_refl.
Qed.

Lemma placeStep_best oR oC nT im aD table dim c s :
  c <> (oR, oC) ->
  placeStep oR oC nT im aD table dim c s =
  b ← findBestTile im aD s.2 table dim c.1 c.2;
  _ ← Py.index table b.1;
  Some (<[c := b]> s.1, {[b.1]} ∪ s.2).
Proof.
  intros Hc. destruct c as [row col]. unfold placeStep, placeBestTile.
  cbn [fst snd].
  assert (Hcond : (row =? oR) && (col =? oC) = false).
  { apply andb_false_iff.
    destruct (Z.eqb_spec row oR), (Z.eqb_spec col oC); subst; auto.
    by destruct Hc. }
  rewrite Hcond.
  destruct (findBestTile im aD s.2 table dim row col) as [[i d]|]; [|done].
  cbn [mbind option_bind fst snd].
  destruct (Py.index table i); reflexivity.
Qed.

(** X11: whenever scheduling completes, with duplicates allowed or not, the
    placement has an entry for exactly the cells of the grid, every entry
    but the origin's holds an index of the colour table, and the used set
    is exactly the set of the indices recorded. *)
Theorem placement_entries inimage originalRow originalCol XD YD table dim
        allowDups tileLocations placedTiles :
  1 <= XD -> 1 <= YD ->
  placeSpiralVars inimage originalRow originalCol XD YD table dim allowDups
    = Some (tileLocations, placedTiles) ->
  (forall row col, is_Some (tileLocations !! (row, col)) <->
                   0 <= row < YD /\ 0 <= col < XD) /\
  (forall c i d, tileLocations !! c = Some (i, d) ->
     if decide (c = (originalRow, originalCol))
     then i = MOSAIC_ORIGINAL_TILE_INDEX /\ d = MOSAIC_ORIGINAL_TILE_DISTANCE
     else 0 <= i < Z.of_nat (length table)) /\
  placedTiles = map_img (fst <$> tileLocations).
Proof.
  intros HX HY Hvars.
  destruct (acceptedCells_grid XD YD HX HY) as (cells & Hacc & Hnd & Hin).
  rewrite (placeSpiralVars_for _ _ _ _ _ _ _ _ cells Hacc) in Hvars.
  destruct (schedule_inv originalRow originalCol (XD * YD) inimage allowDups
              table dim cells (∅, ∅) (tileLocations, placedTiles) Hnd)
    as (Hframe & Hent & Hpt & _); [done..|]. simpl in *.
  assert (Hdom : forall c, is_Some (tileLocations !! c) <-> c ∈ cells).
  { intros c. split.
    - intros Hs. destruct (decide (c ∈ cells)) as [|Hn]; [done|].
      rewrite Hframe, lookup_empty in Hs by done. by destruct Hs.
    - intros Hc. destruct (Hent c Hc) as (i & d & -> & _). by eexists. }
  split; [|split].
  - intros row col. rewrite Hdom. apply Hin.
  - intros c i d Hl.
    assert (Hc : c ∈ cells) by (apply Hdom; by eexists).
    destruct (Hent c Hc) as (i' & d' & Hl' & Ho & Hno).
    rewrite Hl in Hl'. injection Hl' as <- <-.
    destruct (decide (c = (originalRow, originalCol))) as [->|Hne].
    + by apply Ho.
    + by apply Hno.
  - apply set_eq. intros j. rewrite Hpt, elem_of_map_img. split.
    + intros [?%elem_of_empty|(c & e & _ & Hc)]; [done|].
      exists c. by rewrite lookup_fmap, Hc.
    + intros [c Hc]. right. rewrite lookup_fmap in Hc.
      destruct (tileLocations !! c) as [[j' e]|] eqn:Hlc;
        simpl in Hc; [|done]. injection Hc as ->.
      exists c, e. split; [|done]. apply Hdom. by eexists.
Qed.

Lemma placement_entries_witness :
  exists tileLocations placedTiles,
    placeSpiralVars twoPixels 0 0 2 1
      [("white"%string, ([255], [255], [255]))] 1 false
      = Some (tileLocations, placedTiles) /\
    (forall row col, is_Some (tileLocations !! (row, col)) <->
                     0 <= row < 1 /\ 0 <= col < 2) /\
    placedTiles = map_img (fst <$> tileLocations).
Proof.
  eexists _, _.
  assert (Hvars : placeSpiralVars twoPixels 0 0 2 1
      [("white"%string, ([255], [255], [255]))] 1 false
      = Some (?[tl], ?[pt])) by (vm_compute; reflexivity).
  split; [exact Hvars|].
  destruct (placement_entries twoPixels 0 0 2 1 _ 1 false _ _
              ltac:(lia) ltac:(lia) Hvars) as (H1 & _ & H2).
  split; [exact H1 | exact H2].
Defined.

Lemma findBestTile_dups im pt table dim row col :
  findBestTile im true pt table dim row col
  = findBestTile im true ∅ table dim row col.
Proof. reflexivity. Qed.

Section Duplicates.
Variables (originalRow originalCol nTiles : Z) (inimage : Image).
Variables (table : ColourTable) (dim : Z).
Hypothesis Hdim : 1 <= dim.
Hypothesis Htab : tableOf dim table.
Hypothesis Hne : table <> [].

Lemma schedule_duplicates cells : forall s0,
  NoDup cells ->
  (forall c, c ∈ cells -> is_Some (samplePixels inimage dim c.1 c.2)) ->
  exists s,
    Py.for_ cells (placeStep originalRow originalCol nTiles inimage true
                             table dim) s0 = Some s /\
    (forall c, c ∉ cells -> s.1 !! c = s0.1 !! c) /\
    (forall c, c ∈ cells -> c <> (originalRow, originalCol) ->
       exists b, findBestTile inimage true ∅ table dim c.1 c.2 = Some b /\
                 s.1 !! c = Some b).
Proof.
  induction cells as [|c cells IH]; intros s0 Hnd Hsample.
  - exists s0. split; [reflexivity|]. split; [done|].
    by intros c Hc%elem_of_nil.
  - apply NoDup_cons in Hnd as [Hc Hnd]. cbn [Py.for_].
    assert (Hstep : exists s1,
      placeStep originalRow originalCol nTiles inimage true table dim c s0
        = Some s1 /\
      (forall c', c' <> c -> s1.1 !! c' = s0.1 !! c') /\
      (c <> (originalRow, originalCol) ->
       exists b, findBestTile inimage true ∅ table dim c.1 c.2 = Some b /\
                 s1.1 !! c = Some b)).
    { destruct (decide (c = (originalRow, originalCol))) as [->|Hno].
      - rewrite placeStep_at_origin. eexists. split; [reflexivity|].
        split; [|done]. intros c' Hc'. cbn [fst]. by rewrite lookup_insert_ne.
      - rewrite placeStep_best by done.
        destruct (Hsample c ltac:(left)) as [sig Hsig].
        assert (Hcand : exists i, candidate true s0.2 table i).
        { exists 0. split; [|by left]. destruct table; [done|]. simpl. lia. }
        destruct (findBestTile_spec _ _ _ _ _ _ _ _ Hdim Htab Hsig Hcand)
          as (b & d & Hrun & [Hb _] & _).
        rewrite Hrun. cbn [mbind option_bind fst].
        destruct (index_Some table b Hb) as [e ->]. cbn [mbind option_bind].
        eexists. split; [reflexivity|]. cbn [fst]. split.
        + intros c' Hc'. by rewrite lookup_insert_ne.
        + intros _. exists (b, d). split; [exact Hrun|].
          by rewrite lookup_insert_eq. }
    destruct Hstep as (s1 & -> & Hframe1 & Hbest1).
    cbn [mbind option_bind].
    destruct (IH s1 Hnd) as (s & Hrun & Hframe & Hbest).
    { intros c' Hc'. apply Hsample. by right. }
    exists s. split; [exact Hrun|]. split.
    + intros c' Hc'. apply not_elem_of_cons in Hc' as [Hc1 Hc2].
      rewrite Hframe by done. by apply Hframe1.
    + intros c' Hc' Hno. apply elem_of_cons in Hc' as [->|Hc'].
      * destruct (Hbest1 Hno) as (b & Hb & Hl). exists b. split; [done|].
        by rewrite Hframe.
      * by apply Hbest.
Qed.

End Duplicates.

(** X12: with duplicates allowed and a colour table that is not empty,
    scheduling completes, and every cell but the origin holds the result
    of [findBestTile] for that cell taken over the whole table: the order
    of the walk does not matter. *)
Theorem placement_with_duplicates inimage originalRow originalCol XD YD table dim :
  1 <= XD -> 1 <= YD -> 1 <= dim ->
  tableOf dim table -> table <> [] ->
  im_size inimage = (dim * XD, dim * YD) ->
  exists tileLocations nTilesUsed,
    placeSpiral inimage originalRow originalCol XD YD table dim true
      = Some (tileLocations, nTilesUsed) /\
    forall row col,
      0 <= row < YD -> 0 <= col < XD ->
      (row, col) <> (originalRow, originalCol) ->
      exists best,
        findBestTile inimage true ∅ table dim row col = Some best /\
        tileLocations !! (row, col) = Some best.
Proof.
  intros HX HY Hdim Htab Hne Hsz.
  destruct (acceptedCells_grid XD YD HX HY) as (cells & Hacc & Hnd & Hin).
  destruct (schedule_duplicates originalRow originalCol (XD * YD) inimage
              table dim Hdim Htab Hne cells (∅, ∅) Hnd)
    as ([tl pt] & Hrun & _ & Hbest).
  { intros [row col] Hc. apply Hin in Hc. cbn [fst snd].
    apply (sample_in_grid _ _ XD YD); tauto. }
  exists tl, (Z.of_nat (size pt)). split.
  - unfold placeSpiral.
    by rewrite (placeSpiralVars_for _ _ _ _ _ _ _ _ cells Hacc), Hrun.
  - intros row col Hr Hc Hno.
    apply (Hbest (row, col)); [|done]. by apply Hin.
Qed.

Lemma placement_with_duplicates_witness :
  exists tileLocations nTilesUsed best,
    placeSpiral twoPixels 0 0 2 1 twoTiles 1 true
      = Some (tileLocations, nTilesUsed) /\
    findBestTile twoPixels true ∅ twoTiles 1 0 1 = Some best /\
    tileLocations !! (0, 1) = Some best.
Proof.
  destruct (placement_with_duplicates twoPixels 0 0 2 1 twoTiles 1)
    as (tl & n & Hrun & Hbest);
    [lia | lia | lia | apply tableOf_twoTiles | discriminate | reflexivity |].
  destruct (Hbest 0 1) as (b & Hb & Hl); [lia | lia | congruence |].
  exists tl, n, b. split; [exact Hrun|]. split; [exact Hb | exact Hl].
Defined.

Lemma tileCells_origin oR oC cells :
  NoDup cells -> (oR, oC) ∈ cells ->
  S (tileCells oR oC cells) = length cells.
Proof.
  unfold tileCells. induction cells as [|c cells IH]; intros Hnd Hin.
  - by apply elem_of_nil in Hin.
  - apply NoDup_cons in Hnd as [Hc Hnd]. rewrite filter_cons.
    destruct (decide (c <> (oR, oC))) as [Hne|Heq].
    + cbn [length]. f_equal. apply IH; [done|].
      apply elem_of_cons in Hin as [Heq|Hin]; [congruence | done].
    + destruct (decide (c = (oR, oC))) as [->|Hn]; [|by destruct Heq].
      cbn [length]. f_equal. by apply (tileCells_all oR oC).
Qed.

Lemma placeSpiral_count inimage originalRow originalCol XD YD table dim
      tileLocations n :
  1 <= XD -> 1 <= YD ->
  placeSpiral inimage originalRow originalCol XD YD table dim false
    = Some (tileLocations, n) ->
  n = XD * YD.
Proof.
  intros HX HY Hrun. unfold placeSpiral in Hrun.
  destruct (placeSpiralVars inimage originalRow originalCol XD YD table dim false)
    as [[tl pt]|] eqn:Hvars; [|discriminate].
  cbn [mbind option_bind] in Hrun. injection Hrun as -> <-.
  destruct (acceptedCells_grid XD YD HX HY) as (cells & Hacc & Hnd & Hin).
  pose proof (length_accepted_cells XD YD cells HX HY Hnd Hin) as Hlen.
  rewrite (placeSpiralVars_for _ _ _ _ _ _ _ _ cells Hacc) in Hvars.
  destruct (schedule_inv originalRow originalCol (XD * YD) inimage false
              table dim cells (∅, ∅) (tileLocations, pt) Hnd)
    as (Hframe & Hent & Hpt & Hinj); [done..|].
  destruct (Hinj eq_refl) as [_ Hsize]. cbn [fst snd] in *.
  rewrite intersection_empty_r_L, size_empty in Hsize.
  set (catalog := catalogIndices (length table)) in *.
  assert (Hsub : forall i, i ∈ pt -> i ∈ catalog \/ i = -1).
  { intros i Hi. apply Hpt in Hi as [?%elem_of_empty|(c & d & Hc & Hl)]; [done|].
    destruct (Hent c Hc) as (i' & d' & Hl' & Ho & Hno).
    rewrite Hl in Hl'. injection Hl' as <- <-.
    destruct (decide (c = (originalRow, originalCol))) as [->|Hne].
    - right. by apply Ho.
    - left. apply elem_of_catalogIndices. by apply Hno. }
  assert (Hm1 : -1 ∉ catalog).
  { intros Hm. apply elem_of_catalogIndices in Hm. lia. }
  destruct (decide ((originalRow, originalCol) ∈ cells)) as [Ho|Ho].
  - assert (Hmem : -1 ∈ pt).
    { apply Hpt. right. destruct (Hent _ Ho) as (i & d & Hl & Hi & _).
      destruct (Hi eq_refl) as [-> ->]. by exists (originalRow, originalCol), 0%R. }
    assert (Hsplit : pt = {[-1]} ∪ catalog ∩ pt).
    { apply set_eq. intros j. split.
      - intros Hj. destruct (Hsub j Hj) as [?| ->]; set_solver.
      - intros [->%elem_of_singleton|?]%elem_of_union; set_solver. }
    rewrite Hsplit, size_union, size_singleton, Hsize by set_solver.
    pose proof (tileCells_origin originalRow originalCol cells Hnd Ho). lia.
  - assert (Hsplit : pt = catalog ∩ pt).
    { apply set_eq. intros j. split; [|set_solver].
      intros Hj. destruct (Hsub j Hj) as [?| ->]; [set_solver|].
      apply Hpt in Hj as [?%elem_of_empty|(c & d & Hc & Hl)]; [done|].
      destruct (Hent c Hc) as (i' & d' & Hl' & _ & Hno).
      rewrite Hl in Hl'. injection Hl' as <- <-.
      assert (c <> (originalRow, originalCol)) by (intros ->; done).
      destruct (Hno ltac:(done)) as [? _]. lia. }
    rewrite Hsplit, Hsize.
    rewrite (tileCells_all originalRow originalCol cells Ho). lia.
Qed.

(** X13: with duplicates disallowed, the number of used tiles that
    [placeSpiral] returns is the number of cells of the grid, wherever the
    origin cell lies: each cell consumes one index, the origin the
    sentinel. *)
Theorem placement_without_duplicates_count
        inimage originalRow originalCol XD YD table dim tileLocations n :
  1 <= XD -> 1 <= YD ->
  placeSpiral inimage originalRow originalCol XD YD table dim false
    = Some (tileLocations, n) ->
  n = XD * YD.
Proof. apply placeSpiral_count. Qed.

Lemma placement_without_duplicates_count_witness :
  exists tileLocations n,
    placeSpiral twoPixels 0 0 2 1
      [("white"%string, ([255], [255], [255]))] 1 false
      = Some (tileLocations, n) /\
    n = 2 * 1.
Proof.
  eexists _, _.
  assert (Hrun : placeSpiral twoPixels 0 0 2 1
      [("white"%string, ([255], [255], [255]))] 1 false
      = Some (?[tl], ?[n])) by (vm_compute; reflexivity).
  split; [exact Hrun|].
  apply (placement_without_duplicates_count twoPixels 0 0 2 1 _ 1 _ _
           ltac:(lia) ltac:(lia) Hrun).
Defined.

(** X14: with the origin cell in the grid, one tile fewer than there are cells
    is enough for scheduling without duplicates to complete; yet [mosaic]
    stops such a run as not having enough images. *)
Theorem scheduler_needs_one_tile_fewer
        inimage originalRow originalCol XD YD table dim :
  1 <= XD -> 1 <= YD -> 1 <= dim ->
  tableOf dim table -> im_size inimage = (dim * XD, dim * YD) ->
  0 <= originalRow < YD -> 0 <= originalCol < XD ->
  Z.of_nat (length table) = XD * YD - 1 ->
  (exists tileLocations,
     placeSpiral inimage originalRow originalCol XD YD table dim false
     = Some (tileLocations, XD * YD)) /\
  (forall resize maxPixels newImage rotated tilemm canvas margin,
     tileGrid canvas margin tilemm (im_size newImage) = Some (XD, YD) ->
     mosaic resize maxPixels newImage rotated table tilemm canvas dim false
            margin = NotEnoughImages).
Proof.
  intros HX HY Hdim Htab Hsz HoR HoC Hlen. split.
  - destruct (acceptedCells_grid XD YD HX HY) as (cells & Hacc & Hnd & Hin).
    pose proof (length_accepted_cells XD YD cells HX HY Hnd Hin) as Hcells.
    assert (Ho : (originalRow, originalCol) ∈ cells) by (by apply Hin).
    pose proof (tileCells_origin originalRow originalCol cells Hnd Ho) as Htc.
    destruct (schedule_total originalRow originalCol (XD * YD) inimage false
                table dim cells (∅, ∅) eq_refl Hdim Htab) as [[tl pt] Hrun].
    { intros [row col] Hc. apply Hin in Hc. cbn [fst snd].
      apply (sample_in_grid _ _ XD YD); tauto. }
    { cbn [snd]. rewrite intersection_empty_r_L, size_empty. lia. }
    assert (Hsp : placeSpiral inimage originalRow originalCol XD YD table dim
                    false = Some (tl, Z.of_nat (size pt))).
    { unfold placeSpiral.
      by rewrite (placeSpiralVars_for _ _ _ _ _ _ _ _ cells Hacc), Hrun. }
    exists tl. rewrite Hsp. do 2 f_equal.
    by apply (placeSpiral_count inimage originalRow originalCol XD YD table
                dim tl).
  - intros resize maxPixels newImage rotated tilemm canvas margin Hgrid.
    unfold mosaic. rewrite Hgrid. cbv beta iota zeta.
    destruct (Z.ltb_spec (dim * XD) 1); [nia|].
    destruct (Z.ltb_spec (dim * YD) 1); [nia|]. cbn [orb].
    destruct (Z.ltb_spec (Z.of_nat (length table)) (XD * YD)); [|lia].
    reflexivity.
Qed.

Lemma scheduler_needs_one_tile_fewer_witness :
  exists tileLocations,
    placeSpiral twoPixels 0 0 2 1
      [("white"%string, ([255], [255], [255]))] 1 false
    = Some (tileLocations, 2 * 1).
Proof.
  destruct (scheduler_needs_one_tile_fewer twoPixels 0 0 2 1
              [("white"%string, ([255], [255], [255]))] 1) as [H _];
    [lia | lia | lia | | reflexivity | lia | lia | reflexivity | exact H].
  intros name colours Hin. apply elem_of_cons in Hin as [Hin|Hin%elem_of_nil]; [|done].
  injection Hin as -> ->. repeat split; reflexivity.
Defined.

(** *** Pasting the tiles *)


Lemma placement_domain inimage originalRow originalCol XD YD table dim
      allowDups tileLocations n :
  1 <= XD -> 1 <= YD ->
  placeSpiral inimage originalRow originalCol XD YD table dim allowDups
    = Some (tileLocations, n) ->
  forall row col, is_Some (tileLocations !! (row, col)) <->
                  0 <= row < YD /\ 0 <= col < XD.
Proof.
  intros HX HY Hrun. unfold placeSpiral in Hrun.
  destruct (placeSpiralVars inimage originalRow originalCol XD YD table dim
              allowDups) as [[tl pt]|] eqn:Hvars; [|discriminate].
  cbn [mbind option_bind] in Hrun. injection Hrun as -> <-.
  destruct (acceptedCells_grid XD YD HX HY) as (cells & Hacc & Hnd & Hin).
  rewrite (placeSpiralVars_for _ _ _ _ _ _ _ _ cells Hacc) in Hvars.
  destruct (schedule_inv originalRow originalCol (XD * YD) inimage allowDups
              table dim cells (∅, ∅) (tileLocations, pt) Hnd)
    as (Hframe & Hent & _); [done..|]. cbn [fst snd] in *.
  intros row col. rewrite <- Hin. split.
  - intros Hs. destruct (decide ((row, col) ∈ cells)) as [|Hn]; [done|].
    rewrite Hframe, lookup_empty in Hs by done. by destruct Hs.
  - intros Hc. destruct (Hent _ Hc) as (i & d & -> & _). by eexists.
Qed.

Lemma canvasPlan_grid maxPixels canvas margin XD YD tilesize p :
  canvasPlan maxPixels canvas margin XD YD tilesize = Some p ->
  Mosaic.XD p = XD /\ Mosaic.YD p = YD.
Proof.
  unfold canvasPlan. intros Hrun.
  destruct (_ : option (Z * Z * Z)) as [[[ts bw] bh]|] eqn:Hadj in Hrun;
    [|discriminate].
  cbn [mbind option_bind] in Hrun.
  destruct (negb _) in Hrun; [discriminate|].
  destruct (negb _) in Hrun; [discriminate|].
  destruct (checkFill canvas.1 _ DPI), (checkFill canvas.2 _ DPI).
  by injection Hrun as <-.
Qed.

(** X15: the boxes into which the tiles are pasted tile the box that is cut out
    as [justMosaic]: every box lies in it, and every pixel of it lies in
    the box of exactly one placement entry. *)
Theorem tiles_cover_the_mosaic
        resize maxPixels newImage rotated table tilemm canvas dim allowDups
        margin p tileLocations nTilesUsed :
  mosaic resize maxPixels newImage rotated table tilemm canvas dim allowDups
         margin = Placed p tileLocations nTilesUsed ->
  1 <= XD p -> 1 <= YD p -> 0 < tilesize p ->
  (forall key x y, is_Some (tileLocations !! key) ->
     inBox (tileBox p key) x y -> inBox (mosaicBox p) x y) /\
  (forall x y, inBox (mosaicBox p) x y ->
     exists key, is_Some (tileLocations !! key) /\
                 inBox (tileBox p key) x y /\
                 forall key', is_Some (tileLocations !! key') ->
                              inBox (tileBox p key') x y -> key' = key).
Proof.
  intros Hrun HX HY Hts. unfold mosaic in Hrun.
  destruct (tileGrid canvas margin tilemm (im_size newImage))
    as [[XD0 YD0]|]; [|discriminate].
  cbv beta iota zeta in Hrun.
  destruct ((dim * XD0 <? 1) || (dim * YD0 <? 1)); [discriminate|].
  destruct ((Z.of_nat (length table) <? XD0 * YD0) && negb allowDups);
    [discriminate|].
  destruct (canvasPlan maxPixels canvas margin XD0 YD0 (tileSize tilemm))
    as [p0|] eqn:Hplan; [|discriminate].
  destruct (placeSpiral _ _ _ XD0 YD0 table dim allowDups)
    as [[tl n]|] eqn:Hsp; [|discriminate].
  injection Hrun as -> -> ->.
  destruct (canvasPlan_grid _ _ _ _ _ _ _ Hplan) as [HXD HYD].
  rewrite <- HXD, <- HYD in Hsp.
  pose proof (placement_domain _ _ _ _ _ _ _ _ _ _ HX HY Hsp) as Hdom.
  unfold inBox, tileBox, mosaicBox. split.
  - intros [row col] x y Hk. apply Hdom in Hk. cbn [fst snd]. nia.
  - intros x y. cbn [fst snd]. intros [Hx Hy].
    set (col := (x - leftOffset p) / tilesize p).
    set (row := (y - topOffset p) / tilesize p).
    pose proof (Z.div_mod (x - leftOffset p) (tilesize p) ltac:(lia)) as Hdx.
    pose proof (Z.mod_pos_bound (x - leftOffset p) (tilesize p) Hts) as Hmx.
    pose proof (Z.div_mod (y - topOffset p) (tilesize p) ltac:(lia)) as Hdy.
    pose proof (Z.mod_pos_bound (y - topOffset p) (tilesize p) Hts) as Hmy.
    fold col in Hdx. fold row in Hdy.
    assert (Hcol : 0 <= col < XD p) by nia.
    assert (Hrow : 0 <= row < YD p) by nia.
    exists (row, col). split; [by apply Hdom|]. split; [cbn [fst snd]; nia|].
    intros [row' col'] Hk' Hbox. cbn [fst snd] in Hbox.
    f_equal; nia.
Qed.

Lemma tiles_cover_the_mosaic_witness :
  exists p tileLocations nTilesUsed,
    mosaic (fun im _ => im) 89478485
           {| im_size := (100, 100); im_data := fun _ _ => (0, 0, 0) |}
           false [("white"%string, ([255], [255], [255]))] 10 (40, 50) 1
           true 0 = Placed p tileLocations nTilesUsed /\
    forall x y, inBox (mosaicBox p) x y ->
      exists key, is_Some (tileLocations !! key) /\ inBox (tileBox p key) x y.
Proof.
  eexists _, _, _.
  assert (Hrun : mosaic (fun im _ => im) 89478485
           {| im_size := (100, 100); im_data := fun _ _ => (0, 0, 0) |}
           false [("white"%string, ([255], [255], [255]))] 10 (40, 50) 1
           true 0 = Placed ?[p] ?[tl] ?[n]) by (vm_compute; reflexivity).
  split; [exact Hrun|].
  destruct (tiles_cover_the_mosaic _ _ _ _ _ _ _ _ _ _ _ _ _ Hrun)
    as [_ Hcover];
    [vm_compute; congruence | vm_compute; congruence | vm_compute; reflexivity |].
  intros x y Hxy. destruct (Hcover x y Hxy) as (key & Hk & Hb & _).
  exists key. split; [exact Hk | exact Hb].
Defined.

(** *** The command line and main *)

(** X16: a custom page size with equal width and height passes the check of
    the command line ([w > h] is refused), and [mosaic] then fails its
    assertion [canvas[0] < canvas[1]]. *)
Theorem square_custom_page_raises w :
  customCanvas w w = Some (w, w) /\
  forall resize maxPixels newImage rotated table tilemm dim allowDups margin,
    mosaic resize maxPixels newImage rotated table tilemm (w, w) dim
           allowDups margin = Raised Layout.
Proof.
  split.
  - unfold customCanvas. by rewrite Z.ltb_irrefl.
  - intros. unfold mosaic, tileGrid. cbn [fst snd].
    by rewrite Z.ltb_irrefl.
Qed.

(** X17: the image [main] hands to [mosaic] is never wider than it is high; it
    is rotated exactly when the original is wider than high; and the
    bottom-left pixel of the original is the last pixel of its first
    column, or, when rotated, of its last column: the corner in which
    [mosaic] reserves the origin cell. *)
Theorem working_image_is_portrait originalImage w h :
  im_size originalImage = (w, h) -> 1 <= w -> 1 <= h ->
  let rotated := (workingImage originalImage).1 in
  let working := (workingImage originalImage).2 in
  rotated = (h <? w) /\
  (im_size working).1 <= (im_size working).2 /\
  (im_size working).1 = Z.min w h /\ (im_size working).2 = Z.max w h /\
  getpixel working (if rotated then (im_size working).1 - 1 else 0)
                   ((im_size working).2 - 1)
  = getpixel originalImage 0 (h - 1).
Proof.
  intros Hsz Hw Hh. unfold workingImage. rewrite Hsz.
  destruct (Z.ltb_spec h w) as [Hlt|Hge]; cbn [fst snd].
  - unfold Image_rotate90. rewrite Hsz. cbn [im_size fst snd].
    split; [reflexivity|]. split; [lia|]. split; [lia|]. split; [lia|].
    rewrite !getpixel_inside by (rewrite ?Hsz; cbn [im_size fst snd]; lia).
    cbn [im_data]. do 2 f_equal; lia.
  - rewrite Hsz. cbn [fst snd].
    split; [reflexivity|]. split; [lia|]. split; [lia|]. split; [lia|].
    reflexivity.
Qed.

Lemma working_image_is_portrait_witness :
  (workingImage {| im_size := (3, 2); im_data := fun x y => (x, y, 7) |}).1
  = true /\
  getpixel
    (workingImage {| im_size := (3, 2); im_data := fun x y => (x, y, 7) |}).2
    1 2 = Some (0, 1, 7).
Proof.
  destruct (working_image_is_portrait
              {| im_size := (3, 2); im_data := fun x y => (x, y, 7) |} 3 2)
    as (H1 & _ & _ & _ & H2); [reflexivity | lia | lia |].
  split; [exact H1 | exact H2].
Defined.

Lemma for_fails {A S} (l : list A) (f : A -> S -> option S) c :
  c ∈ l -> (forall s, f c s = None) -> forall s, Py.for_ l f s = None.
Proof.
  intros Hc Hf. induction l as [|a l IH]; intros s.
  - by apply elem_of_nil in Hc.
  - cbn [Py.for_]. apply elem_of_cons in Hc as [<-|Hc].
    + by rewrite Hf.
    + destruct (f a s) as [s'|]; [|reflexivity]. cbn [mbind option_bind].
      by apply IH.
Qed.

Lemma findBestTile_empty inimage allowDups placedTiles dim row col :
  findBestTile inimage allowDups placedTiles [] dim row col = None.
Proof.
  unfold findBestTile. destruct (samplePixels inimage dim row col); reflexivity.
Qed.

(** X18: with an empty colour table, duplicates allowed and [dim >= 1],
    [mosaic] passes its check for the number of images and fails in
    placement, at [assert found], as soon as the grid has a cell besides
    the origin. *)
Theorem empty_table_raises_in_placement
        resize maxPixels newImage rotated tilemm canvas dim margin XD YD p :
  tileGrid canvas margin tilemm (im_size newImage) = Some (XD, YD) ->
  canvasPlan maxPixels canvas margin XD YD (tileSize tilemm) = Some p ->
  1 <= dim -> 1 <= XD -> 1 <= YD -> 2 <= XD * YD ->
  mosaic resize maxPixels newImage rotated [] tilemm canvas dim true margin
  = Raised Placement.
Proof.
  intros Hgrid Hplan Hdim HX HY Hcells. unfold mosaic. rewrite Hgrid.
  cbv beta iota zeta.
  destruct (Z.ltb_spec (dim * XD) 1); [nia|].
  destruct (Z.ltb_spec (dim * YD) 1); [nia|]. cbn [orb].
  rewrite andb_false_r, Hplan.
  set (oR := YD - 1). set (oC := if rotated then XD - 1 else 0).
  assert (Hnone : placeSpiral (resize newImage (dim * XD, dim * YD)) oR oC
                    XD YD [] dim true = None); [|by rewrite Hnone].
  unfold placeSpiral.
  destruct (acceptedCells_grid XD YD HX HY) as (cells & Hacc & Hnd & Hin).
  rewrite (placeSpiralVars_for _ _ _ _ _ _ _ _ cells Hacc).
  assert (Hc : exists c, c ∈ cells /\ c <> (oR, oC)).
  { destruct (decide ((0, 0) = (oR, oC))) as [Heq|Hne].
    - assert (oR = 0 /\ oC = 0) as [HoR HoC] by (by injection Heq).
      unfold oR in HoR. assert (YD = 1) by lia. subst YD.
      exists (0, 1). split; [apply Hin; lia|]. rewrite HoC. congruence.
    - exists (0, 0). split; [apply Hin; lia | done]. }
  destruct Hc as (c & Hc & Hne).
  rewrite (for_fails cells _ c Hc); [reflexivity|].
  intros s. rewrite placeStep_best by done.
  by rewrite findBestTile_empty.
Qed.

Lemma empty_table_raises_in_placement_witness :
  mosaic (fun im _ => im) 89478485
         {| im_size := (100, 100); im_data := fun _ _ => (0, 0, 0) |}
         false [] 10 (40, 50) 1 true 0 = Raised Placement.
Proof.
  eapply (empty_table_raises_in_placement _ _ _ _ _ _ _ _ 4 4);
    [reflexivity | reflexivity | lia | lia | lia | lia].
Defined.

(** *** The summarizer's failures, shape and range *)

Lemma sections_head dim :
  1 <= dim -> exists rest, sections dim = (0, 0) :: rest.
Proof.
  intros Hd. unfold sections, Py.range.
  destruct (Z.to_nat dim) as [|n] eqn:Hn; [lia|].
  cbn [seq map flat_map app]. eexists. reflexivity.
Qed.

Lemma sectionPixels_empty w h dim :
  1 <= dim -> 0 <= w -> 0 <= h -> w < dim \/ h < dim ->
  sectionPixels w h dim 0 0 = [].
Proof.
  intros Hd Hw Hh Hsmall. unfold sectionPixels, spanLength.
  destruct Hsmall as [Hs|Hs].
  - rewrite (Z.quot_small w dim) by lia. reflexivity.
  - rewrite (Z.quot_small h dim) by lia. cbn [Py.range Z.to_nat seq map].
    induction (Py.range (w ÷ dim)); [reflexivity|]. cbn. exact IHl.
Qed.

Lemma sectionStep_empty im w h dim :
  im_size im = (w, h) -> 1 <= dim -> 0 <= w -> 0 <= h ->
  w < dim \/ h < dim ->
  sectionStep im dim (0, 0)
    {| redval := replicate (Z.to_nat (dim * dim)) 0;
       greenval := replicate (Z.to_nat (dim * dim)) 0;
       blueval := replicate (Z.to_nat (dim * dim)) 0;
       section := 0; count := 0 |} = None.
Proof.
  intros Hsz Hd Hw Hh Hsmall. unfold sectionStep. rewrite Hsz. cbn [fst snd].
  rewrite (sectionPixels_empty w h dim) by done.
  cbn [Py.for_ mbind option_bind]. unfold average.
  cbn [redval greenval blueval section count].
  assert (Hz : Py.index (replicate (Z.to_nat (dim * dim)) 0) 0 = Some 0).
  { unfold Py.index. cbn. apply lookup_replicate_2. nia. }
  rewrite Hz. reflexivity.
Qed.

(** X19: [colours] raises [ZeroDivisionError] exactly when the image has fewer
    pixels along an axis than there are subdivisions. *)
Theorem colours_raises_iff_too_small im w h dim :
  im_size im = (w, h) -> 0 <= w -> 0 <= h -> 1 <= dim ->
  colours im dim = None <-> w < dim \/ h < dim.
Proof.
  intros Hsz Hw Hh Hd. split.
  - intros Hnone.
    destruct (Z.lt_ge_cases w dim) as [|Hwd]; [by left|].
    destruct (Z.lt_ge_cases h dim) as [|Hhd]; [by right|].
    rewrite colours_summary in Hnone by (rewrite ?Hsz; cbn [fst snd]; lia).
    discriminate.
  - intros Hsmall. rewrite colours_sections by done.
    destruct (sections_head dim Hd) as [rest ->]. cbn [Py.for_].
    by rewrite (sectionStep_empty im w h dim).
Qed.

Lemma colours_raises_iff_too_small_witness :
  colours {| im_size := (2, 5); im_data := fun _ _ => (1, 2, 3) |} 3 = None.
Proof.
  apply (colours_raises_iff_too_small _ 2 5 3);
    [reflexivity | lia | lia | lia | left; lia].
Defined.

Lemma sumZ_bounds lo hi (l : list Z) :
  (forall v, v ∈ l -> lo <= v <= hi) ->
  lo * Z.of_nat (length l) <= sumZ l <= hi * Z.of_nat (length l).
Proof.
  induction l as [|a l IH]; intros Hl; [cbn; lia|].
  cbn [sumZ foldr length]. fold (sumZ l).
  pose proof (Hl a ltac:(left)). 
  assert (forall v, v ∈ l -> lo <= v <= hi) as Hl' by (intros; apply Hl; by right).
  specialize (IH Hl'). lia.
Qed.

Lemma mean_bounds lo hi (l : list Z) :
  l <> [] -> (forall v, v ∈ l -> lo <= v <= hi) -> lo <= mean l <= hi.
Proof.
  intros Hne Hl. unfold mean.
  pose proof (sumZ_bounds lo hi l Hl) as Hs.
  set (n := Z.of_nat (length l)) in *.
  assert (Hn : 0 < n) by (unfold n; destruct l; [done|cbn; lia]).
  pose proof (inject_Z_pos n Hn) as Hn'.
  destruct (round_bounds (inject_Z (sumZ l) / inject_Z n)) as [Hlo Hhi].
  set (r := Py.round (inject_Z (sumZ l) / inject_Z n)) in *.
  assert (Hq1 : (inject_Z lo <= inject_Z (sumZ l) / inject_Z n)%Q).
  { apply Qle_shift_div_l; [exact Hn'|].
    rewrite <- inject_Z_mult. rewrite <- Zle_Qle. lia. }
  assert (Hq2 : (inject_Z (sumZ l) / inject_Z n <= inject_Z hi)%Q).
  { apply Qle_shift_div_r; [exact Hn'|].
    rewrite <- inject_Z_mult. rewrite <- Zle_Qle. lia. }
  split.
  - assert (H : lo < r + 1); [|lia]. apply inject_Z_lt.
    rewrite inject_Z_plus. change (inject_Z 1) with 1%Q. Lqa.lra.
  - assert (H : r < hi + 1); [|lia]. apply inject_Z_lt.
    rewrite inject_Z_plus. change (inject_Z 1) with 1%Q. Lqa.lra.
Qed.

Lemma sectionPixels_nonempty w h dim x y :
  1 <= dim -> dim <= w -> dim <= h -> sectionPixels w h dim x y <> [].
Proof.
  intros Hd Hw Hh Hnil.
  pose proof (length_sectionPixels w h dim x y) as Hlen.
  rewrite Hnil in Hlen. cbn [length] in Hlen.
  pose proof (spanLength_pos w dim Hd Hw). pose proof (spanLength_pos h dim Hd Hh).
  nia.
Qed.

(** X20: for [1 <= dim <= min(w, h)] the summary has [dim*dim] values per
    channel, and every value lies between the smallest and the largest
    value that the channel takes in the image: 8-bit pixels give 8-bit
    summaries. *)
Theorem colours_shape_and_range im w h dim lo hi :
  im_size im = (w, h) -> 1 <= dim -> dim <= w -> dim <= h ->
  (forall x y, 0 <= x < w -> 0 <= y < h ->
     lo <= (im_data im x y).1.1 <= hi /\ lo <= (im_data im x y).1.2 <= hi /\
     lo <= (im_data im x y).2 <= hi) ->
  exists sig,
    colours im dim = Some sig /\ hasCells dim sig /\
    forall v, v ∈ sig.1.1 ++ sig.1.2 ++ sig.2 -> lo <= v <= hi.
Proof.
  intros Hsz Hd Hw Hh Hpx. exists (summary im dim).
  split; [apply colours_summary; rewrite ?Hsz; cbn [fst snd]; lia|].
  split.
  - unfold hasCells, summary. cbn [fst snd].
    rewrite !length_map, length_sections by lia. done.
  - assert (Hcell : forall s, s ∈ sections dim ->
      lo <= (sectionColour im dim s.1 s.2).1.1 <= hi /\
      lo <= (sectionColour im dim s.1 s.2).1.2 <= hi /\
      lo <= (sectionColour im dim s.1 s.2).2 <= hi).
    { intros [x y] Hs. apply elem_of_sections in Hs. cbn [fst snd].
      unfold sectionColour. rewrite Hsz. cbn [fst snd].
      assert (Hin : forall c,
        c ∈ map (fun p => im_data im p.1 p.2) (sectionPixels w h dim x y) ->
        lo <= c.1.1 <= hi /\ lo <= c.1.2 <= hi /\ lo <= c.2 <= hi).
      { intros c Hc. apply list_elem_of_fmap in Hc as ([i j] & -> & Hp).
        apply elem_of_sectionPixels in Hp.
        pose proof (span_in_axis w dim x Hd ltac:(lia) ltac:(lia)).
        pose proof (span_in_axis h dim y Hd ltac:(lia) ltac:(lia)).
        cbn [fst snd]. apply Hpx; lia. }
      assert (Hne : map (fun p => im_data im p.1 p.2)
                      (sectionPixels w h dim x y) <> []).
      { intros Hnil. apply fmap_nil_inv in Hnil.
        by apply (sectionPixels_nonempty w h dim x y). }
      split; [|split];
        (apply mean_bounds;
         [intros Hnil; apply fmap_nil_inv in Hnil; done
         |intros v Hv; apply list_elem_of_fmap in Hv as (c & -> & Hc);
          apply Hin in Hc; lia]). }
    intros v Hv. unfold summary in Hv. cbn [fst snd] in Hv.
    rewrite !elem_of_app in Hv.
    destruct Hv as [Hv|[Hv|Hv]];
      apply list_elem_of_fmap in Hv as (c & -> & Hc);
      apply list_elem_of_fmap in Hc as (s & -> & Hs);
      apply Hcell in Hs; lia.
Qed.

Lemma colours_shape_and_range_witness :
  exists sig,
    colours {| im_size := (4, 6); im_data := fun x y => (x, y, 9) |} 2
      = Some sig /\
    forall v, v ∈ sig.1.1 ++ sig.1.2 ++ sig.2 -> 0 <= v <= 9.
Proof.
  destruct (colours_shape_and_range
              {| im_size := (4, 6); im_data := fun x y => (x, y, 9) |}
              4 6 2 0 9) as (sig & Hrun & _ & Hrange);
    [reflexivity | lia | lia | lia | cbn; intros; lia |].
  exists sig. split; [exact Hrun | exact Hrange].
Defined.

(** *** Sampling and summarizing number the cells alike *)

Lemma sample_append (f : Z * Z -> option RGB) (g : Z * Z -> RGB) ss :
  (forall s, s ∈ ss -> f s = Some (g s)) ->
  forall sig : Signature,
  Py.for_ ss (fun s '(r, g0, b) =>
                '(rp, gp, bp) ← f s;
                Some (r ++ [rp], g0 ++ [gp], b ++ [bp])) sig
  = Some (sig.1.1 ++ map (fun s => (g s).1.1) ss,
          sig.1.2 ++ map (fun s => (g s).1.2) ss,
          sig.2 ++ map (fun s => (g s).2) ss).
Proof.
  induction ss as [|s ss IH]; intros Hf [[r g0] b].
  - cbn. by rewrite !app_nil_r.
  - cbn [Py.for_]. rewrite (Hf s) by left.
    destruct (g s) as [[rp gp] bp] eqn:Hg. cbn [mbind option_bind].
    rewrite IH by (intros; apply Hf; by right).
    cbn [fst snd map]. rewrite Hg. cbn [fst snd].
    by rewrite <- !app_assoc.
Qed.

Lemma samplePixels_sections inimage dim row col :
  samplePixels inimage dim row col =
  Py.for_ (sections dim)
    (fun s '(r, g0, b) =>
       '(rp, gp, bp) ← getpixel inimage (col * dim + s.1) (row * dim + s.2);
       Some (r ++ [rp], g0 ++ [gp], b ++ [bp])) ([], [], []).
Proof.
  unfold samplePixels, sections. rewrite for_flat_map.
  apply for_ext. intros fx sig. by rewrite for_map.
Qed.

Lemma samplePixels_block inimage dim XD YD row col :
  1 <= dim -> im_size inimage = (dim * XD, dim * YD) ->
  0 <= row < YD -> 0 <= col < XD ->
  samplePixels inimage dim row col =
  Some (map (fun s => (im_data inimage (col * dim + s.1) (row * dim + s.2)).1.1)
            (sections dim),
        map (fun s => (im_data inimage (col * dim + s.1) (row * dim + s.2)).1.2)
            (sections dim),
        map (fun s => (im_data inimage (col * dim + s.1) (row * dim + s.2)).2)
            (sections dim)).
Proof.
  intros Hd Hsz Hr Hc. rewrite samplePixels_sections.
  rewrite (sample_append
             (fun s => getpixel inimage (col * dim + s.1) (row * dim + s.2))
             (fun s => im_data inimage (col * dim + s.1) (row * dim + s.2)));
    [reflexivity|].
  intros [x y] Hs. apply elem_of_sections in Hs. cbn [fst snd].
  apply getpixel_inside; rewrite Hsz; cbn [fst snd]; nia.
Qed.

Lemma sectionColour_pixel im dim x y :
  1 <= dim -> im_size im = (dim, dim) -> 0 <= x < dim -> 0 <= y < dim ->
  sectionColour im dim x y = im_data im x y.
Proof.
  intros Hd Hsz Hx Hy. unfold sectionColour. rewrite Hsz. cbn [fst snd].
  assert (Hpx : sectionPixels dim dim dim x y = [(x, y)]).
  { unfold sectionPixels, spanLength, spanStart.
    rewrite Z.quot_same by lia. rewrite !Z.quot_mul by lia.
    cbn. f_equal. }
  rewrite Hpx. cbn [map fst snd].
  destruct (im_data im x y) as [[r g] b]. cbn [fst snd].
  f_equal; [f_equal|]; apply mean_const; try done;
    intros v Hv; apply elem_of_cons in Hv as [->|Hv%elem_of_nil]; done.
Qed.

(** X21: the signature that [findBestTile] samples for a cell is the colour
    summary that [colours] computes, for the same [dim], of the
    [dim x dim] block of that cell: the two number the sub-cells in the
    same order, columns outside and rows inside. *)
Theorem sample_is_summary_of_block inimage dim XD YD row col :
  1 <= dim -> im_size inimage = (dim * XD, dim * YD) ->
  0 <= row < YD -> 0 <= col < XD ->
  samplePixels inimage dim row col =
  colours (Image_crop inimage (col * dim, row * dim,
                               col * dim + dim, row * dim + dim)) dim.
Proof.
  intros Hd Hsz Hr Hc.
  set (block := Image_crop inimage (col * dim, row * dim,
                                    col * dim + dim, row * dim + dim)).
  assert (Hbsz : im_size block = (dim, dim)).
  { unfold block, Image_crop. cbn [fst snd im_size]. f_equal; lia. }
  rewrite colours_summary by (rewrite ?Hbsz; cbn [fst snd]; lia).
  rewrite (samplePixels_block inimage dim XD YD) by done.
  assert (Hcell : forall s, s ∈ sections dim ->
    sectionColour block dim s.1 s.2
    = im_data inimage (col * dim + s.1) (row * dim + s.2)).
  { intros [x y] Hs. apply elem_of_sections in Hs. cbn [fst snd].
    rewrite sectionColour_pixel by (done || lia).
    unfold block, Image_crop. cbn [im_data fst snd]. rewrite Hsz.
    cbn [fst snd].
    destruct (Z.leb_spec 0 (col * dim + x)); [|nia].
    destruct (Z.ltb_spec (col * dim + x) (dim * XD)); [|nia].
    destruct (Z.leb_spec 0 (row * dim + y)); [|nia].
    destruct (Z.ltb_spec (row * dim + y) (dim * YD)); [|nia].
    reflexivity. }
  unfold summary. rewrite !map_map. cbn [fst snd].
  f_equal. f_equal; [f_equal|];
    apply map_ext_in; intros s Hs%list_elem_of_In; by rewrite Hcell.
Qed.

Lemma sample_is_summary_of_block_witness :
  samplePixels {| im_size := (4, 2); im_data := fun x y => (x, y, 5) |} 2 0 1
  = colours (Image_crop {| im_size := (4, 2); im_data := fun x y => (x, y, 5) |}
                        (1 * 2, 0 * 2, 1 * 2 + 2, 0 * 2 + 2)) 2.
Proof.
  apply (sample_is_summary_of_block _ 2 2 1 0 1); [lia | reflexivity | lia | lia].
Defined.

(** *** The walk goes outwards *)

Lemma rank_ring x y :
  (ring x y = 0 -> rank x y = 0) /\
  (1 <= ring x y ->
   (2 * ring x y - 1) * (2 * ring x y - 1) <= rank x y
   < (2 * ring x y + 1) * (2 * ring x y + 1)).
Proof.
  unfold ring. destruct (arm_total x y) as [H1 H2 H3|H1 H2 H3|H1 H2 H3|H1 H2 H3].
  - destruct (rank_east x y H1 H2 H3) as [-> _].
    replace (Z.max (Z.abs x) (Z.abs y)) with x by lia. split; [lia|nia].
  - destruct (rank_north x y H1 H2 H3) as [-> _].
    replace (Z.max (Z.abs x) (Z.abs y)) with y by lia. split; [lia|nia].
  - destruct (rank_west x y H1 H2 H3) as [-> _].
    replace (Z.max (Z.abs x) (Z.abs y)) with (- x) by lia. split; [nia|nia].
  - destruct (rank_south x y H1 H2 H3) as [-> _].
    replace (Z.max (Z.abs x) (Z.abs y)) with (- y) by lia. split; [lia|nia].
Qed.

Lemma rank_lt_ring_le x y x' y' :
  rank x y < rank x' y' -> ring x y <= ring x' y'.
Proof.
  intros Hlt. pose proof (rank_ring x y) as [Ha0 Ha]. 
  pose proof (rank_ring x' y') as [Hb0 Hb].
  pose proof (rank_nonneg x y).
  assert (0 <= ring x y) by (unfold ring; lia).
  assert (0 <= ring x' y') by (unfold ring; lia).
  destruct (Z.eq_dec (ring x' y') 0) as [E|E].
  - specialize (Hb0 E). lia.
  - specialize (Hb ltac:(lia)).
    destruct (Z.eq_dec (ring x y) 0) as [E'|E']; [lia|].
    specialize (Ha ltac:(lia)). nia.
Qed.

Lemma StronglySorted_positions n : forall s,
  aligned s ->
  StronglySorted (fun a b => rank a.1 a.2 < rank b.1 b.2) (positions n s).
Proof.
  induction n as [|n IH]; intros s Hs; [constructor|].
  cbn [positions]. destruct (aligned_next s Hs) as [Hs' Hr].
  constructor; [by apply IH|].
  apply Forall_forall. intros q Hq.
  apply list_elem_of_lookup in Hq as [i Hi].
  rewrite (positions_rank n (next s) i q Hs' Hi). cbn [fst snd]. lia.
Qed.

Lemma StronglySorted_filter {A} (R : A -> A -> Prop) (P : A -> bool) l :
  StronglySorted R l -> StronglySorted R (List.filter P l).
Proof.
  induction 1 as [|a l Hl IH Ha]; [constructor|].
  cbn [List.filter]. destruct (P a); [|exact IH].
  constructor; [exact IH|].
  apply Forall_forall. intros b Hb. apply list_elem_of_In in Hb.
  apply filter_In in Hb as [Hb _]. apply list_elem_of_In in Hb.
  by apply (proj1 (Forall_forall _ _) Ha).
Qed.

Lemma StronglySorted_map {A B} (R : B -> B -> Prop) (f : A -> B) l :
  StronglySorted (fun a b => R (f a) (f b)) l -> StronglySorted R (map f l).
Proof.
  induction 1 as [|a l Hl IH Ha]; [constructor|].
  cbn [map]. constructor; [exact IH|].
  apply Forall_forall. intros b Hb.
  apply list_elem_of_fmap in Hb as (b0 & -> & Hb0).
  by apply (proj1 (Forall_forall _ _) Ha).
Qed.

Lemma StronglySorted_impl {A} (R R' : A -> A -> Prop) l :
  (forall a b, R a b -> R' a b) -> StronglySorted R l -> StronglySorted R' l.
Proof.
  intros HR. induction 1 as [|a l Hl IH Ha]; constructor; [exact IH|].
  eapply Forall_impl; [exact Ha|]. intros b. apply HR.
Qed.

(** X22: the cells are accepted ring by ring, from the centre outwards: a
    cell accepted earlier is never farther from the centre cell than a
    cell accepted later. *)
Theorem spiral_walks_outwards XD YD :
  1 <= XD -> 1 <= YD ->
  exists cells,
    acceptedCells XD YD = Some cells /\
    StronglySorted (fun a b => cellRing XD YD a <= cellRing XD YD b) cells.
Proof.
  intros HX HY. rewrite acceptedCells_eq. eexists. split; [reflexivity|].
  apply StronglySorted_map. unfold accepted. apply StronglySorted_filter.
  apply (StronglySorted_impl (fun a b => rank a.1 a.2 < rank b.1 b.2)).
  - intros [x y] [x' y'] Hlt. unfold cellRing. cbn [fst snd] in *.
    replace ((XD - 1) ÷ 2 + x - (XD - 1) ÷ 2) with x by lia.
    replace ((YD - 1) ÷ 2 + y - (YD - 1) ÷ 2) with y by lia.
    replace ((XD - 1) ÷ 2 + x' - (XD - 1) ÷ 2) with x' by lia.
    replace ((YD - 1) ÷ 2 + y' - (YD - 1) ÷ 2) with y' by lia.
    by apply rank_lt_ring_le.
  - apply StronglySorted_positions. reflexivity.
Qed.

Lemma spiral_walks_outwards_witness :
  exists cells,
    acceptedCells 3 3 = Some cells /\
    StronglySorted (fun a b => cellRing 3 3 a <= cellRing 3 3 b) cells.
Proof. apply (spiral_walks_outwards 3 3); lia. Defined.

(** *** The failures of the metric *)

Lemma for_unchanged {A S} (l : list A) (f : A -> S -> option S) s :
  (forall a s, f a s = Some s) -> Py.for_ l f s = Some s.
Proof.
  intros Hf. induction l as [|a l IH]; [reflexivity|].
  cbn [Py.for_]. rewrite Hf. exact IH.
Qed.

(** X24: [metric] raises exactly when the source is larger than the mosaic
    along an axis (its assertions) or the mosaic has no pixel (the
    division by [cnt]). *)
Theorem metric_raises_iff resize original mosaic mWidth mHeight :
  im_size mosaic = (mWidth, mHeight) ->
  im_size (resize original (mWidth, mHeight)) = (mWidth, mHeight) ->
  0 <= mWidth -> 0 <= mHeight ->
  metric resize original mosaic = None <->
  mWidth < (im_size original).1 \/ mHeight < (im_size original).2 \/
  mWidth = 0 \/ mHeight = 0.
Proof.
  intros Hm Ho Hw Hh. split.
  - intros Hnone.
    destruct (Z.lt_ge_cases mWidth (im_size original).1); [tauto|].
    destruct (Z.lt_ge_cases mHeight (im_size original).2); [tauto|].
    destruct (Z.eq_dec mWidth 0); [tauto|].
    destruct (Z.eq_dec mHeight 0); [tauto|].
    destruct (metric_eq resize original mosaic mWidth mHeight Hm Ho)
      as (avg & Hrun & _); [lia..|]. congruence.
  - intros Hbad. unfold metric.
    destruct (im_size original) as [oWidth oHeight]. rewrite Hm.
    cbn [fst snd] in Hbad.
    destruct (Z.leb_spec oWidth mWidth); [|reflexivity].
    destruct (Z.leb_spec oHeight mHeight); [|reflexivity].
    cbn [negb].
    destruct Hbad as [?|[?|[->| ->]]]; [lia | lia | reflexivity |].
    rewrite for_unchanged; [reflexivity|]. intros x t. reflexivity.
Qed.

Lemma metric_raises_iff_witness :
  metric (fun im size => {| im_size := size; im_data := im_data im |})
         {| im_size := (2, 1); im_data := fun _ _ => (0, 0, 0) |}
         (onePixel (0, 0, 0)) = None.
Proof.
  apply (metric_raises_iff
           (fun im size => {| im_size := size; im_data := im_data im |})
           {| im_size := (2, 1); im_data := fun _ _ => (0, 0, 0) |}
           (onePixel (0, 0, 0)) 1 1);
    [reflexivity | reflexivity | lia | lia | left; cbn; lia].
Defined.

(** *** Reading the colour table *)

Section ReadTable.
Variables (split : string -> list string) (int : string -> option Z).
Variable dim : Z.

Lemma readTriple_step cols v v' :
  readTriple int cols v = Some v' ->
  length (r_redval v') = S (length (r_redval v)) /\
  length (r_greenval v') = S (length (r_greenval v)) /\
  length (r_blueval v') = S (length (r_blueval v)) /\
  r_offset v' = r_offset v + 3 /\
  r_offset v + 2 < Z.of_nat (length cols).
Proof.
  unfold readTriple. intros Hrun.
  destruct (Py.index cols (r_offset v)) as [c0|];
    cbn [mbind option_bind] in Hrun; [|discriminate].
  destruct (int c0) as [red|];
    cbn [mbind option_bind] in Hrun; [|discriminate].
  destruct (Py.index cols (r_offset v + 1)) as [c1|];
    cbn [mbind option_bind] in Hrun; [|discriminate].
  destruct (int c1) as [green|];
    cbn [mbind option_bind] in Hrun; [|discriminate].
  destruct (Py.index cols (r_offset v + 2)) as [c2|] eqn:Hc2;
    cbn [mbind option_bind] in Hrun; [|discriminate].
  destruct (int c2) as [blue|];
    cbn [mbind option_bind] in Hrun; [|discriminate].
  injection Hrun as <-. cbn [r_redval r_greenval r_blueval r_offset].
  rewrite !length_app. cbn [length]. apply index_range in Hc2.
  repeat split; lia.
Qed.

Lemma row_loop cols (l : list Z) : forall v v',
  Py.for_ l (fun d v => readTriple int cols v) v = Some v' ->
  length (r_redval v') = (length (r_redval v) + length l)%nat /\
  length (r_greenval v') = (length (r_greenval v) + length l)%nat /\
  length (r_blueval v') = (length (r_blueval v) + length l)%nat /\
  r_offset v' = r_offset v + 3 * Z.of_nat (length l) /\
  (l <> [] -> r_offset v' <= Z.of_nat (length cols)).
Proof.
  induction l as [|d l IH]; intros v v' Hrun.
  - cbn in Hrun. injection Hrun as <-. cbn [length]. repeat split; try lia.
    done.
  - cbn [Py.for_] in Hrun.
    destruct (readTriple int cols v) as [v1|] eqn:Hstep;
      cbn [mbind option_bind] in Hrun; [|discriminate].
    apply readTriple_step in Hstep as (S1 & S2 & S3 & S4 & S5).
    apply IH in Hrun as (H1 & H2 & H3 & H4 & H5). cbn [length].
    repeat split; try lia. intros _.
    destruct l as [|d' l]; [cbn [length] in *; lia|]. by apply H5.
Qed.

Lemma readRow_shape line name colours :
  readRow split int dim line = Some (name, colours) ->
  hasCells dim colours /\
  1 + 3 * (dim * dim) <= Z.of_nat (length (split line)).
Proof.
  unfold readRow. intros Hrun.
  destruct (Py.index (split line) 0) as [nm|] eqn:Hname;
    cbn [mbind option_bind] in Hrun; [|discriminate].
  match type of Hrun with
  | context [Py.for_ ?l ?f ?v0] =>
      destruct (Py.for_ l f v0) as [v|] eqn:Hloop;
        cbn [mbind option_bind] in Hrun; [|discriminate]
  end. injection Hrun as -> <-.
  apply (row_loop (split line)) in Hloop.
  cbn [r_redval r_greenval r_blueval r_offset length] in Hloop.
  rewrite length_range in Hloop.
  destruct Hloop as (H1 & H2 & H3 & H4 & H5).
  split; [by repeat split|].
  apply index_range in Hname.
  assert (0 <= dim * dim) by nia.
  destruct (Py.range (dim * dim)) as [|d l] eqn:Hr.
  - apply (f_equal length) in Hr. rewrite length_range in Hr.
    cbn [length] in Hr. lia.
  - specialize (H5 ltac:(done)). lia.
Qed.

Lemma table_loop lines : forall acc table,
  Py.for_ lines (fun line ctable =>
    entry ← readRow split int dim line; Some (ctable ++ [entry])) acc
  = Some table ->
  exists entries,
    table = acc ++ entries /\
    Forall2 (fun line entry => readRow split int dim line = Some entry)
            lines entries.
Proof.
  induction lines as [|line lines IH]; intros acc table Hrun.
  - cbn in Hrun. injection Hrun as <-. exists []. by rewrite app_nil_r.
  - cbn [Py.for_] in Hrun.
    destruct (readRow split int dim line) as [entry|] eqn:Hrow;
      cbn [mbind option_bind] in Hrun; [|discriminate].
    apply IH in Hrun as (entries & -> & Hall).
    exists (entry :: entries). split; [by rewrite <- app_assoc|].
    by constructor.
Qed.

End ReadTable.

(** X25: when [readcolourtable] returns, the table has one entry per line of
    the file, and every entry holds [dim*dim] values per channel: the
    form that [findBestTile] and [distance] rely on.  Every line then has
    at least [1 + 3*dim*dim] fields. *)
Theorem readcolourtable_shape split int lines dim table :
  readcolourtable split int lines dim = Some table ->
  length table = length lines /\
  tableOf dim table /\
  forall line, line ∈ lines ->
    1 + 3 * (dim * dim) <= Z.of_nat (length (split line)).
Proof.
  unfold readcolourtable. intros Hrun.
  apply table_loop in Hrun as (entries & -> & Hall). cbn [app].
  split; [symmetry; by eapply Forall2_length|]. split.
  - intros name colours Hin.
    apply list_elem_of_lookup in Hin as [i Hi].
    destruct (Forall2_lookup_r _ _ _ _ _ Hall Hi) as (line & _ & Hrow).
    by apply readRow_shape in Hrow as [? _].
  - intros line Hin.
    apply list_elem_of_lookup in Hin as [i Hi].
    destruct (Forall2_lookup_l _ _ _ _ _ Hall Hi) as ([name colours] & _ & Hrow).
    by apply readRow_shape in Hrow as [_ ?].
Qed.

Lemma readcolourtable_shape_witness :
  tableOf 1 [("a.jpg"%string, ([255], [0], [0]))].
Proof.
  destruct (readcolourtable_shape (fun line => fields line EmptyString)
              (fun field => digits field 0) ["a.jpg 255 0 0"%string] 1
              [("a.jpg"%string, ([255], [0], [0]))]) as (_ & Htab & _);
    [vm_compute; reflexivity | exact Htab].
Defined.

Lemma index_take {A} (l : list A) k i :
  i < k -> Py.index (take (Z.to_nat k) l) i = Py.index l i.
Proof.
  intros Hi. unfold Py.index. destruct (Z.ltb_spec i 0); [done|].
  apply lookup_take_lt. lia.
Qed.

Lemma readTriple_take int cols k v :
  r_offset v + 3 <= k ->
  readTriple int (take (Z.to_nat k) cols) v = readTriple int cols v.
Proof.
  intros Hk. unfold readTriple. by rewrite !index_take by lia.
Qed.

Lemma row_loop_take int cols k (l : list Z) : forall v,
  r_offset v + 3 * Z.of_nat (length l) <= k ->
  Py.for_ l (fun d v => readTriple int (take (Z.to_nat k) cols) v) v
  = Py.for_ l (fun d v => readTriple int cols v) v.
Proof.
  induction l as [|d l IH]; intros v Hk; [done|].
  cbn [Py.for_ length] in *. rewrite readTriple_take by lia.
  destruct (readTriple int cols v) as [v1|] eqn:Hstep; [|done].
  cbn [mbind option_bind].
  apply readTriple_step in Hstep as (_ & _ & _ & Hoff & _).
  apply IH. lia.
Qed.

(** X26: [readcolourtable] reads the first [1 + 3*dim*dim] fields of a line
    and nothing after them: a catalog written for a larger [dim] is read
    without an error, its further values left out. *)
Theorem readcolourtable_ignores_further_fields split int lines dim :
  readcolourtable
    (fun line => take (Z.to_nat (1 + 3 * (dim * dim))) (split line))
    int lines dim
  = readcolourtable split int lines dim.
Proof.
  unfold readcolourtable. apply for_ext. intros line ctable.
  unfold readRow. cbv zeta.
  rewrite index_take by nia.
  rewrite row_loop_take; [done|].
  rewrite length_range. cbn [r_offset]. nia.
Qed.

(** ** The matcher and the metric in binary64 *)

(** *** The order of binary64 *)

Lemma SFltb_irrefl x : SpecFloat.SFltb x x = false.
Proof.
  unfold SpecFloat.SFltb, SpecFloat.SFcompare.
  destruct x as [s|s| |s m e]; try destruct s; try reflexivity;
    rewrite Z.compare_refl;
    change (PosDef.Pos.compare_cont Eq m m) with (Pos.compare m m);
    by rewrite Pos.compare_refl.
Qed.




Lemma ltb_irrefl x : PrimFloat.ltb x x = false.
Proof. rewrite FloatAxioms.ltb_spec. apply SFltb_irrefl. Qed.


(** *** The distances are computed *)






(** *** The scan *)

Section Scan64.
Variables (allowDups : bool) (placedTiles : gset Z) (table : ColourTable).
Variables (dim : Z) (sig : Signature).

Let body := (fun (i : Z) (best : option (Z * PrimFloat.float)) =>
    if allowDups || negb (bool_decide (i ∈ placedTiles)) then
      '(name, colours) ← Py.index table i;
      dist ← Float64.tileDistance dim sig colours;
      match best with
      | None => Some (Some (i, dist))
      | Some (bestTileIndex, bestDistance) =>
          if PrimFloat.ltb dist bestDistance then Some (Some (i, dist))
          else Some best
      end
    else Some best).


End Scan64.






Lemma tableOf_permutedTiles : tableOf 2 permutedTiles.
Proof.
  intros name colours Hin. unfold permutedTiles in Hin.
  repeat (apply elem_of_cons in Hin as [Hin|Hin];
          [simplify_eq; repeat split; reflexivity|]).
  by apply elem_of_nil in Hin.
Qed.

(** Why the scan is stated over binary64.  Two tiles whose cells lie at
    the same distances from the sampled signature, in another order, are
    equally far from it over the reals; the sums computed in binary64
    differ in the last place, and the scan returns the second. *)
Remark equal_distances_are_computed_apart :
  candidate true ∅ permutedTiles 0 /\ candidate true ∅ permutedTiles 1 /\
  samplePixels blackBlock 2 0 0
    = Some ([0; 0; 0; 0], [0; 0; 0; 0], [0; 0; 0; 0]) /\
  (exists d,
     distanceTo 2 ([0; 0; 0; 0], [0; 0; 0; 0], [0; 0; 0; 0]) permutedTiles 0
       = Some d /\
     distanceTo 2 ([0; 0; 0; 0], [0; 0; 0; 0], [0; 0; 0; 0]) permutedTiles 1
       = Some d) /\
  exists d,
    Float64.findBestTile blackBlock true ∅ permutedTiles 2 0 0 = Some (1, d).
Proof.
  split; [split; [simpl; lia | by left]|].
  split; [split; [simpl; lia | by left]|].
  split; [reflexivity|]. split.
  - eexists. split.
    + apply (distanceTo_signature 2 _ permutedTiles 0 "a"%string
               ([1; 1; 2; 0], [1; 1; 1; 0], [0; 1; 1; 0]));
        [lia | repeat split; reflexivity | repeat split; reflexivity
        | reflexivity].
    + rewrite (distanceTo_signature 2 _ permutedTiles 1 "b"%string
                 ([1; 2; 1; 0], [1; 1; 1; 0], [0; 1; 1; 0]));
        [|lia | repeat split; reflexivity | repeat split; reflexivity
         | reflexivity].
      f_equal. unfold signatureDistance, cellDistance, cell.
      change (Py.range (2 * 2)) with [0; 1; 2; 3].
      cbn [map sumR foldr].
      repeat match goal with
             | |- context [IZR ?z] =>
                 let v := eval vm_compute in z in progress change z with v
             end.
      lra.
  - eexists. vm_compute. reflexivity.
Qed.

(** *** The metric in binary64 *)

(** C5, at the failing input: a black source and a white mosaic of one
    pixel differ in every channel by the whole range, and the formula of
    the claim, which divides by [sqrt(3*255^2)], gives 0 percent.  The
    code divides by [sqrt(3*256*256)]: its average is
    [0.9960937500000001] and the percentage it reports is
    [0.3906249999999889], above 0. *)
Lemma black_against_white_scores_above_zero :
  similarity (sqrt (IZR (3 * 255 * 255)))
             (onePixel (0, 0, 0)) (onePixel (255, 255, 255)) 1 1 = 0%R /\
  Float64.metric (fun im _ => im) (onePixel (0, 0, 0))
                 (onePixel (255, 255, 255))
    = Some Reported.blackWhiteAverage /\
  Float64.percent Reported.blackWhiteAverage = Reported.blackWhitePercent /\
  PrimFloat.ltb PrimFloat.zero Reported.blackWhitePercent = true.
Proof.
  split; [|split; [|split]]; [|vm_compute; reflexivity..].
  unfold similarity, normalisedSum, cellDistance.
  change (Py.range 1) with [0]. cbn [map sumR foldr onePixel im_data fst snd].
  repeat match goal with
         | |- context [IZR ?z] =>
             let v := eval vm_compute in z in progress change z with v
         end.
  assert (H0 : (0 < sqrt 195075)%R) by (apply sqrt_lt_R0; lra).
  field. lra.
Qed.
